(** * lex-luthor: the Luthor lexer and the Parsicle parser

    A shallow embedding of [src/parsicle.js] (which also carries the text of
    the [luthor] module it requires): the character stream [CharStream], the
    token stream [Luthor] and the recursive-descent parser [Parsicle], followed
    by the properties of the specification that were checked against them.

    Conventions of the embedding.
    - A JavaScript string is a [string] of 8-bit characters, which covers
      every character that the lexer tells apart; the empty string that
      [charAt] returns past the end of the input is [None].
    - A [throw] is the outcome [Throw]; the two kinds of exception that the
      text of the code can raise are the [IllegalSyntaxError] of
      [CharStream.die] and the [TypeError] of the JavaScript runtime on a
      property read from [null]. What the runtime raises when the call stack
      is used up (a RangeError, on input nested too deep) is no [Throw]: a
      run that needs more depth than it has is [OutOfFuel].
    - A JavaScript number is the exact decimal it was read from (a [Q]); the
      rounding of [parseFloat] to the nearest double is not modelled.
    - The parser is a family of mutually recursive functions with no bound on
      its depth, so each of them takes fuel and gives [OutOfFuel] when it is
      used up; the lexer's loops are bounded by the characters that are left. *)

From Stdlib Require Import String Ascii List Bool Arith NArith ZArith Lia.
From Stdlib Require Import QArith DecimalString.
Import ListNotations.

Open Scope string_scope.
Open Scope nat_scope.

(* ------------------------------------------------------------------------- *)
(** ** Outcomes *)

Inductive exception : Type :=
| IllegalSyntaxError (line col : nat) (message : string)
| TypeError (message : string).

Inductive outcome (A : Type) : Type :=
| Ok (a : A)
| Throw (e : exception)
| OutOfFuel.

Arguments Ok {A} a.
Arguments Throw {A} e.
Arguments OutOfFuel {A}.

Definition string_of_nat (n : nat) : string :=
  NilEmpty.string_of_uint (Nat.to_uint n).

(** The [message] property that the constructor of the JavaScript exception
    computes. *)
Definition exception_message (e : exception) : string :=
  match e with
  | IllegalSyntaxError line col message =>
      "at (" ++ string_of_nat line ++ ":" ++ string_of_nat col ++ "): " ++ message
  | TypeError message => message
  end.

(* ------------------------------------------------------------------------- *)
(** ** Characters *)

Definition TAB : ascii := ascii_of_nat 9.
Definition EOL : ascii := ascii_of_nat 10.
Definition DQUOTE : ascii := ascii_of_nat 34.
Definition BACKSLASH : ascii := ascii_of_nat 92.

Definition str1 (c : ascii) : string := String c EmptyString.

(** [s.indexOf(c)] for a one-character [c]; [None] stands for [-1]. *)
Fixpoint indexOf (s : string) (c : ascii) : option nat :=
  match s with
  | EmptyString => None
  | String d s' => if Ascii.eqb d c then Some 0 else option_map S (indexOf s' c)
  end.

Definition found (r : option nat) : bool :=
  match r with Some _ => true | None => false end.

Definition in_range (lo hi c : ascii) : bool :=
  (nat_of_ascii lo <=? nat_of_ascii c) && (nat_of_ascii c <=? nat_of_ascii hi).

(* ------------------------------------------------------------------------- *)
(** ** CharStream *)

Record CharStream : Type := mkCharStream {
  stringOrReadable : string;
  pos : nat;
  line : nat;
  col : nat
}.

Module CharStream.

Definition new (content : string) : CharStream :=
  mkCharStream content 0 1 0.

(** [stringPeek]: [charAt(pos)], the empty string past the end. *)
Definition peek (s : CharStream) : option ascii :=
  String.get (pos s) (stringOrReadable s).

Definition next (s : CharStream) : option ascii * CharStream :=
  let char := peek s in
  (char,
   match char with
   | Some c =>
       if Ascii.eqb c EOL
       then mkCharStream (stringOrReadable s) (S (pos s)) (S (line s)) 0
       else mkCharStream (stringOrReadable s) (S (pos s)) (line s) (S (col s))
   | None => mkCharStream (stringOrReadable s) (S (pos s)) (line s) (S (col s))
   end).

Definition eof (s : CharStream) : bool :=
  match peek s with None => true | Some _ => false end.

Definition die (s : CharStream) (msg : string) : exception :=
  IllegalSyntaxError (line s) (col s) msg.

(** The characters from the cursor to the end of the input. *)
Definition remaining (s : CharStream) : nat :=
  String.length (stringOrReadable s) - pos s.

End CharStream.

(* ------------------------------------------------------------------------- *)
(** ** Matchers *)

Definition Keywords : list string := ["rule"; "conform"; "true"; "false"].

Module Matchers.

Definition isWhiteSpace (char : ascii) : bool :=
  found (indexOf (String " " (String TAB (String EOL EmptyString))) char).

Definition isComment (char : ascii) : bool := Ascii.eqb "#" char.

Definition isNotEOL (char : ascii) : bool := negb (Ascii.eqb EOL char).

Definition isStringBoundary (char : ascii) : bool := Ascii.eqb DQUOTE char.

(** [/[0-9]/i] *)
Definition isDigit (char : ascii) : bool := in_range "0" "9" char.

(** [/[a-z_]/i] *)
Definition isStartOfIdentifier (char : ascii) : bool :=
  in_range "a" "z" char || in_range "A" "Z" char || Ascii.eqb "_" char.

(** [isStartOfIdentifier(char) || /[0-9\-\?\!]/.test(char)] *)
Definition isIdentifier (char : ascii) : bool :=
  isStartOfIdentifier char
  || (in_range "0" "9" char || Ascii.eqb "-" char || Ascii.eqb "?" char
      || Ascii.eqb "!" char).

Definition isPunctuation (char : ascii) : bool :=
  found (indexOf ",:;(){}[]" char).

Definition isOperator (char : ascii) : bool :=
  found (indexOf "+-*/%=&|<>!~^" char).

Fixpoint list_indexOf (l : list string) (x : string) : option nat :=
  match l with
  | [] => None
  | y :: l' => if String.eqb y x then Some 0 else option_map S (list_indexOf l' x)
  end.

Definition isKeyword (identifier : string) : bool :=
  found (list_indexOf Keywords identifier).

End Matchers.

(* ------------------------------------------------------------------------- *)
(** ** Numbers and tokens *)

(** A JavaScript number: [NaN], or the decimal that was read. *)
Inductive number : Type :=
| NaN
| Dec (q : Q).

(** The payload of a token: what a reader function returned. *)
Inductive value : Type :=
| VString (s : string)
| VNumber (x : number).

Record token : Type := mkToken {
  type : string;
  tvalue : value
}.

Module Tokens.
Definition string (v : String.string) : token := mkToken "str" (VString v).
Definition numeric (v : number) : token := mkToken "num" (VNumber v).
Definition identifier (v : String.string) : token := mkToken "id" (VString v).
Definition keyword (v : String.string) : token := mkToken "kw" (VString v).
Definition operator (v : String.string) : token := mkToken "op" (VString v).
Definition punctuation (v : String.string) : token := mkToken "punc" (VString v).
End Tokens.

(** [parseFloat] on the text that [readNumber] collects: digits with at most
    one dot.  It reads the longest prefix that is a decimal literal, and gives
    [NaN] when that prefix has no digit. *)
Fixpoint digits_value (acc : N) (s : string) : N * nat * string :=
  match s with
  | String c s' =>
      if Matchers.isDigit c
      then let '(v, k, r) :=
             digits_value (acc * 10 + (N_of_ascii c - N_of_ascii "0"))%N s' in
           (v, S k, r)
      else (acc, 0, s)
  | EmptyString => (acc, 0, s)
  end.

Definition parseFloat (s : string) : number :=
  let '(i, ki, r) := digits_value 0%N s in
  match r with
  | String "." r' =>
      let '(m, kf, _) := digits_value i r' in
      if (ki + kf =? 0) then NaN
      else Dec (Z.of_N m # match kf with 0 => 1 | _ => Pos.pow 10 (Pos.of_nat kf) end)
  | _ => if ki =? 0 then NaN else Dec (Z.of_N i # 1)
  end.

(* ------------------------------------------------------------------------- *)
(** ** Values: the reader functions *)

Module Values.

(** The loop of [readWhile].  The predicate may carry state of its own (the
    [hasDot] flag of [readNumber]'s closure); [k] bounds the iterations by
    the characters that are left, so that at [0] the stream is at its end
    and the loop is over. *)
Fixpoint readWhile_loop {P : Type} (k : nat)
    (predicate : P -> ascii -> bool * P) (p : P)
    (str : string) (stream : CharStream) : string * CharStream :=
  match k with
  | 0 => (str, stream)
  | S k' =>
      match CharStream.peek stream with
      | None => (str, stream)
      | Some c =>
          let '(b, p') := predicate p c in
          if b
          then readWhile_loop k' predicate p' (str ++ str1 c)
                 (snd (CharStream.next stream))
          else (str, stream)
      end
  end.

Definition readWhile_st {P : Type} (predicate : P -> ascii -> bool * P) (p : P)
    (stream : CharStream) : string * CharStream :=
  readWhile_loop (CharStream.remaining stream) predicate p EmptyString stream.

Definition readWhile (stream : CharStream) (predicate : ascii -> bool)
    : string * CharStream :=
  readWhile_st (fun (_ : unit) c => (predicate c, tt)) tt stream.

Definition skipRestOfLine (stream : CharStream) : CharStream :=
  let stream := snd (readWhile stream Matchers.isNotEOL) in
  snd (CharStream.next stream).

(** The closure [isNumeric] of [readNumber], with its captured [hasDot]. *)
Definition isNumeric (hasDot : bool) (char : ascii) : bool * bool :=
  if Ascii.eqb "." char
  then if hasDot then (false, hasDot) else (true, true)
  else (Matchers.isDigit char, hasDot).

Definition readNumber (stream : CharStream) : number * CharStream :=
  let '(number, stream) := readWhile_st isNumeric false stream in
  (parseFloat number, stream).

Definition readIdentifier (stream : CharStream) : string * CharStream :=
  readWhile stream Matchers.isIdentifier.

(** The loop of [readString]; [k] bounds it as in [readWhile_loop]. *)
Fixpoint readString_loop (k : nat) (escaped : bool) (str : string)
    (stream : CharStream) : string * CharStream :=
  match k with
  | 0 => (str, stream)
  | S k' =>
      if CharStream.eof stream then (str, stream)
      else
        let '(char, stream) := CharStream.next stream in
        match char with
        | None => (str, stream)
        | Some char =>
            if escaped then readString_loop k' false (str ++ str1 char) stream
            else if Ascii.eqb char BACKSLASH then readString_loop k' true str stream
            else if Matchers.isStringBoundary char then (str, stream)
            else readString_loop k' false (str ++ str1 char) stream
        end
  end.

Definition readString (stream : CharStream) : string * CharStream :=
  let stream := snd (CharStream.next stream) in
  readString_loop (CharStream.remaining stream) false EmptyString stream.

Definition readOperator (stream : CharStream) : string * CharStream :=
  readWhile stream Matchers.isOperator.

End Values.

(* ------------------------------------------------------------------------- *)
(** ** Luthor: characters to tokens *)

Record Luthor : Type := mkLuthor {
  stream : CharStream;
  current : option token
}.

Module Luthor.

Definition new (stream : CharStream) : Luthor := mkLuthor stream None.

(** [readNextToken] calls itself after a comment; each such call comes after
    at least the [#] was consumed, so [k] bounds them by the characters left. *)
Fixpoint readNextToken_loop (k : nat) (stream : CharStream)
    : outcome (option token * CharStream) :=
  let stream := snd (Values.readWhile stream Matchers.isWhiteSpace) in
  if CharStream.eof stream then Ok (None, stream)
  else
    match CharStream.peek stream with
    | None => Ok (None, stream)
    | Some char =>
        if Matchers.isComment char then
          match k with
          | 0 => OutOfFuel
          | S k' => readNextToken_loop k' (Values.skipRestOfLine stream)
          end
        else if Matchers.isStringBoundary char then
          let stream := snd (CharStream.next stream) in
          let '(v, stream) := Values.readString stream in
          Ok (Some (Tokens.string v), stream)
        else if Matchers.isDigit char then
          let '(v, stream) := Values.readNumber stream in
          Ok (Some (Tokens.numeric v), stream)
        else if Matchers.isStartOfIdentifier char then
          let '(identifier, stream) := Values.readIdentifier stream in
          Ok (Some (if Matchers.isKeyword identifier
                    then Tokens.keyword identifier
                    else Tokens.identifier identifier), stream)
        else if Matchers.isPunctuation char then
          let '(c, stream) := CharStream.next stream in
          Ok (Some (Tokens.punctuation
                      (match c with Some c => str1 c | None => EmptyString end)),
              stream)
        else if Matchers.isOperator char then
          let '(v, stream) := Values.readOperator stream in
          Ok (Some (Tokens.operator v), stream)
        else
          Throw (CharStream.die stream
                   ("Illegal character at this position: " ++ str1 char))
    end.

Definition readNextToken (stream : CharStream)
    : outcome (option token * CharStream) :=
  readNextToken_loop (CharStream.remaining stream) stream.

Definition peek (l : Luthor) : outcome (option token * Luthor) :=
  match current l with
  | Some t => Ok (Some t, l)
  | None =>
      match readNextToken (stream l) with
      | Ok (t, stream) => Ok (t, mkLuthor stream t)
      | Throw e => Throw e
      | OutOfFuel => OutOfFuel
      end
  end.

Definition next (l : Luthor) : outcome (option token * Luthor) :=
  match current l with
  | Some t => Ok (Some t, mkLuthor (stream l) None)
  | None =>
      match readNextToken (stream l) with
      | Ok (t, stream) => Ok (t, mkLuthor stream None)
      | Throw e => Throw e
      | OutOfFuel => OutOfFuel
      end
  end.

Definition eof (l : Luthor) : outcome (bool * Luthor) :=
  match peek l with
  | Ok (t, l) => Ok (match t with None => true | Some _ => false end, l)
  | Throw e => Throw e
  | OutOfFuel => OutOfFuel
  end.

Definition die {A : Type} (message : string) (l : Luthor) : outcome (A * Luthor) :=
  Throw (CharStream.die (stream l) message).

End Luthor.

(* ------------------------------------------------------------------------- *)
(** ** The parser monad: state passing over [Luthor], with exceptions *)

Definition parser (A : Type) : Type := Luthor -> outcome (A * Luthor).

Definition ret {A : Type} (a : A) : parser A := fun l => Ok (a, l).

Definition bind {A B : Type} (m : parser A) (f : A -> parser B) : parser B :=
  fun l =>
    match m l with
    | Ok (a, l') => f a l'
    | Throw e => Throw e
    | OutOfFuel => OutOfFuel
    end.

Definition throw {A : Type} (e : exception) : parser A := fun _ => Throw e.

Definition out_of_fuel {A : Type} : parser A := fun _ => OutOfFuel.

Declare Scope parser_scope.
Delimit Scope parser_scope with parser.
Notation "x <- m ;; k" := (bind m (fun x => k))
  (at level 61, m at next level, right associativity) : parser_scope.
Notation "m ;;; k" := (bind m (fun _ => k))
  (at level 61, right associativity) : parser_scope.
Open Scope parser_scope.

(** [if (c) stream.die(msg);] *)
Definition die_if (c : bool) (msg : string) : parser unit :=
  if c then Luthor.die msg else ret tt.

(* ------------------------------------------------------------------------- *)
(** ** Types: the token tests of the parser *)

Module Types.

(** [token && type === token.type && (value is undefined ||
    value === token.value)]; the optional [value] is always a string where
    it is given. *)
Definition checkTypeAndValue (tok : option token) (ty : string)
    (v : option string) : bool :=
  match tok with
  | None => false
  | Some t =>
      String.eqb ty (type t)
      && match v with
         | None => true
         | Some v => match tvalue t with
                     | VString w => String.eqb v w
                     | VNumber _ => false
                     end
         end
  end.

Definition isPunc (tok : option token) (v : option string) : bool :=
  checkTypeAndValue tok "punc" v.
Definition isOp (tok : option token) (v : option string) : bool :=
  checkTypeAndValue tok "op" v.
Definition isId (tok : option token) (v : option string) : bool :=
  checkTypeAndValue tok "id" v.
Definition isKw (tok : option token) (v : option string) : bool :=
  checkTypeAndValue tok "kw" v.

(** [-1 !== types.indexOf(token.type)]: reading [type] from [null] is a
    [TypeError] of the runtime. *)
Definition isOneOfType (tok : option token) (types : list string) : parser bool :=
  match tok with
  | None => throw (TypeError "Cannot read properties of null (reading 'type')")
  | Some t => ret (found (Matchers.list_indexOf types (type t)))
  end.

End Types.

(* ------------------------------------------------------------------------- *)
(** ** Nodes *)

(** What the parser puts in a tree: the objects built by [Nodes], the tokens
    it passes on as leaves, and the bare values of JavaScript that reach a
    node position ([null] from the token stream, the number [-1] of
    [signed]). *)
#[warnings="-register-all"]
Inductive node : Type :=
| Null
| Leaf (t : token)
| Prim (v : value)
| Block (body : list node)
| Call (func : node) (args : list node)
| Rule (name : option value) (args : list node) (body : node)
| Binary (type : string) (op : string) (left right : node)
| Bool (v : bool).

Definition js (t : option token) : node :=
  match t with Some t => Leaf t | None => Null end.

Module Nodes.
Definition blockStatement (body : list node) : node := Block body.
Definition invocation (n : node) (args : list node) : node := Call n args.
Definition rule (name : option value) (args : list node) (body : node) : node :=
  Rule name args body.
Definition binaryExpression (op : string) (left right : node) : node :=
  Binary (if String.eqb "=" op then "assign" else "binaryExpression") op left right.
Definition bool (v : Datatypes.bool) : node := Bool v.
End Nodes.

(** The [type] tag of a node object; tokens carry their own. *)
Definition node_type (n : node) : option string :=
  match n with
  | Null | Prim _ => None
  | Leaf t => Some (type t)
  | Block _ => Some "block"
  | Call _ _ => Some "call"
  | Rule _ _ _ => Some "rule"
  | Binary ty _ _ _ => Some ty
  | Bool _ => Some "bool"
  end.

Definition PRECEDENCE : list (string * nat) :=
  [("=", 1); ("||", 5); ("&&", 10);
   ("<", 15); (">", 15); ("<=", 15); (">=", 15); ("==", 15); ("!=", 15);
   ("+", 20); ("-", 20);
   ("*", 25); ("/", 25); ("%", 25)].

(** [PRECEDENCE[op]]; [None] stands for [undefined]. *)
Fixpoint lookup (table : list (string * nat)) (op : string) : option nat :=
  match table with
  | [] => None
  | (k, v) :: table' => if String.eqb k op then Some v else lookup table' op
  end.

(* ------------------------------------------------------------------------- *)
(** ** JSON.stringify, as far as the parser's messages use it *)

Module JSON.

Definition escape (c : ascii) : string :=
  if Ascii.eqb c DQUOTE then String BACKSLASH (str1 DQUOTE)
  else if Ascii.eqb c BACKSLASH then String BACKSLASH (str1 BACKSLASH)
  else if Ascii.eqb c EOL then String BACKSLASH "n"
  else if Ascii.eqb c TAB then String BACKSLASH "t"
  else str1 c.

Fixpoint escaped (s : string) : string :=
  match s with
  | EmptyString => EmptyString
  | String c s' => escape c ++ escaped s'
  end.

Definition quote (s : string) : string :=
  String DQUOTE (escaped s ++ str1 DQUOTE).

Fixpoint zeros (k : nat) : string :=
  match k with 0 => EmptyString | S k' => String "0" (zeros k') end.

Fixpoint strip0 (rev_digits : string) : string :=
  match rev_digits with
  | String "0" r => strip0 r
  | _ => rev_digits
  end.

Fixpoint rev (s acc : string) : string :=
  match s with EmptyString => acc | String c s' => rev s' (String c acc) end.

(** A number whose denominator is a power of ten, printed as JavaScript
    prints a decimal of moderate size. *)
Definition number (x : number) : string :=
  match x with
  | NaN => "null"
  | Dec (n # d) =>
      let n := Z.to_nat n in
      let d := Pos.to_nat d in
      let i := string_of_nat (n / d) in
      let f := string_of_nat (n mod d) in
      let k := String.length (string_of_nat d) - 1 in
      let padded := zeros (k - String.length f) ++ f in
      let frac := rev (strip0 (rev padded EmptyString)) EmptyString in
      match frac with
      | EmptyString => i
      | _ => i ++ "." ++ frac
      end
  end.

Definition value (v : value) : string :=
  match v with
  | VString s => quote s
  | VNumber x => number x
  end.

(** [JSON.stringify(strings)] for an array of strings. *)
Fixpoint strings_tail (l : list string) : string :=
  match l with
  | [] => "]"
  | s :: l' => "," ++ quote s ++ strings_tail l'
  end.

Definition strings (l : list string) : string :=
  match l with
  | [] => "[]"
  | s :: l' => "[" ++ quote s ++ strings_tail l'
  end.

(** [JSON.stringify(token, null, 2)] *)
Definition token (t : option token) : string :=
  match t with
  | None => "null"
  | Some t =>
      "{" ++ str1 EOL ++ "  " ++ quote "type" ++ ": " ++ quote (type t) ++ ","
      ++ str1 EOL ++ "  " ++ quote "value" ++ ": " ++ value (tvalue t)
      ++ str1 EOL ++ "}"
  end.

End JSON.

(* ------------------------------------------------------------------------- *)
(** ** Parsicle: tokens to trees *)

Module Parsicle.

Definition expectIdentifier : parser (option token) :=
  token <- Luthor.peek ;;
  die_if (negb (Types.isId token None)) "Expected an identifier" ;;;
  Luthor.next.

(** [!Types.isOp(token) || -1 === operators.indexOf(token.value)] *)
Definition expectOps (operators : list string) : parser (option token) :=
  token <- Luthor.peek ;;
  die_if (negb (Types.isOp token None)
          || match token with
             | Some {| tvalue := VString v |} =>
                 negb (found (Matchers.list_indexOf operators v))
             | _ => true
             end)
         ("Expected one of these operators: " ++ JSON.strings operators) ;;;
  Luthor.next.

Definition expectPunc (char : string) : parser (option token) :=
  token <- Luthor.peek ;;
  die_if (negb (Types.isPunc token (Some char)))
         ("Expected " ++ JSON.quote char) ;;;
  Luthor.next.

(** The [value] property of what the token stream returned. *)
Definition value_of (tok : option token) : parser value :=
  match tok with
  | Some t => ret (tvalue t)
  | None => throw (TypeError "Cannot read properties of null (reading 'value')")
  end.

Definition die {A : Type} : parser A :=
  token <- Luthor.peek ;;
  Luthor.die ("Unexpected token: " ++ JSON.token token).

(** The loop of [delimited]; [k] is fuel. *)
Fixpoint delimited_loop (k : nat) (stop separator : string)
    (parserFn : parser node) (first : bool) (body : list node)
    : parser (list node) :=
  match k with
  | 0 => out_of_fuel
  | S k' =>
      e <- Luthor.eof ;;
      if e then ret body
      else
        token <- Luthor.peek ;;
        if Types.isPunc token (Some stop) then ret body
        else
          (if first then ret None else expectPunc separator) ;;;
          token <- Luthor.peek ;;
          if Types.isPunc token (Some stop) then ret body
          else
            x <- parserFn ;;
            delimited_loop k' stop separator parserFn false (body ++ [x])
  end.

Definition delimited (k : nat) (start stop separator : string)
    (parserFn : parser node) : parser (list node) :=
  expectPunc start ;;;
  body <- delimited_loop k stop separator parserFn true [] ;;
  expectPunc stop ;;;
  ret body.

Fixpoint expression (n : nat) : parser node :=
  match n with
  | 0 => out_of_fuel
  | S n =>
      handleInvocation n
        (d <- discrete n ;; resolveOperatorBindings n d 0)
  end

with parenthetical (n : nat) : parser node :=
  match n with
  | 0 => out_of_fuel
  | S n =>
      expectPunc "(" ;;;
      exp <- expression n ;;
      expectPunc ")" ;;;
      ret exp
  end

with block (n : nat) : parser node :=
  match n with
  | 0 => out_of_fuel
  | S n =>
      body <- delimited n "{" "}" ";" (expression n) ;;
      match body with
      | [x] => ret x
      | _ => ret (Nodes.blockStatement body)
      end
  end

with rule (n : nat) : parser node :=
  match n with
  | 0 => out_of_fuel
  | S n =>
      Luthor.next ;;;
      token <- Luthor.peek ;;
      name <- (if Types.isId token None
               then (i <- expectIdentifier ;; v <- value_of i ;; ret (Some v))
               else ret None) ;;
      token <- Luthor.peek ;;
      die_if (negb (Types.isPunc token (Some "(")))
             "Missing argument list for rule declaration" ;;;
      args <- delimited n "(" ")" "," (i <- expectIdentifier ;; ret (js i)) ;;
      token <- Luthor.peek ;;
      die_if (negb (Types.isPunc token (Some "{")))
             "Missing body for rule declaration" ;;;
      body <- block n ;;
      ret (Nodes.rule name args body)
  end

with signed (n : nat) : parser node :=
  match n with
  | 0 => out_of_fuel
  | S n =>
      sign <- expectOps ["-"; "+"] ;;
      token <- Luthor.peek ;;
      ok <- (if Types.isPunc token (Some "(") then ret true
             else Types.isOneOfType token ["num"; "id"]) ;;
      die_if (negb ok) "Expected signed expression" ;;;
      v <- value_of sign ;;
      match v with
      | VString "-" =>
          d <- discrete n ;;
          ret (Nodes.binaryExpression "*" (Prim (VNumber (Dec (-1)))) d)
      | _ => discrete n
      end
  end

with discrete (n : nat) : parser node :=
  match n with
  | 0 => out_of_fuel
  | S n =>
      handleInvocation n
        (current <- Luthor.peek ;;
         if Types.isPunc current (Some "(") then parenthetical n
         else if Types.isPunc current (Some "{") then block n
         else if Types.isKw current (Some "rule") then rule n
         else if Types.isOp current (Some "-") || Types.isOp current (Some "+")
              then signed n
         else
           leaf <- Types.isOneOfType current ["num"; "str"; "id"] ;;
           if leaf then (t <- Luthor.next ;; ret (js t))
           else die)
  end

with resolveOperatorBindings (n : nat) (leftNode : node) (thisPrecedence : nat)
    : parser node :=
  match n with
  | 0 => out_of_fuel
  | S n =>
      token <- Luthor.peek ;;
      match (if Types.isOp token None then token else None) with
      | Some {| tvalue := VString op |} =>
          match lookup PRECEDENCE op with
          | Some thatPrecedence =>
              if thisPrecedence <? thatPrecedence then
                Luthor.next ;;;
                d <- discrete n ;;
                rightNode <- resolveOperatorBindings n d thatPrecedence ;;
                resolveOperatorBindings n
                  (Nodes.binaryExpression op leftNode rightNode) thisPrecedence
              else ret leftNode
          | None => ret leftNode
          end
      | _ => ret leftNode
      end
  end

with handleInvocation (n : nat) (callable : parser node) : parser node :=
  match n with
  | 0 => out_of_fuel
  | S n =>
      node <- callable ;;
      token <- Luthor.peek ;;
      if Types.isPunc token (Some "(")
      then args <- delimited n "(" ")" "," (expression n) ;;
           ret (Nodes.invocation node args)
      else ret node
  end.

(** The [while] loop of [parse]. *)
Fixpoint parse_loop (n : nat) (ast : list node) : parser (list node) :=
  match n with
  | 0 => out_of_fuel
  | S n' =>
      e <- Luthor.eof ;;
      if e then ret ast
      else
        x <- expression n' ;;
        e <- Luthor.eof ;;
        (if e then ret None else expectPunc ";") ;;;
        parse_loop n' (ast ++ [x])
  end.

Definition parse (n : nat) : parser (list node) :=
  x <- expression n ;;
  parse_loop n [x].

End Parsicle.

(** [new Parsicle(new Lex.Luthor(new Lex.CharStream(content))).parse()], with
    fuel [n]: the trees, or the exception. *)
Definition run {A : Type} (m : parser A) (content : string) : outcome A :=
  match m (Luthor.new (CharStream.new content)) with
  | Ok (a, _) => Ok a
  | Throw e => Throw e
  | OutOfFuel => OutOfFuel
  end.

Definition parse_string (n : nat) (content : string) : outcome (list node) :=
  run (Parsicle.parse n) content.

(* ------------------------------------------------------------------------- *)
(** ** The vocabulary of the statements *)

(** [m2] does what [m1] does wherever [m1] did not run out of fuel. *)
Definition extends {A : Type} (m1 m2 : parser A) : Prop :=
  forall l, m1 l <> OutOfFuel -> m2 l = m1 l.

(** The cursor after [k] calls of [next], and where it stands. *)
Fixpoint advance (k : nat) (s : CharStream) : CharStream :=
  match k with
  | 0 => s
  | S k' => advance k' (snd (CharStream.next s))
  end.

Definition position (s : CharStream) : nat * nat := (line s, col s).

(** The binding powers as the specification lists them: [=] 1, [||] 5,
    [&&] 10, the comparisons 15, [+] and [-] 20, [*], [/] and [%] 25. *)
Definition comparisons : list string := ["<"; ">"; "<="; ">="; "=="; "!="].

Definition binding_power (op : string) : option nat :=
  if String.eqb op "=" then Some 1
  else if String.eqb op "||" then Some 5
  else if String.eqb op "&&" then Some 10
  else if existsb (String.eqb op) comparisons then Some 15
  else if String.eqb op "+" || String.eqb op "-" then Some 20
  else if String.eqb op "*" || String.eqb op "/" || String.eqb op "%" then Some 25
  else None.

(** Leaves, for reading the statements below. *)
Definition num (q : Q) : node := Leaf (Tokens.numeric (Dec q)).
Definition ident (s : string) : node := Leaf (Tokens.identifier s).

(** The source text [a op1 b op2 c]. *)
Definition two_operators (op1 op2 : string) : string :=
  "a " ++ op1 ++ " b " ++ op2 ++ " c".

(** A document of whitespace and [#] comments only; [in_comment] tells
    whether the text starts inside a comment. *)
Fixpoint blank_from (in_comment : bool) (s : string) : bool :=
  match s with
  | EmptyString => true
  | String c s' =>
      if in_comment then blank_from (Matchers.isNotEOL c) s'
      else if Matchers.isWhiteSpace c then blank_from false s'
      else if Matchers.isComment c then blank_from true s'
      else false
  end.

Definition blank (s : string) : bool := blank_from false s.

(** Whether a tree holds a node whose [type] is bool, anywhere. *)
Definition is_bool (n : node) : bool :=
  match node_type n with
  | Some ty => String.eqb ty "bool"
  | None => false
  end.

Fixpoint has_bool (n : node) : bool :=
  is_bool n
  || match n with
     | Null | Leaf _ | Prim _ | Bool _ => false
     | Block body => existsb has_bool body
     | Call func args => has_bool func || existsb has_bool args
     | Rule _ args body => existsb has_bool args || has_bool body
     | Binary _ _ l r => has_bool l || has_bool r
     end.

(** The tokens that the lexer makes are not of type bool. *)
Definition good_token (t : option token) : Prop :=
  forall t', t = Some t' -> String.eqb (type t') "bool" = false.

Definition good_state (l : Luthor) : Prop := good_token (current l).

(** [post Q m]: from a state whose cached token came from the lexer, what [m]
    returns satisfies [Q], and the state it leaves is such a state again. *)
Definition post {A : Type} (Q : A -> Prop) (m : parser A) : Prop :=
  forall l a l', good_state l -> m l = Ok (a, l') -> Q a /\ good_state l'.

Definition no_bool (n : node) : Prop := has_bool n = false.
Definition no_bools (l : list node) : Prop := existsb has_bool l = false.
Definition any {A : Type} (_ : A) : Prop := True.

(** What the token stream delivers from a state: the tokens in order, up to
    the end marker. *)
Inductive delivers : Luthor -> list token -> Prop :=
| delivers_end (l l' : Luthor) :
    Luthor.peek l = Ok (None, l') -> delivers l []
| delivers_token (l l' : Luthor) (t : token) (ts : list token) :
    Luthor.peek l = Ok (Some t, l') ->
    delivers (mkLuthor (stream l') None) ts ->
    delivers l (t :: ts).

(** The tokens that [discrete] passes on as leaves. *)
Definition is_atom (t : token) : bool :=
  found (Matchers.list_indexOf ["num"; "str"; "id"] (type t)).

(** A chain of operators, each with the operand token that follows it. *)
Definition chain : Type := list (string * token).

Definition chain_tokens (c : chain) : list token :=
  flat_map (fun '(op, a) => [Tokens.operator op; a]) c.

(** What may follow an expression: the end, or a token that is neither an
    operator nor an opening parenthesis. *)
Definition stopper (ts : list token) : bool :=
  match ts with
  | [] => true
  | t :: _ => negb (String.eqb "op" (type t))
              && negb (Types.isPunc (Some t) (Some "("))
  end.

(** The resolver as the specification words it, on a chain whose operands
    are atoms: while the next operator binds tighter than [min_bp], take it,
    climb its right-hand side at its own binding power, combine, and go on
    with the combined node as the left operand. [Resolve] below is the same
    resolver over operands of any kind ([Climb_Resolve]). *)
Inductive Climb : node -> nat -> chain -> node -> chain -> Prop :=
| Climb_end (left : node) (min_bp : nat) :
    Climb left min_bp [] left []
| Climb_unknown (left : node) (min_bp : nat) (op : string) (a : token) (c : chain) :
    binding_power op = None ->
    Climb left min_bp ((op, a) :: c) left ((op, a) :: c)
| Climb_low (left : node) (min_bp bp : nat) (op : string) (a : token) (c : chain) :
    binding_power op = Some bp -> bp <= min_bp ->
    Climb left min_bp ((op, a) :: c) left ((op, a) :: c)
| Climb_step (left right result : node) (min_bp bp : nat) (op : string)
    (a : token) (c c1 c2 : chain) :
    binding_power op = Some bp -> min_bp < bp -> is_atom a = true ->
    Climb (Leaf a) bp c right c1 ->
    Climb (Nodes.binaryExpression op left right) min_bp c1 result c2 ->
    Climb left min_bp ((op, a) :: c) result c2.

Definition not_paren (ts : list token) : bool :=
  negb (Types.isPunc (hd_error ts) (Some "(")).

(** An expression as the resolver sees it: operands, each of them whatever
    [discrete] returned (a leaf, a call, a signed value, an expression in
    parentheses, a block, a rule), under binary operators. *)
Inductive shape : Type :=
| Operand (d : node)
| Operation (op : string) (l r : shape).

(** The node of a shape: the operands as they are, and for each operator
    what [Nodes.binaryExpression] makes. *)
Fixpoint build (s : shape) : node :=
  match s with
  | Operand d => d
  | Operation op l r => Nodes.binaryExpression op (build l) (build r)
  end.

(** Operators, each with the operand that follows it. *)
Definition operands : Type := list (string * node).

(** What stands in an expression, left to right. *)
Inductive item : Type :=
| Opd (d : node)
| Opr (op : string).

(** The items of a chain, and of a shape, in their order. *)
Definition items (c : operands) : list item :=
  flat_map (fun '(op, d) => [Opr op; Opd d]) c.

Fixpoint frontier (s : shape) : list item :=
  match s with
  | Operand d => [Opd d]
  | Operation op l r => (frontier l ++ Opr op :: frontier r)%list
  end.

(** The resolver as the specification words it, over operands of any kind:
    while the next operator binds tighter than [min_bp], take it, resolve
    the operand after it at the operator's own binding power, combine, and
    go on with the combined node as the left operand. *)
Inductive Resolve : shape -> nat -> operands -> shape -> operands -> Prop :=
| Resolve_end (left : shape) (min_bp : nat) :
    Resolve left min_bp [] left []
| Resolve_unknown (left : shape) (min_bp : nat) (op : string) (d : node)
    (c : operands) :
    binding_power op = None ->
    Resolve left min_bp ((op, d) :: c) left ((op, d) :: c)
| Resolve_low (left : shape) (min_bp bp : nat) (op : string) (d : node)
    (c : operands) :
    binding_power op = Some bp -> bp <= min_bp ->
    Resolve left min_bp ((op, d) :: c) left ((op, d) :: c)
| Resolve_step (left right result : shape) (min_bp bp : nat) (op : string)
    (d : node) (c c1 c2 : operands) :
    binding_power op = Some bp -> min_bp < bp ->
    Resolve (Operand d) bp c right c1 ->
    Resolve (Operation op left right) min_bp c1 result c2 ->
    Resolve left min_bp ((op, d) :: c) result c2.

(** The binding power of the operator at the root; an operand has none. *)
Definition power (s : shape) : option nat :=
  match s with
  | Operation op _ _ => binding_power op
  | Operand _ => None
  end.

(** The root binds strictly tighter than [p], or at least as tight; an
    operand does both. *)
Definition tighter (p : nat) (s : shape) : Prop :=
  match power s with Some q => p < q | None => True end.

Definition as_tight (p : nat) (s : shape) : Prop :=
  match power s with Some q => p <= q | None => True end.

(** Nesting by binding power: under an operator, the right operand is an
    operand of the expression or is headed by a strictly tighter operator,
    and the left operand is one or is headed by an operator at least as
    tight. *)
Fixpoint nested (s : shape) : Prop :=
  match s with
  | Operation op l r =>
      (exists p, binding_power op = Some p /\ as_tight p l /\ tighter p r)
      /\ nested l /\ nested r
  | Operand _ => True
  end.

(** Whether the resolver at binding power [p] stops at a token: it goes on
    only at an operator of the table that binds tighter than [p]. *)
Definition halts (p : nat) (t : option token) : bool :=
  match t with
  | Some {| type := ty; tvalue := VString op |} =>
      negb (String.eqb "op" ty
            && match binding_power op with Some q => p <? q | None => false end)
  | _ => true
  end.

(** What follows an operand in the token stream, as the code reads it:
    recognized operators, each with the operand that [discrete] reads after
    it, up to a token [t] at which the resolver at binding power [p] stops
    (for [p = 0]: the end marker, a token that is no operator, or an
    operator that the table does not know); [l'] is the state with [t] in
    the lookahead cache. *)
Inductive follows (p n : nat)
    : Luthor -> operands -> option token -> Luthor -> Prop :=
| follows_end (l l' : Luthor) (t : option token) :
    Luthor.peek l = Ok (t, l') -> halts p t = true -> follows p n l [] t l'
| follows_operand (l l1 l2 l' : Luthor) (op : string) (q : nat) (d : node)
    (c : operands) (t : option token) :
    Luthor.peek l = Ok (Some (Tokens.operator op), l1) ->
    binding_power op = Some q ->
    Parsicle.discrete n (mkLuthor (stream l1) None) = Ok (d, l2) ->
    follows p n l2 c t l' ->
    follows p n l ((op, d) :: c) t l'.

(** Every operator of the chain is in the table. *)
Definition recognized (c : operands) : bool :=
  forallb (fun '(op, _) =>
             match binding_power op with Some _ => true | None => false end) c.

(** The binding power of the first operator of a chain. *)
Definition next_power (c : operands) : option nat :=
  match c with
  | (op, _) :: _ => binding_power op
  | [] => None
  end.

(** Every operator among the items is in the table, with power [p] at
    least. *)
Definition operators_above (p : nat) (its : list item) : Prop :=
  forall op, In (Opr op) its -> exists q, binding_power op = Some q /\ p <= q.

(** A chain of atoms as a chain of operands: each token as its leaf. *)
Definition leaves (c : chain) : operands :=
  map (fun '(op, a) => (op, Leaf a)) c.

(** The text of a string literal after its opening boundary, as the
    specification reads it: whether an unescaped boundary closes it, and the
    characters it holds up to there (or up to the end of the input). *)
Fixpoint closes (escaped : bool) (body : string) : bool :=
  match body with
  | EmptyString => false
  | String c r =>
      if escaped then closes false r
      else if Ascii.eqb c BACKSLASH then closes true r
      else if Matchers.isStringBoundary c then true
      else closes false r
  end.

Fixpoint unescaped (escaped : bool) (body : string) : string :=
  match body with
  | EmptyString => EmptyString
  | String c r =>
      if escaped then String c (unescaped false r)
      else if Ascii.eqb c BACKSLASH then unescaped true r
      else if Matchers.isStringBoundary c then EmptyString
      else String c (unescaped false r)
  end.

(** The token stream over a document, before anything was read. *)
Definition lexer (content : string) : Luthor :=
  Luthor.new (CharStream.new content).

(** The end marker of the token stream is [null]. *)
Definition is_end (t : option token) : bool :=
  match t with None => true | Some _ => false end.

(** A document between two string boundaries. *)
Definition quoted (s : string) : string := String DQUOTE (s ++ str1 DQUOTE).

(* ------------------------------------------------------------------------- *)
(** ** The cursor as a view of the text that is left *)

Arguments CharStream.peek : simpl never.
Arguments CharStream.next : simpl never.
Arguments CharStream.eof : simpl never.
Arguments CharStream.remaining : simpl never.
Arguments Values.readWhile : simpl never.
Arguments Values.skipRestOfLine : simpl never.
Arguments Values.readString : simpl never.
Arguments Values.readNumber : simpl never.
Arguments Values.readIdentifier : simpl never.
Arguments Values.readOperator : simpl never.

Fixpoint drop (n : nat) (s : string) : string :=
  match n, s with
  | 0, _ => s
  | S n', String _ s' => drop n' s'
  | S _, EmptyString => EmptyString
  end.

Definition rest (s : CharStream) : string := drop (pos s) (stringOrReadable s).

Definition head (s : string) : option ascii :=
  match s with String c _ => Some c | EmptyString => None end.

Definition tail (s : string) : string :=
  match s with String _ r => r | EmptyString => EmptyString end.

(** What the statements on the lexer and the parser as a whole are worded
    with. *)

(** The newlines of a text, and the text after its last newline. *)
Fixpoint count_eol (s : string) : nat :=
  match s with
  | EmptyString => 0
  | String c r => (if Ascii.eqb c EOL then 1 else 0) + count_eol r
  end.

Fixpoint last_line (s : string) : string :=
  match s with
  | EmptyString => EmptyString
  | String c r =>
      if 0 <? count_eol r then last_line r
      else if Ascii.eqb c EOL then r
      else String c r
  end.

(** The first [k] characters of a text. *)
Fixpoint take (k : nat) (s : string) : string :=
  match k, s with
  | S k', String c r => String c (take k' r)
  | _, _ => EmptyString
  end.

(** The longest prefix whose characters the predicate accepts one after the
    other, the predicate carrying its state along; and what follows it. *)
Fixpoint take_while {P : Type} (predicate : P -> ascii -> bool * P) (p : P)
    (s : string) : string :=
  match s with
  | EmptyString => EmptyString
  | String c r =>
      let '(b, p') := predicate p c in
      if b then String c (take_while predicate p' r) else EmptyString
  end.

Definition stateless (predicate : ascii -> bool) : unit -> ascii -> bool * unit :=
  fun _ c => (predicate c, tt).

Fixpoint all_chars (p : ascii -> bool) (s : string) : bool :=
  match s with
  | EmptyString => true
  | String c r => p c && all_chars p r
  end.

Definition starts_with (p : ascii -> bool) (s : string) : bool :=
  match s with
  | EmptyString => false
  | String c _ => p c
  end.

(** What a token of each kind holds. *)
Definition token_ok (t : token) : bool :=
  match tvalue t with
  | VString w =>
      String.eqb (type t) "str"
      || (String.eqb (type t) "id"
          && starts_with Matchers.isStartOfIdentifier w
          && all_chars Matchers.isIdentifier w
          && negb (Matchers.isKeyword w))
      || (String.eqb (type t) "kw" && Matchers.isKeyword w)
      || (String.eqb (type t) "punc"
          && starts_with Matchers.isPunctuation w && (String.length w =? 1))
      || (String.eqb (type t) "op"
          && starts_with Matchers.isOperator w
          && all_chars Matchers.isOperator w)
  | VNumber x =>
      String.eqb (type t) "num"
      && match x with Dec q => Qle_bool 0 q | NaN => false end
  end.

(** Whether a token of this kind ends before the character that follows. *)
Definition ends_before (t : token) (following : option ascii) : bool :=
  match following with
  | None => true
  | Some c =>
      if String.eqb (type t) "id" || String.eqb (type t) "kw"
      then negb (Matchers.isIdentifier c)
      else if String.eqb (type t) "op" then negb (Matchers.isOperator c)
      else if String.eqb (type t) "num" then negb (Matchers.isDigit c)
      else true
  end.

(** A character that starts no token and is no blank. *)
Definition illegal (c : ascii) : bool :=
  negb (Matchers.isWhiteSpace c || Matchers.isComment c
        || Matchers.isStringBoundary c || Matchers.isDigit c
        || Matchers.isStartOfIdentifier c || Matchers.isPunctuation c
        || Matchers.isOperator c).

(** What [readNextToken] may give from a cursor [s]. *)
Definition lexed (s : CharStream) (r : outcome (option token * CharStream)) : Prop :=
  match r with
  | Ok (None, s') => exists j, s' = advance j s /\ CharStream.eof s' = true
  | Ok (Some t, s') =>
      exists j, 0 < j /\ s' = advance j s
                /\ token_ok t = true
                /\ ends_before t (CharStream.peek s') = true
  | Throw e =>
      exists j c,
        CharStream.peek (advance j s) = Some c /\ illegal c = true
        /\ e = CharStream.die (advance j s)
                 ("Illegal character at this position: " ++ str1 c)
  | OutOfFuel => True
  end.

(** The dots of a text. *)
Fixpoint dots (s : string) : nat :=
  match s with
  | EmptyString => 0
  | String c r => (if Ascii.eqb "." c then 1 else 0) + dots r
  end.

Definition digit_or_dot (c : ascii) : bool :=
  Matchers.isDigit c || Ascii.eqb "." c.

(** The trees that the parser builds. A leaf is a number, string or
    identifier token; a binary expression has a recognized operator, the type
    that goes with it, and for its left operand a tree, or the bare number -1
    under [*]; a block never has exactly one statement; the parameters of a
    rule are identifier tokens and its name, if it has one, an identifier. *)
Definition param_ok (a : node) : bool :=
  match a with
  | Leaf t => String.eqb (type t) "id" && token_ok t
  | _ => false
  end.

Definition name_ok (name : option value) : bool :=
  match name with
  | None => true
  | Some (VString w) => token_ok (Tokens.identifier w)
  | Some (VNumber _) => false
  end.

Definition is_minus_one (n : node) : bool :=
  match n with
  | Prim (VNumber (Dec q)) => Qeq_bool q (-1)
  | _ => false
  end.

Fixpoint tree_ok (n : node) : bool :=
  match n with
  | Leaf t => is_atom t && token_ok t
  | Binary ty op l r =>
      String.eqb ty (if String.eqb "=" op then "assign" else "binaryExpression")
      && match lookup PRECEDENCE op with Some _ => true | None => false end
      && (if is_minus_one l then String.eqb op "*" else tree_ok l)
      && tree_ok r
  | Block body => negb (length body =? 1) && forallb tree_ok body
  | Call func args => tree_ok func && forallb tree_ok args
  | Rule name args body =>
      name_ok name && forallb param_ok args && tree_ok body
  | Null | Prim _ | Bool _ => false
  end.

(** The state of a token stream that started at the cursor [s0]: the token
    in its cache is one that the lexer made, and its cursor is a place of
    the text. *)
Definition stream_ok (s0 : CharStream) (l : Luthor) : Prop :=
  (forall x, current l = Some x -> token_ok x = true)
  /\ exists j, stream l = advance j s0.

(** The token that the last [peek] returned is the one in the cache; after
    the end marker, the stream stays at its end. *)
Definition holds (t : option token) (l : Luthor) : Prop :=
  match t with
  | Some x => current l = Some x
  | None => Luthor.peek l = Ok (None, l)
  end.

(** The exceptions of a parse: a syntax error at a place of the text, or the
    read of [type] from the end marker. *)
Definition expected (s0 : CharStream) (e : exception) : Prop :=
  (exists j msg, e = CharStream.die (advance j s0) msg)
  \/ e = TypeError "Cannot read properties of null (reading 'type')".

Definition sat {A : Type} (s0 : CharStream) (Q : A -> Luthor -> Prop)
    (r : outcome (A * Luthor)) : Prop :=
  match r with
  | Ok (a, l') => Q a l'
  | Throw e => expected s0 e
  | OutOfFuel => True
  end.

(** What a parser function returns passes the test [P], and leaves the token
    stream in order. *)
Definition with_ok {A : Type} (s0 : CharStream) (P : A -> bool)
    : A -> Luthor -> Prop :=
  fun a l => P a = true /\ stream_ok s0 l.

(** The tokens of a delimited list: the items, a separator before each but
    the first. *)
Definition separated (separator : string) (items : list (list token))
    : list token :=
  match items with
  | [] => []
  | i :: items' =>
      (i ++ flat_map (fun ts => Tokens.punctuation separator :: ts) items')%list
  end.

(** A separator may follow the last item. *)
Definition trailing (b : bool) (separator : string) : list token :=
  if b then [Tokens.punctuation separator] else [].

(** The tokens [ts] start an item: their first one is not the closing
    punctuation. *)
Definition opens (stop : string) (ts : list token) : bool :=
  match ts with
  | t :: _ => negb (Types.isPunc (Some t) (Some stop))
  | [] => false
  end.

(** What follows an item of a list: the separator or the closing
    punctuation. *)
Definition closing (separator stop : string) (ts : list token) : bool :=
  match ts with
  | t :: _ => Types.isPunc (Some t) (Some separator)
              || Types.isPunc (Some t) (Some stop)
  | [] => false
  end.

(** [parserFn] reads the tokens [ts] as the node [x], wherever they stand
    in a list. *)
Definition reads (separator stop : string) (parserFn : parser node)
    (ts : list token) (x : node) : Prop :=
  opens stop ts = true
  /\ forall l rest,
       closing separator stop rest = true -> delivers l (ts ++ rest)%list ->
       exists l', parserFn l = Ok (x, l') /\ delivers l' rest.

(** The tokens of an optional rule name. *)
Definition name_tokens (name : option string) : list token :=
  match name with
  | Some w => [Tokens.identifier w]
  | None => []
  end.

(** The number [-1] that [signed] multiplies with. *)
Definition minus_one : node := Prim (VNumber (Dec (-1))).

(** What [signed] accepts after the sign: an opening parenthesis, a number
    or an identifier. *)
Definition signable (t : token) : bool :=
  Types.isPunc (Some t) (Some "(")
  || found (Matchers.list_indexOf ["num"; "id"] (type t)).

(** What is left to read: the characters after the cursor, counted twice,
    and the token in the cache. *)
Definition measure (l : Luthor) : nat :=
  2 * CharStream.remaining (stream l)
  + match current l with Some _ => 1 | None => 0 end.

(** [r] is a result within the bound: not out of fuel, and where it is a
    value, [Q] holds and the state has moved on ([strict]) or not moved
    back. *)
Definition runs {A : Type} (strict : bool) (Q : A -> Luthor -> Prop)
    (l : Luthor) (r : outcome (A * Luthor)) : Prop :=
  match r with
  | Ok (a, l') =>
      Q a l' /\ if strict then measure l' < measure l
                else measure l' <= measure l
  | Throw _ => True
  | OutOfFuel => False
  end.

Definition whatever {A : Type} : A -> Luthor -> Prop := fun _ _ => True.

(** Fuel that is enough for [parse] on a document. *)
Definition enough (content : string) : nat := 10 * String.length content + 6.

(** The tokens that [discrete] goes on with. *)
Definition starts_expression (t : token) : bool :=
  Types.isPunc (Some t) (Some "(")
  || Types.isPunc (Some t) (Some "{")
  || Types.isKw (Some t) (Some "rule")
  || Types.isOp (Some t) (Some "-")
  || Types.isOp (Some t) (Some "+")
  || is_atom t.

(** A token that may be there or not. *)
Definition optional (t : option token) : list token :=
  match t with
  | Some a => [a]
  | None => []
  end.

Lemma get_drop (n : nat) (s : string) : String.get n s = head (drop n s).
Proof.
  revert s; induction n as [|n IH]; intros [|c s]; simpl; auto.
Qed.

Lemma drop_S (n : nat) (s : string) : drop (S n) s = tail (drop n s).
Proof.
  revert s; induction n as [|n IH]; intros [|c s]; try reflexivity.
  exact (IH s).
Qed.

Lemma length_drop (n : nat) (s : string) :
  String.length (drop n s) = String.length s - n.
Proof.
  revert s; induction n as [|n IH]; intros [|c s]; simpl; auto.
Qed.

Lemma peek_rest (s : CharStream) : CharStream.peek s = head (rest s).
Proof. apply get_drop. Qed.

Lemma rest_next (s : CharStream) : rest (snd (CharStream.next s)) = tail (rest s).
Proof.
  unfold CharStream.next, rest; cbn [snd].
  destruct (CharStream.peek s) as [c|]; [destruct (Ascii.eqb c EOL)|];
    cbn [pos stringOrReadable]; apply drop_S.
Qed.

Lemma remaining_rest (s : CharStream) :
  CharStream.remaining s = String.length (rest s).
Proof. unfold CharStream.remaining, rest; now rewrite length_drop. Qed.

Lemma remaining_next (s : CharStream) :
  CharStream.remaining (snd (CharStream.next s)) = CharStream.remaining s - 1.
Proof.
  rewrite !remaining_rest, rest_next.
  destruct (rest s); simpl; lia.
Qed.

Lemma peek_None_remaining (s : CharStream) :
  CharStream.peek s = None <-> CharStream.remaining s = 0.
Proof.
  rewrite peek_rest, remaining_rest.
  destruct (rest s); simpl; split; congruence.
Qed.

Lemma eof_remaining (s : CharStream) :
  CharStream.eof s = true <-> CharStream.remaining s = 0.
Proof.
  rewrite <- peek_None_remaining; unfold CharStream.eof.
  destruct (CharStream.peek s); split; congruence.
Qed.

Lemma rest_peek (s : CharStream) (c : ascii) :
  CharStream.peek s = Some c -> rest s = String c (rest (snd (CharStream.next s))).
Proof.
  rewrite peek_rest, rest_next. destruct (rest s); simpl; congruence.
Qed.

Lemma rest_peek_None (s : CharStream) :
  CharStream.peek s = None -> rest s = EmptyString.
Proof. rewrite peek_rest. destruct (rest s); simpl; congruence. Qed.

(* ------------------------------------------------------------------------- *)
(** ** The lexer's loops end before their bound *)

Ltac step :=
  cbn [Values.readWhile_loop Values.readString_loop Luthor.readNextToken_loop
       snd fst Nat.add].

Section LexerLoops.

Context {P : Type} (predicate : P -> ascii -> bool * P).

(** Once the bound covers the characters that are left, a larger bound
    changes nothing: the loop of [readWhile] is never cut short. *)
Lemma readWhile_loop_fuel (k j : nat) :
  forall (p : P) (str : string) (s : CharStream),
    CharStream.remaining s <= k ->
    Values.readWhile_loop (k + j) predicate p str s
    = Values.readWhile_loop k predicate p str s.
Proof.
  induction k as [|k IH]; intros p str s Hk.
  - assert (Hp : CharStream.peek s = None)
      by (apply peek_None_remaining; lia).
    destruct j; step; [reflexivity | now rewrite Hp].
  - step. destruct (CharStream.peek s) as [c|]; [|reflexivity].
    destruct (predicate p c) as [[|] p']; [|reflexivity].
    apply IH. rewrite remaining_next. lia.
Qed.

Lemma readWhile_loop_remaining (k : nat) :
  forall (p : P) (str : string) (s : CharStream),
    CharStream.remaining (snd (Values.readWhile_loop k predicate p str s))
    <= CharStream.remaining s.
Proof.
  induction k as [|k IH]; intros p str s; step; [lia|].
  destruct (CharStream.peek s) as [c|]; step; [|lia].
  destruct (predicate p c) as [[|] p']; step; [|lia].
  etransitivity; [apply IH|]. rewrite remaining_next. lia.
Qed.

(** A loop that starts at the end of the input reads nothing. *)
Lemma readWhile_loop_eof (k : nat) (p : P) (str : string) (s : CharStream) :
  CharStream.peek s = None ->
  Values.readWhile_loop k predicate p str s = (str, s).
Proof. intros Hp. destruct k; step; [|rewrite Hp]; reflexivity. Qed.

End LexerLoops.

Lemma readString_loop_fuel (k j : nat) :
  forall (escaped : bool) (str : string) (s : CharStream),
    CharStream.remaining s <= k ->
    Values.readString_loop (k + j) escaped str s
    = Values.readString_loop k escaped str s.
Proof.
  induction k as [|k IH]; intros escaped str s Hk.
  - assert (He : CharStream.eof s = true) by (apply eof_remaining; lia).
    destruct j; step; [reflexivity | now rewrite He].
  - step. destruct (CharStream.eof s); [reflexivity|].
    pose proof (remaining_next s) as Hn.
    destruct (CharStream.next s) as [[c|] s']; cbn [snd fst] in Hn; [|reflexivity].
    destruct escaped; [apply IH; lia|].
    destruct (Ascii.eqb c BACKSLASH); [apply IH; lia|].
    destruct (Matchers.isStringBoundary c); [reflexivity|apply IH; lia].
Qed.

Lemma remaining_readWhile (s : CharStream) (predicate : ascii -> bool) :
  CharStream.remaining (snd (Values.readWhile s predicate))
  <= CharStream.remaining s.
Proof. apply readWhile_loop_remaining. Qed.

Lemma remaining_skipRestOfLine (s : CharStream) :
  CharStream.remaining (Values.skipRestOfLine s) <= CharStream.remaining s - 1.
Proof.
  unfold Values.skipRestOfLine. rewrite remaining_next.
  pose proof (remaining_readWhile s Matchers.isNotEOL). lia.
Qed.

Lemma readWhile_eof (s : CharStream) (predicate : ascii -> bool) :
  CharStream.eof s = true -> Values.readWhile s predicate = (EmptyString, s).
Proof.
  intros He. apply readWhile_loop_eof.
  unfold CharStream.eof in He. now destruct (CharStream.peek s).
Qed.

(** At the end of the input [readNextToken] gives the end marker and leaves
    the cursor where it is. *)
Lemma readNextToken_loop_eof (k : nat) (s : CharStream) :
  CharStream.eof s = true -> Luthor.readNextToken_loop k s = Ok (None, s).
Proof.
  intros He.
  destruct k; step; rewrite (readWhile_eof s _ He); step; now rewrite He.
Qed.

Ltac split_branches :=
  repeat match goal with
         | |- context [if ?b then _ else _] => destruct b
         | |- context [let '(_, _) := ?x in _] => destruct x
         end.

(** [readNextToken] never runs out of its bound, and a larger bound changes
    nothing. *)
Lemma readNextToken_loop_fuel (k j : nat) :
  forall s : CharStream,
    CharStream.remaining s <= k ->
    Luthor.readNextToken_loop (k + j) s = Luthor.readNextToken_loop k s
    /\ Luthor.readNextToken_loop k s <> OutOfFuel.
Proof.
  induction k as [|k IH]; intros s Hk.
  - assert (He : CharStream.eof s = true) by (apply eof_remaining; lia).
    rewrite !readNextToken_loop_eof by assumption. split; congruence.
  - step.
    pose proof (remaining_readWhile s Matchers.isWhiteSpace) as Hw.
    set (s1 := snd (Values.readWhile s Matchers.isWhiteSpace)) in *.
    destruct (CharStream.eof s1) eqn:He; [split; congruence|].
    destruct (CharStream.peek s1) as [c|] eqn:Hp; [|split; congruence].
    destruct (Matchers.isComment c) eqn:Hc.
    + apply IH. pose proof (remaining_skipRestOfLine s1). lia.
    + split; [reflexivity|]. split_branches; congruence.
Qed.

Lemma readNextToken_total (s : CharStream) : Luthor.readNextToken s <> OutOfFuel.
Proof. apply (readNextToken_loop_fuel _ 0). lia. Qed.

Lemma readNextToken_loop_end (k : nat) :
  forall (s s' : CharStream),
    Luthor.readNextToken_loop k s = Ok (None, s') -> CharStream.eof s' = true.
Proof.
  induction k as [|k IH]; intros s s'; step;
    set (s1 := snd (Values.readWhile s Matchers.isWhiteSpace));
    (destruct (CharStream.eof s1) eqn:He; [intros [= <-]; exact He|]);
    (destruct (CharStream.peek s1) as [c|] eqn:Hp;
       [|intros [= <-]; unfold CharStream.eof; now rewrite Hp]);
    (destruct (Matchers.isComment c); [|split_branches; discriminate]).
  - discriminate.
  - apply IH.
Qed.

(** Once [readNextToken] gave the end marker it gives it again, and the
    cursor stays. *)
Lemma readNextToken_end_again (s s' : CharStream) :
  Luthor.readNextToken s = Ok (None, s') ->
  Luthor.readNextToken s' = Ok (None, s').
Proof.
  intros H. apply readNextToken_loop_eof.
  exact (readNextToken_loop_end _ _ _ H).
Qed.

Lemma peek_total (l : Luthor) : Luthor.peek l <> OutOfFuel.
Proof.
  unfold Luthor.peek. destruct (current l); [discriminate|].
  pose proof (readNextToken_total (stream l)).
  destruct (Luthor.readNextToken (stream l)) as [[t s]| |]; congruence.
Qed.

(** A second [peek] finds what the first one found, and changes nothing. *)
Lemma peek_peek (l l' : Luthor) (t : option token) :
  Luthor.peek l = Ok (t, l') -> Luthor.peek l' = Ok (t, l').
Proof.
  unfold Luthor.peek. destruct (current l) as [c|] eqn:Hc.
  - intros [= <- <-]. now rewrite Hc.
  - destruct (Luthor.readNextToken (stream l)) as [[t0 s0]| |] eqn:Hr;
      intros [= <- <-]. cbn [current stream].
    destruct t0 as [t0|]; [reflexivity|].
    now rewrite (readNextToken_end_again _ _ Hr).
Qed.

(* ------------------------------------------------------------------------- *)
(** ** The token stream's contract *)

(** C9. For every state of the token stream, a [peek()] that follows a
    [peek()] returns the same token and leaves the state as it is (the one
    token of lookahead is cached in [current]); [next()] then returns that
    token and empties the cache; and [eof()] is true exactly when [peek()]
    yields the end marker. *)
Theorem peek_next_eof_contract (l l' : Luthor) (t : option token)
    (H : Luthor.peek l = Ok (t, l')) :
  Luthor.peek l' = Ok (t, l')
  /\ current l' = t
  /\ Luthor.next l' = Ok (t, mkLuthor (stream l') None)
  /\ Luthor.eof l = Ok (is_end t, l')
  /\ (is_end t = true <-> t = None).
Proof.
  assert (Hend : is_end t = true <-> t = None)
    by (destruct t; simpl; split; congruence).
  unfold Luthor.eof. rewrite H.
  unfold Luthor.peek, Luthor.next in *.
  destruct (current l) as [c|] eqn:Hc.
  - injection H as <- <-. rewrite Hc. auto.
  - destruct (Luthor.readNextToken (stream l)) as [[t0 s0]| |] eqn:Hr;
      try discriminate.
    injection H as <- <-. cbn [current stream].
    destruct t0 as [t0|]; [auto|].
    rewrite (readNextToken_end_again _ _ Hr). auto.
Qed.

Lemma peek_next_eof_contract_witness :
  let l := lexer "3.14.15" in
  let l' := mkLuthor (mkCharStream "3.14.15" 4 1 4)
                     (Some (Tokens.numeric (Dec 3.14))) in
  Luthor.peek l = Ok (Some (Tokens.numeric (Dec 3.14)), l')
  /\ Luthor.peek l' = Ok (Some (Tokens.numeric (Dec 3.14)), l')
  /\ Luthor.eof l = Ok (false, l').
Proof.
  intros l l'.
  assert (H : Luthor.peek l = Ok (Some (Tokens.numeric (Dec 3.14)), l'))
    by reflexivity.
  split; [exact H|].
  destruct (peek_next_eof_contract l l' _ H) as (H1 & _ & _ & H2 & _).
  split; [exact H1 | exact H2].
Defined.

(* ------------------------------------------------------------------------- *)
(** ** Number and string literals *)

(** C4, as the code has it. Lexing [3.14] yields the one number token 3.14 and
    then the end marker. Lexing [3.14.15] yields the number token 3.14 with
    the cursor left on the second dot, which is not absorbed; the next read
    then fails: the dot is neither punctuation nor an operator character, and
    [readNextToken] raises its illegal-character error at line 1, column 4. *)
Theorem number_then_illegal_dot :
  (exists l1 l2,
      Luthor.next (lexer "3.14") = Ok (Some (Tokens.numeric (Dec 3.14)), l1)
      /\ Luthor.next l1 = Ok (None, l2))
  /\ (exists l1,
      Luthor.next (lexer "3.14.15") = Ok (Some (Tokens.numeric (Dec 3.14)), l1)
      /\ CharStream.peek (stream l1) = Some "."%char
      /\ pos (stream l1) = 4
      /\ Luthor.next l1
         = Throw (IllegalSyntaxError 1 4 "Illegal character at this position: .")).
Proof.
  split.
  - eexists. eexists. split; reflexivity.
  - eexists. repeat split; reflexivity.
Qed.

(** C4, as the specification states it, fails: after the number token of
    [3.14.15] there is no token for the second dot. *)
Lemma second_dot_is_no_token :
  ~ (exists l1 t2 l2,
       Luthor.next (lexer "3.14.15") = Ok (Some (Tokens.numeric (Dec 3.14)), l1)
       /\ Luthor.next l1 = Ok (Some t2, l2)).
Proof.
  intros (l1 & t2 & l2 & H1 & H2).
  vm_compute in H1. injection H1 as <-.
  vm_compute in H2. discriminate H2.
Qed.

(** C2 on the document of [abc] between two boundaries: the token's value
    is [bc]. [readNextToken] consumes the opening boundary and [readString]
    then consumes one more character before its loop, so the first character
    of the content is lost. *)
Theorem string_literal_loses_first_character :
  exists l1,
    Luthor.next (lexer (quoted "abc")) = Ok (Some (Tokens.string "bc"), l1)
    /\ pos (stream l1) = 5.
Proof. eexists. split; reflexivity. Qed.

Lemma append_assoc (a b c : string) : (a ++ b) ++ c = a ++ (b ++ c).
Proof. induction a as [|x a IH]; cbn; [reflexivity|now rewrite IH]. Qed.

Lemma append_nil_r (a : string) : a ++ EmptyString = a.
Proof. induction a as [|x a IH]; cbn; [reflexivity|now rewrite IH]. Qed.

Lemma next_peek (s : CharStream) : fst (CharStream.next s) = CharStream.peek s.
Proof. reflexivity. Qed.

(** The loop of [readString] returns the characters up to the first
    unescaped boundary, the escaping backslashes apart; and with no such
    boundary it runs to the end of the input. *)
Lemma readString_loop_value (k : nat) :
  forall (escaped : bool) (str : string) (s : CharStream),
    CharStream.remaining s <= k ->
    fst (Values.readString_loop k escaped str s) = str ++ unescaped escaped (rest s)
    /\ (closes escaped (rest s) = false ->
        CharStream.eof (snd (Values.readString_loop k escaped str s)) = true).
Proof.
  induction k as [|k IH]; intros escaped str s Hk; step.
  - assert (He : CharStream.eof s = true) by (apply eof_remaining; lia).
    split; [|intros _; exact He].
    unfold CharStream.eof in He.
    destruct (CharStream.peek s) eqn:Hp; [discriminate|].
    rewrite (rest_peek_None _ Hp). cbn [unescaped]. now rewrite append_nil_r.
  - destruct (CharStream.eof s) eqn:He.
    + split; [|intros _; exact He]. unfold CharStream.eof in He.
      destruct (CharStream.peek s) eqn:Hp; [discriminate|].
      rewrite (rest_peek_None _ Hp). cbn [unescaped]. now rewrite append_nil_r.
    + pose proof (next_peek s) as Hf. pose proof (remaining_next s) as Hr.
      unfold CharStream.eof in He.
      destruct (CharStream.peek s) as [c|] eqn:Hp; [|discriminate].
      pose proof (rest_peek _ _ Hp) as Hrest.
      destruct (CharStream.next s) as [c' s1]. cbn [fst snd] in *. subst c'.
      rewrite Hrest. cbn [closes unescaped].
      destruct escaped.
      * destruct (IH false (str ++ str1 c) s1 ltac:(lia)) as [H1 H2].
        split; [|exact H2]. rewrite H1, append_assoc. reflexivity.
      * destruct (Ascii.eqb c BACKSLASH); [apply IH; lia|].
        destruct (Matchers.isStringBoundary c).
        { split; [now rewrite append_nil_r|discriminate]. }
        destruct (IH false (str ++ str1 c) s1 ltac:(lia)) as [H1 H2].
        split; [|exact H2]. rewrite H1, append_assoc. reflexivity.
Qed.

(** [readNextToken] with the cursor on a boundary character. *)
Lemma readNextToken_string (s : CharStream) :
  CharStream.peek s = Some DQUOTE ->
  Luthor.readNextToken s
  = let '(v, s') := Values.readString (snd (CharStream.next s)) in
    Ok (Some (Tokens.string v), s').
Proof.
  intros Hp. unfold Luthor.readNextToken.
  assert (Hw : Values.readWhile s Matchers.isWhiteSpace = (EmptyString, s)).
  { unfold Values.readWhile, Values.readWhile_st.
    destruct (CharStream.remaining s); step; [reflexivity|].
    now rewrite Hp. }
  assert (He : CharStream.eof s = false)
    by (unfold CharStream.eof; now rewrite Hp).
  destruct (CharStream.remaining s); step; rewrite Hw; step;
    rewrite He, Hp; reflexivity.
Qed.

(** What of C8 holds for every input: a string literal never makes the lexer
    fail. Wherever the cursor stands on a boundary character,
    [readNextToken] returns a string token. *)
Lemma string_literal_never_fails (s : CharStream) :
  CharStream.peek s = Some DQUOTE ->
  exists v s', Luthor.readNextToken s = Ok (Some (Tokens.string v), s').
Proof.
  intros Hp. rewrite (readNextToken_string s Hp).
  destruct (Values.readString _) as [v s']. now exists v, s'.
Qed.

(** What the lexer makes of any string literal: the token holds the text
    after the first character of the content, up to the first unescaped
    boundary in it. That first character, whatever it is, is dropped. *)
Lemma string_literal_value (s : CharStream) (c0 : ascii) (body : string) :
  rest s = String DQUOTE (String c0 body) ->
  exists s',
    Luthor.readNextToken s = Ok (Some (Tokens.string (unescaped false body)), s')
    /\ (closes false body = false -> CharStream.eof s' = true).
Proof.
  intros Hrest.
  assert (Hp : CharStream.peek s = Some DQUOTE)
    by (rewrite peek_rest, Hrest; reflexivity).
  rewrite (readNextToken_string s Hp). unfold Values.readString.
  set (s1 := snd (CharStream.next s)).
  set (s2 := snd (CharStream.next s1)).
  assert (H1 : rest s1 = String c0 body)
    by (unfold s1; rewrite rest_next, Hrest; reflexivity).
  assert (H2 : rest s2 = body)
    by (unfold s2; rewrite rest_next, H1; reflexivity).
  destruct (readString_loop_value _ false EmptyString s2 (le_n _)) as [Hv He].
  destruct (Values.readString_loop _ false EmptyString s2) as [v s'].
  cbn [fst snd] in Hv, He. exists s'. rewrite Hv, H2 in *.
  split; [reflexivity|exact He].
Qed.

(** So where the first character of an unterminated literal is no backslash,
    the loop does run to the end of the input, as C8 says. *)
Lemma unterminated_string_reads_to_end (s : CharStream) (c0 : ascii)
    (body : string) :
  rest s = String DQUOTE (String c0 body) ->
  Ascii.eqb c0 BACKSLASH = false ->
  closes false (String c0 body) = false ->
  exists s',
    Luthor.readNextToken s = Ok (Some (Tokens.string (unescaped false body)), s')
    /\ CharStream.eof s' = true.
Proof.
  intros Hrest Hc0 Hcl.
  destruct (string_literal_value s c0 body Hrest) as (s' & Hs & He).
  exists s'. split; [exact Hs|]. apply He.
  cbn [closes] in Hcl. rewrite Hc0 in Hcl.
  now destruct (Matchers.isStringBoundary c0).
Qed.

(** C8 on the document of the four characters boundary, backslash, boundary,
    [a]: the string literal is not terminated (its only other boundary
    character is escaped), yet the loop of [readString] does not run to the
    end of the input. The backslash is the character that [readString] drops,
    so the boundary after it ends the loop: the token is the empty string, and
    the [a] is lexed next as an identifier. *)
Theorem unterminated_string_stops_early :
  let doc := String DQUOTE (String BACKSLASH (String DQUOTE "a")) in
  exists l1 l2,
    Luthor.next (lexer doc) = Ok (Some (Tokens.string EmptyString), l1)
    /\ CharStream.eof (stream l1) = false
    /\ Luthor.next l1 = Ok (Some (Tokens.identifier "a"), l2).
Proof. eexists. eexists. repeat split; reflexivity. Qed.

(* ------------------------------------------------------------------------- *)
(** ** The parser's equations *)

Module Eqns.
Import Parsicle.

Lemma expression_S n :
  expression (S n)
  = handleInvocation n (d <- discrete n ;; resolveOperatorBindings n d 0).
Proof. reflexivity. Qed.

Lemma parenthetical_S n :
  parenthetical (S n)
  = (expectPunc "(" ;;; exp <- expression n ;; expectPunc ")" ;;; ret exp).
Proof. reflexivity. Qed.

Lemma block_S n :
  block (S n)
  = (body <- delimited n "{" "}" ";" (expression n) ;;
     match body with
     | [x] => ret x
     | _ => ret (Nodes.blockStatement body)
     end).
Proof. reflexivity. Qed.

Lemma rule_S n :
  rule (S n)
  = (Luthor.next ;;;
     token <- Luthor.peek ;;
     name <- (if Types.isId token None
              then (i <- expectIdentifier ;; v <- value_of i ;; ret (Some v))
              else ret None) ;;
     token <- Luthor.peek ;;
     die_if (negb (Types.isPunc token (Some "(")))
            "Missing argument list for rule declaration" ;;;
     args <- delimited n "(" ")" "," (i <- expectIdentifier ;; ret (js i)) ;;
     token <- Luthor.peek ;;
     die_if (negb (Types.isPunc token (Some "{")))
            "Missing body for rule declaration" ;;;
     body <- block n ;;
     ret (Nodes.rule name args body)).
Proof. reflexivity. Qed.

Lemma signed_S n :
  signed (S n)
  = (sign <- expectOps ["-"; "+"] ;;
     token <- Luthor.peek ;;
     ok <- (if Types.isPunc token (Some "(") then ret true
            else Types.isOneOfType token ["num"; "id"]) ;;
     die_if (negb ok) "Expected signed expression" ;;;
     v <- value_of sign ;;
     match v with
     | VString "-" =>
         d <- discrete n ;;
         ret (Nodes.binaryExpression "*" (Prim (VNumber (Dec (-1)))) d)
     | _ => discrete n
     end).
Proof. reflexivity. Qed.

Lemma discrete_S n :
  discrete (S n)
  = handleInvocation n
      (current <- Luthor.peek ;;
       if Types.isPunc current (Some "(") then parenthetical n
       else if Types.isPunc current (Some "{") then block n
       else if Types.isKw current (Some "rule") then rule n
       else if Types.isOp current (Some "-") || Types.isOp current (Some "+")
            then signed n
       else
         leaf <- Types.isOneOfType current ["num"; "str"; "id"] ;;
         if leaf then (t <- Luthor.next ;; ret (js t))
         else die).
Proof. reflexivity. Qed.

Lemma resolveOperatorBindings_S n leftNode thisPrecedence :
  resolveOperatorBindings (S n) leftNode thisPrecedence
  = (token <- Luthor.peek ;;
     match (if Types.isOp token None then token else None) with
     | Some {| tvalue := VString op |} =>
         match lookup PRECEDENCE op with
         | Some thatPrecedence =>
             if thisPrecedence <? thatPrecedence then
               Luthor.next ;;;
               d <- discrete n ;;
               rightNode <- resolveOperatorBindings n d thatPrecedence ;;
               resolveOperatorBindings n
                 (Nodes.binaryExpression op leftNode rightNode) thisPrecedence
             else ret leftNode
         | None => ret leftNode
         end
     | _ => ret leftNode
     end).
Proof. reflexivity. Qed.

Lemma handleInvocation_S n callable :
  handleInvocation (S n) callable
  = (node <- callable ;;
     token <- Luthor.peek ;;
     if Types.isPunc token (Some "(")
     then args <- delimited n "(" ")" "," (expression n) ;;
          ret (Nodes.invocation node args)
     else ret node).
Proof. reflexivity. Qed.

Lemma delimited_loop_S k stop separator parserFn first body :
  delimited_loop (S k) stop separator parserFn first body
  = (e <- Luthor.eof ;;
     if e then ret body
     else
       token <- Luthor.peek ;;
       if Types.isPunc token (Some stop) then ret body
       else
         (if first then ret None else expectPunc separator) ;;;
         token <- Luthor.peek ;;
         if Types.isPunc token (Some stop) then ret body
         else
           x <- parserFn ;;
           delimited_loop k stop separator parserFn false (body ++ [x])).
Proof. reflexivity. Qed.

Lemma parse_loop_S n ast :
  parse_loop (S n) ast
  = (e <- Luthor.eof ;;
     if e then ret ast
     else
       x <- expression n ;;
       e <- Luthor.eof ;;
       (if e then ret None else expectPunc ";") ;;;
       parse_loop n (ast ++ [x])).
Proof. reflexivity. Qed.

End Eqns.

(* ------------------------------------------------------------------------- *)
(** ** More fuel changes no result *)

Lemma extends_refl {A : Type} (m : parser A) : extends m m.
Proof. intros l _. reflexivity. Qed.

Lemma extends_out_of_fuel {A : Type} (m : parser A) : extends out_of_fuel m.
Proof. intros l H. now contradiction H. Qed.

Lemma extends_bind {A B : Type} (m1 m2 : parser A) (f1 f2 : A -> parser B) :
  extends m1 m2 -> (forall a, extends (f1 a) (f2 a)) ->
  extends (bind m1 f1) (bind m2 f2).
Proof.
  intros Hm Hf l H. unfold bind in *.
  destruct (m1 l) as [[a l']| |] eqn:E.
  - rewrite (Hm l), E by congruence. now apply Hf.
  - rewrite (Hm l), E by congruence. reflexivity.
  - now contradiction H.
Qed.

Lemma extends_trans {A : Type} (m1 m2 m3 : parser A) :
  extends m1 m2 -> extends m2 m3 -> extends m1 m3.
Proof.
  intros H12 H23 l H. rewrite H23; rewrite H12; auto.
Qed.

Ltac mono_step :=
  first
    [ apply extends_refl
    | apply extends_out_of_fuel
    | assumption
    | apply extends_bind; [|intro]
    | match goal with
      | |- extends (if ?b then _ else _) (if ?b then _ else _) => destruct b
      | |- extends (match ?x with _ => _ end) (match ?x with _ => _ end) =>
          destruct x
      end ].

Lemma delimited_loop_mono (stop separator : string) (p1 p2 : parser node)
    (Hp : extends p1 p2) (k : nat) :
  forall first body,
    extends (Parsicle.delimited_loop k stop separator p1 first body)
            (Parsicle.delimited_loop (S k) stop separator p2 first body).
Proof.
  induction k as [|k IH]; intros first body.
  - apply extends_out_of_fuel.
  - rewrite !Eqns.delimited_loop_S. repeat mono_step. apply IH.
Qed.

Lemma delimited_mono (start stop separator : string) (p1 p2 : parser node)
    (Hp : extends p1 p2) (k : nat) :
  extends (Parsicle.delimited k start stop separator p1)
          (Parsicle.delimited (S k) start stop separator p2).
Proof.
  unfold Parsicle.delimited. repeat mono_step. now apply delimited_loop_mono.
Qed.

Lemma parsers_mono (n : nat) :
  extends (Parsicle.expression n) (Parsicle.expression (S n))
  /\ extends (Parsicle.parenthetical n) (Parsicle.parenthetical (S n))
  /\ extends (Parsicle.block n) (Parsicle.block (S n))
  /\ extends (Parsicle.rule n) (Parsicle.rule (S n))
  /\ extends (Parsicle.signed n) (Parsicle.signed (S n))
  /\ extends (Parsicle.discrete n) (Parsicle.discrete (S n))
  /\ (forall leftNode p,
        extends (Parsicle.resolveOperatorBindings n leftNode p)
                (Parsicle.resolveOperatorBindings (S n) leftNode p))
  /\ (forall c1 c2, extends c1 c2 ->
        extends (Parsicle.handleInvocation n c1)
                (Parsicle.handleInvocation (S n) c2)).
Proof.
  induction n as [|n (He & Hp & Hb & Hr & Hs & Hd & Ho & Hh)].
  - repeat split; intros; apply extends_out_of_fuel.
  - assert (Hdl : forall start stop separator p1 p2, extends p1 p2 ->
              extends (Parsicle.delimited n start stop separator p1)
                      (Parsicle.delimited (S n) start stop separator p2))
      by (intros; now apply delimited_mono).
    repeat split; intros;
      rewrite ?Eqns.expression_S, ?Eqns.parenthetical_S, ?Eqns.block_S,
        ?Eqns.rule_S, ?Eqns.signed_S, ?Eqns.discrete_S,
        ?Eqns.resolveOperatorBindings_S, ?Eqns.handleInvocation_S;
      repeat first [apply Hdl | apply Ho | apply Hh | mono_step].
Qed.

Lemma parse_loop_mono (n : nat) :
  forall ast, extends (Parsicle.parse_loop n ast) (Parsicle.parse_loop (S n) ast).
Proof.
  induction n as [|n IH]; intros ast.
  - apply extends_out_of_fuel.
  - rewrite !Eqns.parse_loop_S.
    repeat first [apply (proj1 (parsers_mono n)) | apply IH | mono_step].
Qed.

Lemma parse_mono (n : nat) : extends (Parsicle.parse n) (Parsicle.parse (S n)).
Proof.
  unfold Parsicle.parse.
  apply extends_bind; [apply (proj1 (parsers_mono n))|intro; apply parse_loop_mono].
Qed.

Lemma parse_fuel (n k : nat) : extends (Parsicle.parse n) (Parsicle.parse (n + k)).
Proof.
  induction k as [|k IH].
  - rewrite Nat.add_0_r. apply extends_refl.
  - rewrite Nat.add_succ_r. eapply extends_trans; [exact IH|apply parse_mono].
Qed.

Lemma expression_fuel (n k : nat) :
  extends (Parsicle.expression n) (Parsicle.expression (n + k)).
Proof.
  induction k as [|k IH].
  - rewrite Nat.add_0_r. apply extends_refl.
  - rewrite Nat.add_succ_r.
    eapply extends_trans; [exact IH|apply (proj1 (parsers_mono _))].
Qed.

(** A parse that ended, with trees or with an exception, ends the same way
    with any larger fuel. *)
Lemma parse_string_fuel (n k : nat) (content : string) (r : outcome (list node)) :
  parse_string n content = r -> r <> OutOfFuel ->
  parse_string (n + k) content = r.
Proof.
  unfold parse_string, run. intros H Hr.
  rewrite (parse_fuel n k); [exact H|].
  intros E. rewrite E in H. congruence.
Qed.

Lemma parse_string_deterministic (n m : nat) (content : string)
    (r1 r2 : outcome (list node)) :
  parse_string n content = r1 -> r1 <> OutOfFuel ->
  parse_string m content = r2 -> r2 <> OutOfFuel ->
  r1 = r2.
Proof.
  intros H1 Hr1 H2 Hr2.
  destruct (Nat.le_ge_cases n m) as [Hle|Hle].
  - replace m with (n + (m - n)) in H2 by lia.
    rewrite (parse_string_fuel n _ _ _ H1 Hr1) in H2. exact H2.
  - replace n with (m + (n - m)) in H1 by lia.
    rewrite (parse_string_fuel m _ _ _ H2 Hr2) in H1. now symmetry.
Qed.

Ltac by_fuel :=
  intros; apply parse_string_fuel; [vm_compute; reflexivity | discriminate].

(* ------------------------------------------------------------------------- *)
(** ** Programs *)

(** C1 on the documents [1;2] and [1;]: [parse] raises its unexpected-token
    error on the semicolon. Its loop asks for the separator after the
    expression that it reads in the loop, not before it, so the second
    expression must follow the first with no separator, as in [1 2; 3], which
    is accepted. *)
Theorem program_separator_misplaced (k : nat) :
  parse_string (4 + k) "1;2"
  = Throw (IllegalSyntaxError 1 2
             ("Unexpected token: " ++ JSON.token (Some (Tokens.punctuation ";"))))
  /\ parse_string (4 + k) "1;"
    = Throw (IllegalSyntaxError 1 2
               ("Unexpected token: " ++ JSON.token (Some (Tokens.punctuation ";"))))
  /\ parse_string (5 + k) "1 2; 3" = Ok [num 1; num 2; num 3].
Proof. repeat split; by_fuel. Qed.

(** The sibling path: a block separates its expressions as the grammar
    says. *)
Lemma block_separator (k : nat) :
  parse_string (6 + k) "{1;2;}" = Ok [Block [num 1; num 2]].
Proof. by_fuel. Qed.

(* ------------------------------------------------------------------------- *)
(** ** Rule declarations *)

Lemma parse_rule_foo :
  parse_string 8 "rule foo(a, b) { a + b }"
  = Ok [Rule (Some (VString "foo"))
             [Leaf (Tokens.identifier "a"); Leaf (Tokens.identifier "b")]
             (Binary "binaryExpression" "+" (ident "a") (ident "b"))].
Proof. vm_compute; reflexivity. Qed.

(** C3, as the code has it. Parsing [rule foo(a, b) { a + b }] yields the one
    node [Rule] whose name is the string foo, whose parameters are the two
    identifier tokens a and b in declaration order (the token objects that
    [expectIdentifier] returned, not their strings), and whose body is the
    binary expression itself, not a block around it. *)
Theorem rule_declaration (k : nat) :
  parse_string (8 + k) "rule foo(a, b) { a + b }"
  = Ok [Rule (Some (VString "foo"))
             [Leaf (Tokens.identifier "a"); Leaf (Tokens.identifier "b")]
             (Binary "binaryExpression" "+" (ident "a") (ident "b"))].
Proof. apply parse_string_fuel; [exact parse_rule_foo | discriminate]. Qed.

(** C3, as the specification states it, fails: whatever the fuel, the parse
    does not give the bare strings a and b as parameters. *)
Lemma rule_params_are_not_strings :
  ~ (exists n,
       parse_string n "rule foo(a, b) { a + b }"
       = Ok [Rule (Some (VString "foo"))
                  [Prim (VString "a"); Prim (VString "b")]
                  (Binary "binaryExpression" "+" (ident "a") (ident "b"))]).
Proof.
  intros [n H].
  pose proof (parse_string_deterministic _ _ _ _ _ H ltac:(discriminate)
                parse_rule_foo ltac:(discriminate)) as E.
  discriminate E.
Qed.

(** Fail-fast: an exception raised by any step is the outcome of all that was
    to follow it; no value comes with it. *)
Lemma bind_throw {A B : Type} (m : parser A) (f : A -> parser B) (l : Luthor)
    (e : exception) :
  m l = Throw e -> bind m f l = Throw e.
Proof. intros H. unfold bind. now rewrite H. Qed.

Lemma parse_rule_without_argument_list :
  parse_string 3 "rule foo {"
  = Throw (IllegalSyntaxError 1 10 "Missing argument list for rule declaration").
Proof. vm_compute; reflexivity. Qed.

(** C7, as the code has it. Parsing [rule foo {] raises the syntax error
    Missing argument list for rule declaration, and returns no tree. Its
    line and column are 1 and 10: the place of the cursor when the error is
    raised, which is just after the brace, since the brace was already read as
    the token of lookahead. The brace itself stands at column 9. *)
Theorem rule_without_argument_list (k : nat) :
  let doc := "rule foo {" in
  parse_string (3 + k) doc
  = Throw (IllegalSyntaxError 1 10 "Missing argument list for rule declaration")
  /\ CharStream.peek (advance 9 (CharStream.new doc)) = Some "{"%char
  /\ position (advance 9 (CharStream.new doc)) = (1, 9)
  /\ position (advance 10 (CharStream.new doc)) = (1, 10).
Proof.
  intros doc. split; [|repeat split].
  apply parse_string_fuel;
    [exact parse_rule_without_argument_list | discriminate].
Qed.

(** C7, as the specification states it, fails: whatever the fuel, the error is
    not at the line and column where the brace stands. *)
Lemma error_is_not_at_the_brace :
  let doc := "rule foo {" in
  let brace := advance 9 (CharStream.new doc) in
  CharStream.peek brace = Some "{"%char
  /\ ~ (exists n message,
         parse_string n doc
         = Throw (IllegalSyntaxError (line brace) (col brace) message)).
Proof.
  split; [reflexivity|]. intros (n & message & H).
  pose proof (parse_string_deterministic _ _ _ _ _ H ltac:(discriminate)
                parse_rule_without_argument_list ltac:(discriminate)) as E.
  vm_compute in E. discriminate E.
Qed.

(* ------------------------------------------------------------------------- *)
(** ** Operator precedence *)

(** The table of the code holds the binding powers of the specification, and
    nothing else. *)
Lemma PRECEDENCE_binding_power (op : string) :
  lookup PRECEDENCE op = binding_power op.
Proof.
  unfold binding_power, comparisons, PRECEDENCE, lookup, existsb.
  repeat match goal with
         | |- context [String.eqb ?a op] =>
             rewrite (String.eqb_sym a op); destruct (String.eqb op a) eqn:?
         end; cbn [orb]; try reflexivity.
Qed.

Lemma binding_power_recognized (op : string) (p : nat) :
  binding_power op = Some p ->
  In op ["="; "||"; "&&"; "<"; ">"; "<="; ">="; "=="; "!="; "+"; "-"; "*"; "/"; "%"].
Proof.
  unfold binding_power, comparisons, existsb.
  repeat match goal with
         | |- context [String.eqb op ?a] =>
             destruct (String.eqb_spec op a);
             [subst op; intros _; cbn; tauto|]
         end.
  cbn [orb]. discriminate.
Qed.

Lemma binaryExpression_type (op : string) (l r : node) :
  node_type (Nodes.binaryExpression op l r)
  = Some (if String.eqb op "=" then "assign" else "binaryExpression").
Proof.
  unfold Nodes.binaryExpression. cbn [node_type].
  now rewrite (String.eqb_sym "=" op).
Qed.

(** For any two recognized operators, the parse of [a op1 b op2 c]: the
    second operator takes [b] when it binds tighter than the first, and the
    first takes it otherwise. *)
Lemma two_operators_nesting (k : nat) (op1 op2 : string) (p1 p2 : nat) :
  binding_power op1 = Some p1 -> binding_power op2 = Some p2 ->
  parse_string (5 + k) (two_operators op1 op2)
  = Ok [if p1 <? p2
        then Nodes.binaryExpression op1 (ident "a")
               (Nodes.binaryExpression op2 (ident "b") (ident "c"))
        else Nodes.binaryExpression op2
               (Nodes.binaryExpression op1 (ident "a") (ident "b"))
               (ident "c")].
Proof.
  intros H1 H2.
  pose proof (binding_power_recognized _ _ H1) as I1.
  pose proof (binding_power_recognized _ _ H2) as I2.
  cbn [In] in I1, I2.
  repeat (destruct I1 as [<-|I1]; [|try contradiction]);
    repeat (destruct I2 as [<-|I2]; [|try contradiction]);
    vm_compute in H1, H2; injection H1 as <-; injection H2 as <-;
    by_fuel.
Qed.

(** *** The token stream as the list of tokens it delivers *)

Lemma peek_then_next (l l' : Luthor) (t : option token) :
  Luthor.peek l = Ok (t, l') ->
  Luthor.next l = Ok (t, mkLuthor (stream l') None).
Proof.
  unfold Luthor.peek, Luthor.next. destruct (current l) as [c|].
  - now intros [= <- <-].
  - destruct (Luthor.readNextToken (stream l)) as [[t0 s0]| |];
      now intros [= <- <-].
Qed.

Lemma delivers_peek (l : Luthor) (ts : list token) :
  delivers l ts ->
  exists l', Luthor.peek l = Ok (hd_error ts, l') /\ delivers l' ts.
Proof.
  intros [l0 l' H|l0 l' t ts' H Hts]; exists l'; (split; [exact H|]).
  - eapply delivers_end, peek_peek, H.
  - eapply delivers_token; [eapply peek_peek, H|exact Hts].
Qed.

Lemma delivers_next (l : Luthor) (t : token) (ts : list token) :
  delivers l (t :: ts) ->
  exists l', Luthor.next l = Ok (Some t, l') /\ delivers l' ts.
Proof.
  intros H. inversion H as [|l0 l' t0 ts0 Hp Hts]; subst.
  eexists. split; [exact (peek_then_next _ _ _ Hp)|exact Hts].
Qed.

Lemma delivers_eof (l : Luthor) (ts : list token) :
  delivers l ts ->
  exists l', Luthor.eof l = Ok (is_end (hd_error ts), l') /\ delivers l' ts.
Proof.
  intros H. destruct (delivers_peek _ _ H) as (l' & Hp & Hd).
  exists l'. unfold Luthor.eof. now rewrite Hp.
Qed.

Lemma extends_Ok {A : Type} (m1 m2 : parser A) (l : Luthor) (x : A * Luthor) :
  extends m1 m2 -> m1 l = Ok x -> m2 l = Ok x.
Proof. intros H E. rewrite H; [exact E|]. rewrite E. discriminate. Qed.

Lemma discrete_fuel (n k : nat) :
  extends (Parsicle.discrete n) (Parsicle.discrete (n + k)).
Proof.
  induction k as [|k IH].
  - rewrite Nat.add_0_r. apply extends_refl.
  - rewrite Nat.add_succ_r.
    eapply extends_trans; [exact IH|apply (parsers_mono (n + k))].
Qed.

Lemma resolveOperatorBindings_fuel (n k : nat) (leftNode : node) (p : nat) :
  extends (Parsicle.resolveOperatorBindings n leftNode p)
          (Parsicle.resolveOperatorBindings (n + k) leftNode p).
Proof.
  induction k as [|k IH].
  - rewrite Nat.add_0_r. apply extends_refl.
  - rewrite Nat.add_succ_r.
    eapply extends_trans; [exact IH|apply (parsers_mono (n + k))].
Qed.

Lemma atom_type (a : token) :
  is_atom a = true -> type a = "num" \/ type a = "str" \/ type a = "id".
Proof.
  unfold is_atom. cbn [Matchers.list_indexOf].
  destruct (String.eqb_spec "num" (type a)); [auto|].
  destruct (String.eqb_spec "str" (type a)); [auto|].
  destruct (String.eqb_spec "id" (type a)); [auto|].
  discriminate.
Qed.

Lemma atom_tests (a : token) (x : option string) :
  is_atom a = true ->
  Types.isPunc (Some a) x = false /\ Types.isKw (Some a) x = false
  /\ Types.isOp (Some a) x = false.
Proof.
  intros H. unfold Types.isPunc, Types.isKw, Types.isOp, Types.checkTypeAndValue.
  destruct (atom_type a H) as [E|[E|E]]; rewrite E; auto.
Qed.

(** [discrete] on an atom that no argument list follows: the atom, as a
    leaf. *)
Lemma discrete_atom (n : nat) (l : Luthor) (a : token) (ts : list token) :
  is_atom a = true -> not_paren ts = true -> delivers l (a :: ts) ->
  exists l', Parsicle.discrete (2 + n) l = Ok (Leaf a, l') /\ delivers l' ts.
Proof.
  intros Ha Hts Hd. cbn [Nat.add].
  rewrite Eqns.discrete_S, Eqns.handleInvocation_S.
  destruct (delivers_peek _ _ Hd) as (l1 & Hp1 & Hd1).
  destruct (delivers_next _ _ _ Hd1) as (l2 & Hn2 & Hd2).
  destruct (delivers_peek _ _ Hd2) as (l3 & Hp3 & Hd3).
  exists l3. split; [|exact Hd3].
  destruct (atom_tests a (Some "(") Ha) as (E1 & _ & _).
  destruct (atom_tests a (Some "{") Ha) as (E2 & _ & _).
  destruct (atom_tests a (Some "rule") Ha) as (_ & E3 & _).
  destruct (atom_tests a (Some "-") Ha) as (_ & _ & E4).
  destruct (atom_tests a (Some "+") Ha) as (_ & _ & E5).
  unfold bind. rewrite Hp1. cbn [hd_error]. rewrite E1, E2, E3, E4, E5.
  cbn [orb]. unfold Types.isOneOfType, ret. fold (is_atom a). rewrite Ha, Hn2.
  cbn [js]. rewrite Hp3. unfold not_paren in Hts.
  apply negb_true_iff in Hts. now rewrite Hts.
Qed.

Lemma not_paren_chain (c : chain) (rest : list token) :
  stopper rest = true -> not_paren (chain_tokens c ++ rest) = true.
Proof.
  intros Hs. destruct c as [|[op a] c]; [|reflexivity].
  cbn [chain_tokens flat_map app]. unfold not_paren.
  destruct rest as [|t rest]; [reflexivity|].
  cbn [stopper hd_error] in *. now apply andb_true_iff in Hs.
Qed.

Lemma resolve_stop (leftNode : node) (p : nat) (l : Luthor) (ts : list token) :
  delivers l ts ->
  match hd_error ts with
  | Some {| type := ty; tvalue := VString op |} =>
      String.eqb "op" ty = false
      \/ match binding_power op with Some bp => bp <= p | None => True end
  | Some _ => True
  | None => True
  end ->
  exists l', Parsicle.resolveOperatorBindings 1 leftNode p l = Ok (leftNode, l')
             /\ delivers l' ts.
Proof.
  intros Hd Hs. rewrite Eqns.resolveOperatorBindings_S.
  destruct (delivers_peek _ _ Hd) as (l1 & Hp1 & Hd1).
  exists l1. split; [|exact Hd1]. unfold bind. rewrite Hp1.
  unfold Types.isOp, Types.checkTypeAndValue.
  destruct (hd_error ts) as [[ty [op|x]]|]; cbn [type tvalue];
    rewrite ?andb_true_r.
  - destruct (String.eqb "op" ty) eqn:E; [|reflexivity].
    destruct Hs as [Hs|Hs]; [discriminate|].
    rewrite PRECEDENCE_binding_power.
    destruct (binding_power op) as [bp|]; [|reflexivity].
    apply Nat.ltb_ge in Hs. now rewrite Hs.
  - now destruct (String.eqb "op" ty).
  - reflexivity.
Qed.

(** The code's resolver does what the specification's resolver does, on any
    stream that delivers the chain. *)
Lemma resolve_climb (leftNode : node) (p : nat) (c : chain) (T : node) (c' : chain) :
  Climb leftNode p c T c' ->
  forall (l : Luthor) (rest : list token),
    stopper rest = true ->
    delivers l (chain_tokens c ++ rest) ->
    exists n l',
      Parsicle.resolveOperatorBindings n leftNode p l = Ok (T, l')
      /\ delivers l' (chain_tokens c' ++ rest).
Proof.
  induction 1 as [left p|left p op a c Hop|left p bp op a c Hop Hle
                 |left right result p bp op a c c1 c2 Hop Hlt Ha _ IH1 _ IH2];
    intros l rest Hrest Hd.
  - exists 1. apply resolve_stop; [exact Hd|].
    cbn [chain_tokens flat_map app].
    destruct rest as [|[ty [v|x]] rest]; cbn [hd_error]; auto.
    left. cbn [stopper] in Hrest. apply andb_true_iff in Hrest.
    destruct Hrest as [Hrest _]. now apply negb_true_iff in Hrest.
  - exists 1. apply resolve_stop; [exact Hd|].
    cbn [chain_tokens flat_map app hd_error Tokens.operator].
    right. now rewrite Hop.
  - exists 1. apply resolve_stop; [exact Hd|].
    cbn [chain_tokens flat_map app hd_error Tokens.operator].
    right. now rewrite Hop.
  - cbn [chain_tokens flat_map app] in Hd.
    fold (chain_tokens c) in Hd.
    destruct (delivers_peek _ _ Hd) as (l1 & Hp1 & Hd1).
    destruct (delivers_next _ _ _ Hd1) as (l2 & Hn2 & Hd2).
    destruct (discrete_atom 0 l2 a _ Ha (not_paren_chain c rest Hrest) Hd2)
      as (l3 & Hdis & Hd3).
    destruct (IH1 l3 rest Hrest Hd3) as (n1 & l4 & Hr1 & Hd4).
    destruct (IH2 l4 rest Hrest Hd4) as (n2 & l5 & Hr2 & Hd5).
    exists (S (2 + n1 + n2)), l5. split; [|exact Hd5].
    rewrite Eqns.resolveOperatorBindings_S. unfold bind.
    rewrite Hp1. cbn [hd_error].
    change (Types.isOp (Some (Tokens.operator op)) None) with true.
    cbn [Tokens.operator tvalue].
    rewrite PRECEDENCE_binding_power, Hop.
    apply Nat.ltb_lt in Hlt. rewrite Hlt, Hn2.
    replace (2 + n1 + n2) with (2 + 0 + (n1 + n2)) at 1 by lia.
    rewrite (extends_Ok _ _ _ _ (discrete_fuel (2 + 0) (n1 + n2)) Hdis).
    replace (2 + n1 + n2) with (n1 + (2 + n2)) at 1 by lia.
    rewrite (extends_Ok _ _ _ _ (resolveOperatorBindings_fuel n1 (2 + n2) _ _) Hr1).
    replace (2 + n1 + n2) with (n2 + (2 + n1)) by lia.
    exact (extends_Ok _ _ _ _ (resolveOperatorBindings_fuel n2 (2 + n1) _ _) Hr2).
Qed.

(** *** Expressions whose operands are atoms *)

Lemma expression_climb (l : Luthor) (a0 : token) (c : chain) (rest : list token)
    (T : node) :
  is_atom a0 = true -> stopper rest = true ->
  Climb (Leaf a0) 0 c T [] ->
  delivers l (a0 :: chain_tokens c ++ rest) ->
  exists n l',
    (forall k, Parsicle.expression (n + k) l = Ok (T, l')) /\ delivers l' rest.
Proof.
  intros Ha Hrest HT Hd.
  destruct (discrete_atom 0 l a0 _ Ha (not_paren_chain c rest Hrest) Hd)
    as (l1 & Hdis & Hd1).
  destruct (resolve_climb _ _ _ _ _ HT l1 rest Hrest Hd1) as (n1 & l2 & Hr & Hd2).
  cbn [chain_tokens flat_map app] in Hd2.
  destruct (delivers_peek _ _ Hd2) as (l3 & Hp3 & Hd3).
  exists (4 + n1), l3. split; [|exact Hd3]. intros k.
  set (m := 3 + n1 + k).
  assert (Hdis' : Parsicle.discrete m l = Ok (Leaf a0, l1)).
  { replace m with (2 + 0 + (1 + n1 + k)) by (unfold m; lia).
    exact (extends_Ok _ _ _ _ (discrete_fuel _ _) Hdis). }
  assert (Hr' : Parsicle.resolveOperatorBindings m (Leaf a0) 0 l1 = Ok (T, l2)).
  { replace m with (n1 + (3 + k)) by (unfold m; lia).
    exact (extends_Ok _ _ _ _ (resolveOperatorBindings_fuel _ _ _ _) Hr). }
  replace (4 + n1 + k) with (S m) by (unfold m; lia).
  rewrite Eqns.expression_S. unfold m at 1. cbn [Nat.add].
  rewrite Eqns.handleInvocation_S. unfold bind.
  rewrite Hdis', Hr', Hp3.
  pose proof (not_paren_chain [] rest Hrest) as Hnp.
  unfold not_paren in Hnp. cbn [chain_tokens flat_map app] in Hnp.
  apply negb_true_iff in Hnp. now rewrite Hnp.
Qed.

(** *** The resolver over operands of any kind *)

Lemma binding_power_positive (op : string) (p : nat) :
  binding_power op = Some p -> 1 <= p.
Proof.
  unfold binding_power.
  repeat match goal with
         | |- context [if ?b then _ else _] => destruct b
         end; intros [= <-]; lia.
Qed.

Lemma follows_peek (p n : nat) (l : Luthor) (c : operands) (t : option token)
    (lend : Luthor) :
  follows p n l c t lend ->
  exists l1, Luthor.peek l = Ok (match c with
                                  | [] => t
                                  | (op, _) :: _ => Some (Tokens.operator op)
                                  end, l1)
             /\ follows p n l1 c t lend
             /\ (c = [] -> l1 = lend).
Proof.
  intros [l0 l' t0 Hp Ht|l0 l1 l2 l' op q d c0 t0 Hp Hop Hd Hc].
  - exists l'. split; [exact Hp|]. split; [|reflexivity].
    apply follows_end; [exact (peek_peek _ _ _ Hp)|exact Ht].
  - exists l1. split; [exact Hp|]. split; [|discriminate].
    eapply follows_operand; [exact (peek_peek _ _ _ Hp)|exact Hop|exact Hd|exact Hc].
Qed.

Lemma halts_mono (p q : nat) (t : option token) :
  p <= q -> halts p t = true -> halts q t = true.
Proof.
  intros Hpq. destruct t as [[ty [op|x]]|]; cbn [halts]; try reflexivity.
  destruct (String.eqb "op" ty); [|reflexivity]. cbn [andb].
  destruct (binding_power op) as [r|]; [|reflexivity].
  destruct (Nat.ltb_spec p r); [discriminate|]. intros _.
  destruct (Nat.ltb_spec q r); [lia|reflexivity].
Qed.

Lemma halts_operator (p q : nat) (op : string) :
  binding_power op = Some q ->
  halts p (Some (Tokens.operator op)) = negb (p <? q).
Proof. intros H. cbn. now rewrite H. Qed.

Lemma resolve_stops (n : nat) (leftNode : node) (p : nat) (t : option token)
    (l l' : Luthor) :
  Luthor.peek l = Ok (t, l') -> halts p t = true ->
  Parsicle.resolveOperatorBindings (S n) leftNode p l = Ok (leftNode, l').
Proof.
  intros Hp Ht. rewrite Eqns.resolveOperatorBindings_S. unfold bind.
  rewrite Hp.
  destruct t as [[ty [op|x]]|]; cbn [halts] in Ht; unfold Types.isOp,
    Types.checkTypeAndValue; cbn [type tvalue]; rewrite ?andb_true_r.
  - destruct (String.eqb "op" ty); [|reflexivity]. cbn [andb] in Ht.
    rewrite PRECEDENCE_binding_power.
    destruct (binding_power op); [|reflexivity].
    apply negb_true_iff in Ht. now rewrite Ht.
  - now destruct (String.eqb "op" ty).
  - reflexivity.
Qed.

(** The code's resolver does what the specification's resolver does, whatever
    the operands are. *)
Lemma resolve_follows (left : shape) (p : nat) (c : operands) (S0 : shape)
    (c' : operands) :
  Resolve left p c S0 c' ->
  forall (p0 n : nat) (l lend : Luthor) (t : option token),
    p0 <= p ->
    follows p0 n l c t lend ->
    exists m l',
      (forall k, Parsicle.resolveOperatorBindings (m + k) (build left) p l
                 = Ok (build S0, l'))
      /\ follows p0 n l' c' t lend
      /\ (c' = [] -> l' = lend).
Proof.
  induction 1 as [left p|left p op d c Hop|left p bp op d c Hop Hle
                 |left right result p bp op d c c1 c2 Hop Hlt _ IH1 _ IH2];
    intros p0 n l lend t Hp0 Hf.
  - destruct (follows_peek _ _ _ _ _ _ Hf) as (l1 & Hp1 & Hf1 & Hl1).
    exists 1, l1. split; [|split; [exact Hf1|exact Hl1]]. intros k.
    inversion Hf as [l0 l0' t0 Hp Ht|]; subst.
    cbn [Nat.add]. apply (resolve_stops k _ _ t); [exact Hp1|].
    exact (halts_mono _ _ _ Hp0 Ht).
  - inversion Hf; subst; congruence.
  - destruct (follows_peek _ _ _ _ _ _ Hf) as (l1 & Hp1 & Hf1 & Hl1).
    exists 1, l1. split; [|split; [exact Hf1|exact Hl1]]. intros k.
    cbn [Nat.add]. apply (resolve_stops k _ _ _ _ _ Hp1).
    rewrite (halts_operator _ _ _ Hop). apply negb_true_iff.
    now apply Nat.ltb_ge.
  - inversion Hf as [|l0 l1 l2 l0' op0 q0 d0 c0 t0 Hp _ Hd Hc]; subst.
    destruct (IH1 p0 n l2 lend t ltac:(lia) Hc) as (m1 & l3 & Hr1 & Hf3 & _).
    destruct (IH2 p0 n l3 lend t Hp0 Hf3) as (m2 & l4 & Hr2 & Hf4 & Hl4).
    exists (S (n + m1 + m2)), l4. split; [|split; [exact Hf4|exact Hl4]].
    intros k. cbn [Nat.add].
    rewrite Eqns.resolveOperatorBindings_S. unfold bind. rewrite Hp.
    change (Types.isOp (Some (Tokens.operator op)) None) with true.
    cbn [Tokens.operator tvalue]. rewrite PRECEDENCE_binding_power, Hop.
    apply Nat.ltb_lt in Hlt. rewrite Hlt.
    rewrite (peek_then_next _ _ _ (peek_peek _ _ _ Hp)).
    replace (n + m1 + m2 + k) with (n + (m1 + m2 + k)) at 1 by lia.
    rewrite (extends_Ok _ _ _ _ (discrete_fuel n (m1 + m2 + k)) Hd).
    replace (n + m1 + m2 + k) with (m1 + (n + m2 + k)) at 1 by lia.
    cbn [build] in Hr1. rewrite Hr1.
    replace (n + m1 + m2 + k) with (m2 + (n + m1 + k)) by lia.
    cbn [build] in Hr2. exact (Hr2 _).
Qed.

Lemma follows_recognized (p n : nat) (l : Luthor) (c : operands)
    (t : option token) (lend : Luthor) :
  follows p n l c t lend -> recognized c = true.
Proof.
  induction 1 as [|l l1 l2 l' op q d c t _ Hop _ _ IH]; [reflexivity|].
  cbn [recognized forallb]. rewrite Hop. exact IH.
Qed.

(** The resolver of the specification ends on every chain of recognized
    operators, with nothing left at binding power [0]. *)
Lemma resolve_total (m : nat) :
  forall (c : operands) (left : shape) (p : nat),
    length c <= m -> recognized c = true ->
    exists S0 c',
      Resolve left p c S0 c'
      /\ length c' <= length c /\ recognized c' = true
      /\ match next_power c' with Some q => q <= p | None => True end.
Proof.
  induction m as [|m IH]; intros c left p Hm Hwf.
  - destruct c; [|cbn in Hm; lia].
    exists left, []. repeat split; auto. constructor.
  - destruct c as [|[op d] c].
    { exists left, []. repeat split; auto. constructor. }
    cbn [recognized forallb] in Hwf. fold (recognized c) in Hwf.
    destruct (binding_power op) as [bp|] eqn:Ebp; [|discriminate].
    cbn [andb] in Hwf. cbn [length] in Hm.
    destruct (Nat.ltb_spec p bp) as [Hlt|Hge].
    + destruct (IH c (Operand d) bp ltac:(lia) Hwf)
        as (R & c1 & HR & Hl1 & Hwf1 & _).
      destruct (IH c1 (Operation op left R) p ltac:(lia) Hwf1)
        as (T & c2 & HT & Hl2 & Hwf2 & Hs2).
      exists T, c2. repeat split; auto.
      * eapply Resolve_step; eauto.
      * cbn [length]. lia.
    + exists left, ((op, d) :: c). repeat split; auto.
      * eapply Resolve_low; eauto.
      * cbn [recognized forallb]. now rewrite Ebp.
      * cbn [next_power]. now rewrite Ebp.
Qed.

Lemma resolve_all (c : operands) (left : shape) :
  recognized c = true -> exists S0, Resolve left 0 c S0 [].
Proof.
  intros Hwf.
  destruct (resolve_total (length c) c left 0 (le_n _) Hwf)
    as (T & c' & HT & _ & Hwf' & Hs).
  exists T. destruct c' as [|[op d] c']; [exact HT|].
  cbn [next_power] in Hs. cbn [recognized forallb] in Hwf'.
  destruct (binding_power op) as [bp|] eqn:E; [|discriminate].
  pose proof (binding_power_positive _ _ E). lia.
Qed.

Lemma Resolve_deterministic (left : shape) (p : nat) (c : operands)
    (S1 : shape) (c1 : operands) :
  Resolve left p c S1 c1 ->
  forall (S2 : shape) (c2 : operands),
    Resolve left p c S2 c2 -> S1 = S2 /\ c1 = c2.
Proof.
  induction 1 as [|left p op d c Hop|left p bp op d c Hop Hle
                 |left right result p bp op d c c1 c2 Hop Hlt H1 IH1 _ IH2];
    intros S2 c2' H2; inversion H2; subst; auto; try congruence;
    try (assert (bp = bp0) by congruence; subst; lia).
  assert (bp = bp0) by congruence. subst bp0.
  match goal with
  | H : Resolve (Operand d) bp c _ _ |- _ =>
      destruct (IH1 _ _ H) as [<- <-]
  end.
  now apply IH2.
Qed.

Lemma resolve_frontier (left : shape) (p : nat) (c : operands) (S0 : shape)
    (c' : operands) :
  Resolve left p c S0 c' ->
  (frontier S0 ++ items c' = frontier left ++ items c)%list.
Proof.
  induction 1 as [| | |left right result p bp op d c c1 c2 _ _ _ IH1 _ IH2];
    try reflexivity.
  rewrite IH2. cbn [frontier items flat_map].
  rewrite <- app_assoc. cbn [app]. fold (items c1) (items c).
  cbn [frontier app] in IH1. rewrite IH1. reflexivity.
Qed.

(** What is left after resolving at power [p] binds no tighter than [p];
    and the result is the left operand as it was, or is headed by an
    operator above [p]. *)
Lemma resolve_settled (left : shape) (p : nat) (c : operands) (S0 : shape)
    (c' : operands) :
  Resolve left p c S0 c' ->
  match next_power c' with Some q => q <= p | None => True end
  /\ (S0 = left \/ tighter p S0).
Proof.
  induction 1 as [|left p op d c Hop|left p bp op d c Hop Hle
                 |left right result p bp op d c c1 c2 Hop Hlt _ _ _ IH2].
  - cbn. auto.
  - cbn [next_power]. rewrite Hop. auto.
  - cbn [next_power]. rewrite Hop. auto.
  - destruct IH2 as [Hs [->|Hab]]; (split; [exact Hs|right]); [|exact Hab].
    unfold tighter. cbn [power]. now rewrite Hop.
Qed.

Lemma resolve_nested (left : shape) (p : nat) (c : operands) (S0 : shape)
    (c' : operands) :
  Resolve left p c S0 c' ->
  nested left ->
  match next_power c with Some q => as_tight q left | None => True end ->
  nested S0.
Proof.
  induction 1 as [| | |left right result p bp op d c c1 c2 Hop Hlt H1 IH1 _ IH2];
    intros Hwn Hfit; try exact Hwn.
  cbn [next_power] in Hfit. rewrite Hop in Hfit.
  destruct (resolve_settled _ _ _ _ _ H1) as [Hs1 Hab1].
  assert (Hright : nested right).
  { apply IH1; [exact I|]. destruct (next_power c); exact I. }
  apply IH2.
  - cbn [nested]. split; [|split; assumption].
    exists bp. split; [exact Hop|]. split; [exact Hfit|].
    destruct Hab1 as [->|Hab1]; [exact I|exact Hab1].
  - unfold as_tight. cbn [power]. rewrite Hop.
    destruct (next_power c1); [exact Hs1|exact I].
Qed.

(** *** One tree only is nested by binding power *)

Lemma split_position {A : Type} (l1 : list A) :
  forall (r1 l2 r2 : list A) (x y : A),
    (l1 ++ x :: r1 = l2 ++ y :: r2)%list ->
    (In x l2 /\ In y r1)
    \/ (l1 = l2 /\ x = y /\ r1 = r2)
    \/ (In y l1 /\ In x r2).
Proof.
  induction l1 as [|a l1 IH]; intros r1 l2 r2 x y E.
  - destruct l2 as [|b l2]; cbn [app] in E; injection E as -> ->.
    + right. left. auto.
    + left. split; [now left|apply in_elt].
  - destruct l2 as [|b l2]; cbn [app] in E; injection E as -> E.
    + right. right. subst r2. split; [now left|apply in_elt].
    + destruct (IH _ _ _ _ _ E) as [[H1 H2]|[(-> & -> & ->)|[H1 H2]]].
      * left. split; [now right|exact H2].
      * right. left. auto.
      * right. right. split; [now right|exact H2].
Qed.

(** A nested shape is a heap: below an operator of power [p] every operator
    has power [p] at least. *)
Lemma nested_heap (s : shape) :
  nested s -> forall p, as_tight p s -> operators_above p (frontier s).
Proof.
  induction s as [d|op l IHl r IHr]; intros Hw p Hat.
  - intros op [E|[]]. discriminate E.
  - cbn [nested] in Hw. destruct Hw as ((q & Hq & Hl & Hr) & Hwl & Hwr).
    unfold as_tight in Hat. cbn [power] in Hat. rewrite Hq in Hat.
    cbn [frontier]. intros op' Hin. apply in_app_or in Hin.
    destruct Hin as [Hin|[E|Hin]].
    + destruct (IHl Hwl q Hl op' Hin) as (x & Hx & Hle).
      exists x. split; [exact Hx|lia].
    + injection E as <-. exists q. split; [exact Hq|exact Hat].
    + assert (Hr' : as_tight (S q) r).
      { unfold tighter in Hr. unfold as_tight. destruct (power r); [lia|exact I]. }
      destruct (IHr Hwr (S q) Hr' op' Hin) as (x & Hx & Hle).
      exists x. split; [exact Hx|lia].
Qed.

Lemma nested_left (op : string) (l r : shape) (p : nat) (op' : string) :
  nested (Operation op l r) -> binding_power op = Some p ->
  In (Opr op') (frontier l) ->
  exists q, binding_power op' = Some q /\ p <= q.
Proof.
  cbn [nested]. intros ((q & Hq & Hl & _) & Hwl & _) Hp Hin.
  assert (q = p) by congruence. subst q.
  exact (nested_heap l Hwl p Hl op' Hin).
Qed.

Lemma nested_right (op : string) (l r : shape) (p : nat) (op' : string) :
  nested (Operation op l r) -> binding_power op = Some p ->
  In (Opr op') (frontier r) ->
  exists q, binding_power op' = Some q /\ p < q.
Proof.
  cbn [nested]. intros ((q & Hq & _ & Hr) & _ & Hwr) Hp Hin.
  assert (q = p) by congruence. subst q.
  assert (Hr' : as_tight (S p) r).
  { unfold tighter in Hr. unfold as_tight. destruct (power r); [lia|exact I]. }
  destruct (nested_heap r Hwr (S p) Hr' op' Hin) as (x & Hx & Hle).
  exists x. split; [exact Hx|lia].
Qed.

(** The operands and operators of an expression, in their order, have one
    shape that is nested by binding power. *)
Lemma nested_unique (S1 : shape) :
  nested S1 -> forall S2, nested S2 -> frontier S1 = frontier S2 -> S1 = S2.
Proof.
  induction S1 as [d1|op1 l1 IHl r1 IHr]; intros Hw1 S2 Hw2 E.
  - destruct S2 as [d2|op2 l2 r2]; cbn [frontier] in E.
    + now injection E as ->.
    + exfalso. destruct l2 as [d|op l r]; cbn [frontier app] in E.
      * discriminate E.
      * destruct (frontier l) as [|x fl]; cbn [app] in E;
          [discriminate E|]. injection E as _ E. now destruct fl.
  - destruct S2 as [d2|op2 l2 r2]; cbn [frontier] in E.
    + exfalso. destruct l1 as [d|op l r]; cbn [frontier app] in E.
      * discriminate E.
      * destruct (frontier l) as [|x fl]; cbn [app] in E;
          [discriminate E|]. injection E as _ E. now destruct fl.
    + pose proof Hw1 as Hw1'. pose proof Hw2 as Hw2'.
      cbn [nested] in Hw1', Hw2'.
      destruct Hw1' as ((p1 & Hq1 & _ & _) & Hwl1 & Hwr1).
      destruct Hw2' as ((p2 & Hq2 & _ & _) & Hwl2 & Hwr2).
      destruct (split_position _ _ _ _ _ _ E) as [[H1 H2]|[(El & Eo & Er)|[H1 H2]]].
      * exfalso.
        destruct (nested_left _ _ _ _ _ Hw2 Hq2 H1) as (q & Hq & Hle).
        destruct (nested_right _ _ _ _ _ Hw1 Hq1 H2) as (q' & Hq' & Hlt).
        assert (q = p1) by congruence. assert (q' = p2) by congruence. lia.
      * injection Eo as ->.
        now rewrite (IHl Hwl1 l2 Hwl2 El), (IHr Hwr1 r2 Hwr2 Er).
      * exfalso.
        destruct (nested_left _ _ _ _ _ Hw1 Hq1 H1) as (q & Hq & Hle).
        destruct (nested_right _ _ _ _ _ Hw2 Hq2 H2) as (q' & Hq' & Hlt).
        assert (q = p2) by congruence. assert (q' = p1) by congruence. lia.
Qed.

(** *** Every run of the resolver is a run of the specification's *)

Lemma follows_fuel (p n k : nat) (l : Luthor) (c : operands)
    (t : option token) (lend : Luthor) :
  follows p n l c t lend -> follows p (n + k) l c t lend.
Proof.
  induction 1 as [l l' t Hp Ht|l l1 l2 l' op q d c t Hp Hop Hd _ IH].
  - now apply follows_end.
  - eapply follows_operand; [exact Hp|exact Hop| |exact IH].
    exact (extends_Ok _ _ _ _ (discrete_fuel n k) Hd).
Qed.

Lemma follows_last (p n : nat) (l : Luthor) (c : operands)
    (t : option token) (lend : Luthor) :
  follows p n l c t lend ->
  Luthor.peek lend = Ok (t, lend) /\ halts p t = true.
Proof.
  induction 1 as [l l' t Hp Ht|l l1 l2 l' op q d c t _ _ _ _ IH];
    [|exact IH].
  split; [exact (peek_peek _ _ _ Hp)|exact Ht].
Qed.

Lemma follows_app (p q n : nat) (l l1 l2 : Luthor) (c1 c2 : operands)
    (t1 t : option token) :
  follows q n l c1 t1 l1 -> follows p n l1 c2 t l2 ->
  follows p n l (c1 ++ c2)%list t l2.
Proof.
  induction 1 as [l l1 t1 Hp Ht|l la lb l1 op r d c t1 Hp Hop Hd _ IH];
    intros H2.
  - cbn [app]. pose proof (peek_peek _ _ _ Hp) as Hpp.
    inversion H2 as [l0 l0' t0 Hp2 Ht2|l0 la lb l0' op r d c t0 Hp2 Hop Hd Hc];
      subst; rewrite Hpp in Hp2; injection Hp2 as -> ->.
    + now apply follows_end.
    + eapply follows_operand; [exact Hp|exact Hop|exact Hd|exact Hc].
  - cbn [app]. eapply follows_operand; [exact Hp|exact Hop|exact Hd|].
    now apply IH.
Qed.

Lemma Resolve_app (left : shape) (p : nat) (c : operands) (S0 : shape)
    (c' : operands) :
  Resolve left p c S0 c' ->
  forall c2 : operands,
    (c' = [] -> match next_power c2 with Some x => x <= p | None => True end) ->
    Resolve left p (c ++ c2)%list S0 (c' ++ c2)%list.
Proof.
  induction 1 as [left p|left p op d c Hop|left p bp op d c Hop Hle
                 |left right result p bp op d c c1 c2' Hop Hlt _ IH1 H2 IH2];
    intros c2 Hc2; cbn [app].
  - specialize (Hc2 eq_refl). destruct c2 as [|[op d] c2]; [constructor|].
    cbn [next_power] in Hc2.
    destruct (binding_power op) as [x|] eqn:E.
    + now apply (Resolve_low _ _ x).
    + now apply Resolve_unknown.
  - now apply Resolve_unknown.
  - now apply (Resolve_low _ _ bp).
  - eapply Resolve_step; [exact Hop|exact Hlt|apply IH1|apply IH2; exact Hc2].
    intros ->. inversion H2; subst. specialize (Hc2 eq_refl).
    destruct (next_power c2); [lia|exact I].
Qed.

(** Whatever [resolveOperatorBindings] returns, at any binding power, it read
    a chain of recognized operators and operands and returns what the
    resolver of the specification builds over it. *)
Lemma resolve_sound (n : nat) :
  forall (left : shape) (p : nat) (l l' : Luthor) (T : node),
    Parsicle.resolveOperatorBindings n (build left) p l = Ok (T, l') ->
    exists (c : operands) (t : option token) (S0 : shape),
      follows p n l c t l' /\ Resolve left p c S0 [] /\ T = build S0.
Proof.
  induction n as [|n IH]; intros left p l l' T H; [discriminate|].
  destruct (Luthor.peek l) as [[tok l1]| |] eqn:Hp;
    try (rewrite Eqns.resolveOperatorBindings_S in H; unfold bind in H;
         rewrite Hp in H; discriminate).
  destruct (halts p tok) eqn:Hh.
  - rewrite (resolve_stops n _ p tok l l1 Hp Hh) in H. injection H as <- <-.
    exists [], tok, left. split; [now apply follows_end|].
    split; [constructor|reflexivity].
  - destruct tok as [[ty [op|x]]|]; try discriminate Hh.
    cbn [halts] in Hh. apply negb_false_iff, andb_true_iff in Hh.
    destruct Hh as [Hty Hq]. apply String.eqb_eq in Hty. subst ty.
    destruct (binding_power op) as [q|] eqn:Hop; [|discriminate].
    rewrite Eqns.resolveOperatorBindings_S in H. unfold bind in H.
    rewrite Hp in H.
    change (Types.isOp (Some {| type := "op"; tvalue := VString op |}) None)
      with true in H.
    cbn [tvalue] in H. rewrite PRECEDENCE_binding_power, Hop, Hq in H.
    rewrite (peek_then_next _ _ _ (peek_peek _ _ _ Hp)) in H.
    destruct (Parsicle.discrete n (mkLuthor (stream l1) None))
      as [[d l2]| |] eqn:Hd; try discriminate.
    destruct (Parsicle.resolveOperatorBindings n d q l2)
      as [[R l3]| |] eqn:Hr; try discriminate.
    destruct (IH (Operand d) q l2 l3 R Hr) as (c1 & t1 & S1 & Hf1 & HS1 & ->).
    destruct (IH (Operation op left S1) p l3 l' T H)
      as (c2 & t & S0 & Hf2 & HS2 & ->).
    exists ((op, d) :: c1 ++ c2)%list, t, S0.
    split; [|split; [|reflexivity]].
    + replace (S n) with (n + 1) by lia.
      eapply follows_operand;
        [exact Hp|exact Hop
        |exact (extends_Ok _ _ _ _ (discrete_fuel n 1) Hd)|].
      apply follows_fuel. exact (follows_app _ _ _ _ _ _ _ _ _ _ Hf1 Hf2).
    + apply Nat.ltb_lt in Hq.
      eapply Resolve_step; [exact Hop|exact Hq| |exact HS2].
      rewrite <- (app_nil_l c2) at 2. apply (Resolve_app _ _ _ _ _ HS1).
      intros _. destruct (follows_last _ _ _ _ _ _ Hf1) as [Hl3 Hh1].
      destruct c2 as [|[op2 d2] c2]; [exact I|]. cbn [next_power].
      inversion Hf2 as [|l0 la lb l0' op0 r d0 c0 t0 Hp2 Hop2 _ _]; subst.
      rewrite Hl3 in Hp2. injection Hp2 as ->.
      rewrite Hop2. rewrite (halts_operator _ _ _ Hop2) in Hh1.
      apply negb_true_iff, Nat.ltb_ge in Hh1. exact Hh1.
Qed.

(** On a chain whose operands are atoms, [Climb] is this resolver. *)
Lemma Climb_Resolve (leftNode : node) (p : nat) (c : chain) (T : node)
    (c' : chain) :
  Climb leftNode p c T c' ->
  forall left, build left = leftNode ->
    exists S0, Resolve left p (leaves c) S0 (leaves c') /\ build S0 = T.
Proof.
  induction 1 as [leftNode p|leftNode p op a c Hop|leftNode p bp op a c Hop Hle
                 |leftNode right result p bp op a c c1 c2 Hop Hlt _ _ IH1 _ IH2];
    intros left E.
  - exists left. split; [constructor|exact E].
  - exists left. split; [now apply Resolve_unknown|exact E].
  - exists left. split; [now apply (Resolve_low _ _ bp)|exact E].
  - destruct (IH1 (Operand (Leaf a)) eq_refl) as (R & HR & ER).
    destruct (IH2 (Operation op left R)) as (S0 & HS & ES).
    { cbn [build]. now rewrite E, ER. }
    exists S0. split; [|exact ES].
    cbn [leaves map]. eapply Resolve_step; eauto.
Qed.

(** From the resolver to [expression] and to [parse]. *)
Lemma expression_resolves (n : nat) (l l1 lend : Luthor) (d0 : node)
    (c : operands) (t : option token) (S0 : shape) :
  Parsicle.discrete n l = Ok (d0, l1) ->
  follows 0 n l1 c t lend ->
  Resolve (Operand d0) 0 c S0 [] ->
  exists N,
    (forall k, Parsicle.resolveOperatorBindings (N + k) d0 0 l1
               = Ok (build S0, lend))
    /\ (Types.isPunc t (Some "(") = false ->
        forall k, Parsicle.expression (N + k) l = Ok (build S0, lend))
    /\ (t = None -> forall k, Parsicle.parse (N + k) l = Ok ([build S0], lend)).
Proof.
  intros Hd Hf HS.
  destruct (resolve_follows _ _ _ _ _ HS 0 n l1 lend t (le_n _) Hf)
    as (m & l' & Hr & Hf' & Hl').
  specialize (Hl' eq_refl). subst l'. cbn [build] in Hr.
  assert (Hp : Luthor.peek lend = Ok (t, lend)).
  { inversion Hf' as [l0 l0' t0 Hp _|]; subst. exact Hp. }
  assert (He : Types.isPunc t (Some "(") = false ->
               forall k, Parsicle.expression (2 + n + m + k) l
                         = Ok (build S0, lend)).
  { intros Ht k. change (2 + n + m + k) with (S (S (n + m + k))).
    rewrite Eqns.expression_S, Eqns.handleInvocation_S. unfold bind.
    replace (S (n + m + k)) with (n + (S (m + k))) at 1 by lia.
    rewrite (extends_Ok _ _ _ _ (discrete_fuel n (S (m + k))) Hd).
    replace (S (n + m + k)) with (m + (S (n + k))) by lia.
    rewrite Hr, Hp, Ht. reflexivity. }
  exists (2 + n + m). split; [|split; [exact He|]].
  - intros k. replace (2 + n + m + k) with (m + (2 + n + k)) by lia. apply Hr.
  - intros -> k. unfold Parsicle.parse, bind. rewrite (He eq_refl).
    change (2 + n + m + k) with (S (S (n + m + k))).
    rewrite Eqns.parse_loop_S. unfold bind, Luthor.eof. rewrite Hp. reflexivity.
Qed.

(** C6. Take any expression of the input: a first operand that [discrete]
    reads, of whatever kind (a leaf, a call, a signed value, an expression
    in parentheses, a block, a rule), followed by recognized binary
    operators, each with the operand that [discrete] reads after it, up to a
    token at which the resolver stops. With enough fuel
    [resolveOperatorBindings] returns, and so does [expression] unless an
    argument list follows, and what they return is the tree that the
    resolver of the specification builds over these operands: the operands
    and operators stand in it in their order, and it is nested by binding
    power: under each operator the right operand is an operand of the
    expression or is headed by a strictly tighter operator, and the left
    operand is one or is headed by an operator at least as tight. No other
    arrangement of these operands and operators is nested so. Where the
    expression is the whole document, [parse] returns this one tree.
    Conversely every result of [resolveOperatorBindings], from any state, at
    any binding power and with any fuel, is such a tree over the operands
    that [discrete] read.
    The node of an operator is of type assign for [=] and binaryExpression
    otherwise, and the table [PRECEDENCE] holds the binding powers of the
    specification for every operator. In particular [1 + 2 * 3] gives
    [+ (1, * (2, 3))], [a = b + 1] gives [assign (a, + (b, 1))],
    [(1 + 2) * 3] gives [* (+ (1, 2), 3)] and [a * f(1) + c] gives
    [+ ( * (a, f(1)), c)]. *)
Theorem operator_precedence (n : nat) (l l1 lend : Luthor) (d0 : node)
    (c : operands) (t : option token)
    (Hd0 : Parsicle.discrete n l = Ok (d0, l1))
    (Hc : follows 0 n l1 c t lend) :
  (exists (S0 : shape) (N : nat),
      (forall k, Parsicle.resolveOperatorBindings (N + k) d0 0 l1
                 = Ok (build S0, lend))
      /\ (Types.isPunc t (Some "(") = false ->
          forall k, Parsicle.expression (N + k) l = Ok (build S0, lend))
      /\ (t = None -> forall k, Parsicle.parse (N + k) l = Ok ([build S0], lend))
      /\ Resolve (Operand d0) 0 c S0 []
      /\ frontier S0 = Opd d0 :: items c
      /\ nested S0
      /\ (forall S', nested S' -> frontier S' = Opd d0 :: items c -> S' = S0))
  /\ (forall (m : nat) (d : node) (p : nat) (s s' : Luthor) (T : node),
        Parsicle.resolveOperatorBindings m d p s = Ok (T, s') ->
        exists (c' : operands) (t' : option token) (S' : shape),
          follows p m s c' t' s'
          /\ Resolve (Operand d) p c' S' []
          /\ T = build S'
          /\ frontier S' = Opd d :: items c'
          /\ nested S')
  /\ (forall op left right,
        node_type (Nodes.binaryExpression op left right)
        = Some (if String.eqb op "=" then "assign" else "binaryExpression"))
  /\ (forall op, lookup PRECEDENCE op = binding_power op)
  /\ (forall k,
        parse_string (5 + k) "1 + 2 * 3"
        = Ok [Binary "binaryExpression" "+" (num 1)
                (Binary "binaryExpression" "*" (num 2) (num 3))])
  /\ (forall k,
        parse_string (5 + k) "a = b + 1"
        = Ok [Binary "assign" "=" (ident "a")
                (Binary "binaryExpression" "+" (ident "b") (num 1))])
  /\ (forall k,
        parse_string (9 + k) "(1 + 2) * 3"
        = Ok [Binary "binaryExpression" "*"
                (Binary "binaryExpression" "+" (num 1) (num 2)) (num 3)])
  /\ (forall k,
        parse_string (9 + k) "a * f(1) + c"
        = Ok [Binary "binaryExpression" "+"
                (Binary "binaryExpression" "*" (ident "a")
                   (Call (ident "f") [num 1]))
                (ident "c")]).
Proof.
  assert (Hshape : forall (d : node) (p : nat) (c0 : operands) (S0 : shape),
             Resolve (Operand d) p c0 S0 [] ->
             frontier S0 = Opd d :: items c0 /\ nested S0).
  { intros d p c0 S0 HS. split.
    - pose proof (resolve_frontier _ _ _ _ _ HS) as Hf.
      cbn [items flat_map frontier app] in Hf. fold (items c0) in Hf.
      now rewrite app_nil_r in Hf.
    - apply (resolve_nested _ _ _ _ _ HS); [exact I|].
      destruct (next_power c0); exact I. }
  split; [|split].
  - destruct (resolve_all c (Operand d0) (follows_recognized _ _ _ _ _ _ Hc))
      as [S0 HS].
    destruct (expression_resolves n l l1 lend d0 c t S0 Hd0 Hc HS)
      as (N & Hr & He & Hp).
    destruct (Hshape _ _ _ _ HS) as [Hf Hn].
    exists S0, N. split; [exact Hr|]. split; [exact He|].
    split; [exact Hp|]. split; [exact HS|].
    split; [exact Hf|]. split; [exact Hn|].
    intros S' Hn' Hf'. apply (nested_unique S' Hn' S0 Hn). congruence.
  - intros m d p s s' T H.
    destruct (resolve_sound m (Operand d) p s s' T H)
      as (c' & t' & S' & Hf & HS & HT).
    destruct (Hshape _ _ _ _ HS) as [Hfr Hn].
    exists c', t', S'. repeat (split; [assumption|]). exact Hn.
  - split; [exact binaryExpression_type|].
    split; [exact PRECEDENCE_binding_power|].
    repeat split; by_fuel.
Qed.

Lemma follows_example :
  let l1 := mkLuthor (mkCharStream "a * f(1) + c" 3 1 3)
                     (Some (Tokens.operator "*")) in
  let lend := mkLuthor (mkCharStream "a * f(1) + c" 12 1 12) None in
  Parsicle.discrete 7 (lexer "a * f(1) + c") = Ok (ident "a", l1)
  /\ follows 0 7 l1 [("*", Call (ident "f") [num 1]); ("+", ident "c")] None lend.
Proof.
  intros l1 lend. split; [vm_compute; reflexivity|].
  eapply follows_operand;
    [vm_compute; reflexivity|reflexivity|vm_compute; reflexivity|].
  eapply follows_operand;
    [vm_compute; reflexivity|reflexivity|vm_compute; reflexivity|].
  apply follows_end; [vm_compute; reflexivity|reflexivity].
Qed.

Lemma operator_precedence_witness :
  let l := lexer "a * f(1) + c" in
  let l1 := mkLuthor (mkCharStream "a * f(1) + c" 3 1 3)
                     (Some (Tokens.operator "*")) in
  let lend := mkLuthor (mkCharStream "a * f(1) + c" 12 1 12) None in
  let c := [("*", Call (ident "f") [num 1]); ("+", ident "c")] in
  let T := Binary "binaryExpression" "+"
             (Binary "binaryExpression" "*" (ident "a")
                (Call (ident "f") [num 1]))
             (ident "c") in
  Parsicle.discrete 7 l = Ok (ident "a", l1)
  /\ follows 0 7 l1 c None lend
  /\ exists N : nat,
       (forall k, Parsicle.resolveOperatorBindings (N + k) (ident "a") 0 l1
                  = Ok (T, lend))
       /\ (forall k, Parsicle.expression (N + k) l = Ok (T, lend))
       /\ (forall k, Parsicle.parse (N + k) l = Ok ([T], lend)).
Proof.
  intros l l1 lend c T.
  destruct follows_example as [Hd Hf].
  split; [exact Hd|]. split; [exact Hf|].
  destruct (proj1 (operator_precedence 7 l l1 lend (ident "a") c None Hd Hf))
    as (S0 & N & Hr & He & Hp & _ & _ & _ & Hu).
  assert (E : Operation "+"
                (Operation "*" (Operand (ident "a"))
                   (Operand (Call (ident "f") [num 1])))
                (Operand (ident "c")) = S0).
  { apply Hu; [|reflexivity]. cbn [nested].
    split; [|split; [|exact I]].
    - exists 20. split; [reflexivity|]. split; [|exact I].
      unfold as_tight. cbn. lia.
    - split; [|split; exact I]. exists 25. split; [reflexivity|].
      split; exact I. }
  subst S0. exists N.
  split; [exact Hr|]. split; [exact (He eq_refl)|exact (Hp eq_refl)].
Defined.

(* ------------------------------------------------------------------------- *)
(** ** Documents with no token *)

(** Skipping whitespace in a blank text stops at its end or on a [#]. *)
Lemma skip_whitespace_blank (k : nat) :
  forall (str : string) (s : CharStream),
    blank_from false (rest s) = true ->
    let s1 := snd (Values.readWhile_loop k
                     (fun (_ : unit) c => (Matchers.isWhiteSpace c, tt)) tt str s) in
    blank_from false (rest s1) = true
    /\ (CharStream.remaining s <= k ->
        CharStream.peek s1 = None \/ CharStream.peek s1 = Some "#"%char).
Proof.
  induction k as [|k IH]; intros str s Hb; step.
  - split; [exact Hb|]. intros Hk. left. apply peek_None_remaining. lia.
  - destruct (CharStream.peek s) as [c|] eqn:Hp; [|now auto].
    rewrite (rest_peek _ _ Hp) in Hb. cbn [blank_from] in Hb.
    destruct (Matchers.isWhiteSpace c) eqn:Hw; step.
    + destruct (IH (str ++ str1 c) _ Hb) as [H1 H2].
      split; [exact H1|]. intros Hk. apply H2. rewrite remaining_next. lia.
    + split; [rewrite (rest_peek _ _ Hp); cbn [blank_from]; now rewrite Hw|].
      intros _. right. rewrite Hp.
      destruct (Matchers.isComment c) eqn:Hc; [|discriminate].
      unfold Matchers.isComment in Hc. apply Ascii.eqb_eq in Hc. now subst c.
Qed.

(** Skipping the rest of a line inside a comment of a blank text leaves a
    blank text. *)
Lemma skip_comment_blank (k : nat) :
  forall (str : string) (s : CharStream),
    blank_from true (rest s) = true ->
    CharStream.remaining s <= k ->
    let s2 := snd (Values.readWhile_loop k
                     (fun (_ : unit) c => (Matchers.isNotEOL c, tt)) tt str s) in
    blank_from false (rest (snd (CharStream.next s2))) = true.
Proof.
  induction k as [|k IH]; intros str s Hb Hk; step.
  - rewrite rest_next, rest_peek_None; [reflexivity|].
    apply peek_None_remaining. lia.
  - destruct (CharStream.peek s) as [c|] eqn:Hp.
    + rewrite (rest_peek _ _ Hp) in Hb. cbn [blank_from] in Hb.
      destruct (Matchers.isNotEOL c) eqn:Hn; step.
      * apply IH; [exact Hb|]. rewrite remaining_next. lia.
      * exact Hb.
    + step. rewrite rest_next, rest_peek_None; [reflexivity|exact Hp].
Qed.

Lemma readNextToken_loop_blank (k : nat) :
  forall s : CharStream,
    CharStream.remaining s <= k ->
    blank_from false (rest s) = true ->
    exists s', Luthor.readNextToken_loop k s = Ok (None, s').
Proof.
  induction k as [|k IH]; intros s Hk Hb.
  - exists s. apply readNextToken_loop_eof, eof_remaining. lia.
  - step.
    destruct (skip_whitespace_blank (CharStream.remaining s) EmptyString s Hb)
      as [Hb1 Hp1].
    specialize (Hp1 (le_n _)).
    pose proof (remaining_readWhile s Matchers.isWhiteSpace) as Hr.
    unfold Values.readWhile, Values.readWhile_st in *.
    set (s1 := snd (Values.readWhile_loop _ _ tt EmptyString s)) in *.
    destruct (CharStream.eof s1) eqn:He; [now eexists|].
    destruct Hp1 as [Hp1|Hp1]; rewrite Hp1; [now eexists|].
    change (Matchers.isComment "#") with true. cbv iota.
    apply IH.
    + pose proof (remaining_skipRestOfLine s1). lia.
    + apply skip_comment_blank; [|lia].
      rewrite (rest_peek _ _ Hp1) in Hb1 |- *. exact Hb1.
Qed.

Lemma peek_blank (content : string) :
  blank content = true ->
  exists l', Luthor.peek (lexer content) = Ok (None, l').
Proof.
  intros Hb. unfold Luthor.peek, lexer, Luthor.new. cbn [current stream].
  destruct (readNextToken_loop_blank _ (CharStream.new content) (le_n _) Hb)
    as [s' Hs].
  unfold Luthor.readNextToken. rewrite Hs. now eexists.
Qed.

(** Where an expression is expected and the token stream is at its end, the
    test [isOneOfType] of [discrete] reads [type] from [null]. *)
Lemma expression_at_end (n : nat) (l l' : Luthor) :
  Luthor.peek l = Ok (None, l') ->
  Parsicle.expression (3 + n) l
  = Throw (TypeError "Cannot read properties of null (reading 'type')").
Proof.
  intros H. cbn [Nat.add].
  rewrite Eqns.expression_S, Eqns.handleInvocation_S, Eqns.discrete_S,
    Eqns.handleInvocation_S.
  unfold bind. now rewrite H.
Qed.

(** C5, as the code has it: on every document of whitespace and comments
    only, the empty document included, [parse] raises a [TypeError], which is
    neither an empty sequence nor the syntax error of the lexer. *)
Theorem blank_document_type_error (content : string) (k : nat)
    (H : blank content = true) :
  parse_string (3 + k) content
  = Throw (TypeError "Cannot read properties of null (reading 'type')").
Proof.
  destruct (peek_blank content H) as [l' Hl].
  unfold parse_string, run, Parsicle.parse, bind.
  fold (lexer content). now rewrite (expression_at_end k _ _ Hl).
Qed.

Lemma blank_document_type_error_witness :
  let doc := "  # note" ++ str1 EOL ++ str1 TAB in
  blank doc = true
  /\ parse_string 3 doc
     = Throw (TypeError "Cannot read properties of null (reading 'type')").
Proof.
  intros doc. split; [reflexivity|].
  exact (blank_document_type_error doc 0 eq_refl).
Defined.

(* ------------------------------------------------------------------------- *)
(** ** No node of type bool *)

Lemma readNextToken_loop_good (k : nat) :
  forall (s s' : CharStream) (t : option token),
    Luthor.readNextToken_loop k s = Ok (t, s') -> good_token t.
Proof.
  induction k as [|k IH]; intros s s' t; step;
    set (s1 := snd (Values.readWhile s Matchers.isWhiteSpace));
    (destruct (CharStream.eof s1); [intros [= <- _] ? [=]|]);
    (destruct (CharStream.peek s1) as [c|]; [|intros [= <- _] ? [=]]);
    (destruct (Matchers.isComment c);
       [|split_branches; intros [= <- _] ? [= <-]; reflexivity]).
  - discriminate.
  - apply IH.
Qed.

Section Post.

Context {A B : Type}.

Lemma post_ret (Q : A -> Prop) (a : A) : Q a -> post Q (ret a).
Proof. intros H l a' l' Hl [= <- <-]. auto. Qed.

Lemma post_throw (Q : A -> Prop) (e : exception) : post Q (throw e).
Proof. intros l a l' _ [=]. Qed.

Lemma post_out_of_fuel (Q : A -> Prop) : post Q out_of_fuel.
Proof. intros l a l' _ [=]. Qed.

Lemma post_luthor_die (Q : A -> Prop) (msg : string) : post Q (Luthor.die msg).
Proof. intros l a l' _ [=]. Qed.

Lemma post_bind (Q1 : A -> Prop) (Q2 : B -> Prop) (m : parser A)
    (f : A -> parser B) :
  post Q1 m -> (forall a, Q1 a -> post Q2 (f a)) -> post Q2 (bind m f).
Proof.
  intros Hm Hf l b l2 Hl. unfold bind.
  destruct (m l) as [[a l1]| |] eqn:E; try discriminate.
  destruct (Hm _ _ _ Hl E) as [Ha Hl1]. now apply Hf.
Qed.

Lemma post_bind_ret (Q : B -> Prop) (a : A) (f : A -> parser B) :
  post Q (f a) -> post Q (bind (ret a) f).
Proof. intros H. exact H. Qed.

Lemma post_any (Q : A -> Prop) (m : parser A) : post Q m -> post any m.
Proof.
  intros H l a l' Hl E. destruct (H _ _ _ Hl E). split; [exact I|assumption].
Qed.

End Post.

Lemma post_peek : post good_token Luthor.peek.
Proof.
  intros l t l' Hl. unfold Luthor.peek, good_state in *.
  destruct (current l) as [c|] eqn:Hc.
  - intros [= <- <-]. rewrite Hc. auto.
  - destruct (Luthor.readNextToken (stream l)) as [[t0 s0]| |] eqn:Hr;
      intros [= <- <-].
    pose proof (readNextToken_loop_good _ _ _ _ Hr). auto.
Qed.

Lemma post_next : post good_token Luthor.next.
Proof.
  intros l t l' Hl. unfold Luthor.next, good_state in *.
  destruct (current l) as [c|] eqn:Hc.
  - intros [= <- <-]. split; [exact Hl|]. intros ? [=].
  - destruct (Luthor.readNextToken (stream l)) as [[t0 s0]| |] eqn:Hr;
      intros [= <- <-].
    split; [exact (readNextToken_loop_good _ _ _ _ Hr)|]. intros ? [=].
Qed.

Lemma post_eof : post any Luthor.eof.
Proof.
  intros l b l' Hl. unfold Luthor.eof.
  destruct (Luthor.peek l) as [[t l1]| |] eqn:E; intros [= <- <-].
  split; [exact I|]. exact (proj2 (post_peek _ _ _ Hl E)).
Qed.

Lemma post_die_if (c : bool) (msg : string) : post any (die_if c msg).
Proof.
  destruct c; [apply post_luthor_die|now apply post_ret].
Qed.

Lemma post_value_of (t : option token) : post any (Parsicle.value_of t).
Proof. destruct t; [now apply post_ret|apply post_throw]. Qed.

Lemma post_isOneOfType (t : option token) (types : list string) :
  post any (Types.isOneOfType t types).
Proof. destruct t; [now apply post_ret|apply post_throw]. Qed.

Lemma post_parsicle_die {A : Type} (Q : A -> Prop) : post Q Parsicle.die.
Proof.
  apply (post_bind good_token); [apply post_peek|intros; apply post_luthor_die].
Qed.

Lemma post_expectPunc (char : string) : post good_token (Parsicle.expectPunc char).
Proof.
  apply (post_bind good_token); [apply post_peek|intros t _].
  apply (post_bind any); [apply post_die_if|intros _ _; apply post_next].
Qed.

Lemma post_expectIdentifier : post good_token Parsicle.expectIdentifier.
Proof.
  apply (post_bind good_token); [apply post_peek|intros t _].
  apply (post_bind any); [apply post_die_if|intros _ _; apply post_next].
Qed.

Lemma post_expectOps (operators : list string) :
  post good_token (Parsicle.expectOps operators).
Proof.
  apply (post_bind good_token); [apply post_peek|intros t _].
  apply (post_bind any); [apply post_die_if|intros _ _; apply post_next].
Qed.

Lemma no_bool_js (t : option token) : good_token t -> no_bool (js t).
Proof.
  intros H. destruct t as [t|]; [|reflexivity].
  unfold no_bool. cbn. now rewrite (H t eq_refl).
Qed.

Lemma no_bools_snoc (body : list node) (x : node) :
  no_bools body -> no_bool x -> no_bools (body ++ [x]).
Proof.
  unfold no_bools, no_bool. intros Hb Hx.
  rewrite existsb_app, Hb. cbn [existsb]. now rewrite Hx.
Qed.

Lemma no_bool_binaryExpression (op : string) (l r : node) :
  no_bool l -> no_bool r -> no_bool (Nodes.binaryExpression op l r).
Proof.
  unfold no_bool, Nodes.binaryExpression. intros Hl Hr.
  cbn [has_bool is_bool node_type]. rewrite Hl, Hr.
  now destruct (String.eqb "=" op).
Qed.

Lemma no_bool_blockStatement (body : list node) :
  no_bools body -> no_bool (Nodes.blockStatement body).
Proof. intros H. exact H. Qed.

Lemma no_bool_single (x : node) : no_bools [x] -> no_bool x.
Proof.
  unfold no_bools, no_bool. cbn [existsb]. now rewrite orb_false_r.
Qed.

Lemma no_bool_invocation (n : node) (args : list node) :
  no_bool n -> no_bools args -> no_bool (Nodes.invocation n args).
Proof.
  unfold no_bool, no_bools, Nodes.invocation. intros Hn Ha.
  cbn [has_bool is_bool node_type]. now rewrite Hn, Ha.
Qed.

Lemma no_bool_rule (name : option value) (args : list node) (body : node) :
  no_bools args -> no_bool body -> no_bool (Nodes.rule name args body).
Proof.
  unfold no_bool, no_bools, Nodes.rule. intros Ha Hb.
  cbn [has_bool is_bool node_type]. now rewrite Ha, Hb.
Qed.

Ltac post_done :=
  first
    [ assumption
    | exact I
    | reflexivity
    | apply no_bool_js; assumption
    | apply no_bool_single; assumption
    | apply no_bool_blockStatement; assumption
    | apply no_bool_invocation; assumption
    | apply no_bool_rule; assumption
    | apply no_bools_snoc; assumption
    | apply no_bool_binaryExpression; post_done ].

Ltac post_step :=
  match goal with
  | |- post _ (ret _) => apply post_ret; post_done
  | |- post _ (throw _) => apply post_throw
  | |- post _ out_of_fuel => apply post_out_of_fuel
  | |- post _ (Luthor.die _) => apply post_luthor_die
  | |- post _ Parsicle.die => apply post_parsicle_die
  | H : post ?Q ?m |- post ?Q ?m => exact H
  | |- post _ (bind (ret _) _) => apply post_bind_ret
  | |- post _ (bind Luthor.peek _) =>
      apply (post_bind good_token); [apply post_peek|intros ? ?]
  | |- post _ (bind Luthor.next _) =>
      apply (post_bind good_token); [apply post_next|intros ? ?]
  | |- post _ (bind Luthor.eof _) =>
      apply (post_bind any); [apply post_eof|intros ? _]
  | |- post _ (bind (die_if _ _) _) =>
      apply (post_bind any); [apply post_die_if|intros ? _]
  | |- post _ (bind (Parsicle.expectPunc _) _) =>
      apply (post_bind good_token); [apply post_expectPunc|intros ? ?]
  | |- post _ (bind Parsicle.expectIdentifier _) =>
      apply (post_bind good_token); [apply post_expectIdentifier|intros ? ?]
  | |- post _ (bind (Parsicle.expectOps _) _) =>
      apply (post_bind good_token); [apply post_expectOps|intros ? ?]
  | |- post _ (bind (Parsicle.value_of _) _) =>
      apply (post_bind any); [apply post_value_of|intros ? _]
  | |- post _ (bind (Types.isOneOfType _ _) _) =>
      apply (post_bind any); [apply post_isOneOfType|intros ? _]
  | H : post ?Q ?m |- post _ (bind ?m _) =>
      apply (post_bind Q); [exact H|intros ? ?]
  | H : forall start stop separator,
          post _ (Parsicle.delimited ?n start stop separator ?f)
    |- post _ (bind (Parsicle.delimited ?n _ _ _ ?f) _) =>
      apply (post_bind no_bools); [apply H|intros ? ?]
  | H : forall leftNode p, no_bool leftNode ->
          post _ (Parsicle.resolveOperatorBindings ?n leftNode p)
    |- post _ (bind (Parsicle.resolveOperatorBindings ?n _ _) _) =>
      apply (post_bind no_bool); [apply H; post_done|intros ? ?]
  | H : forall leftNode p, no_bool leftNode ->
          post _ (Parsicle.resolveOperatorBindings ?n leftNode p)
    |- post _ (Parsicle.resolveOperatorBindings ?n _ _) =>
      apply H; post_done
  | H : forall callable, post _ callable ->
          post _ (Parsicle.handleInvocation ?n callable)
    |- post _ (Parsicle.handleInvocation ?n _) =>
      apply H
  | |- post _ (bind (bind _ _) _) =>
      apply (post_bind any); [|intros ? _]
  | |- post _ (bind (if ?b then _ else _) _) => destruct b
  | |- post _ (if ?b then _ else _) => destruct b
  | |- post _ (match ?x with _ => _ end) => destruct x
  end.

Section Delimited.

Variables (stop separator : string) (parserFn : parser node).
Hypothesis parserFn_no_bool : post no_bool parserFn.

Lemma post_delimited_loop (k : nat) :
  forall first body,
    no_bools body ->
    post no_bools (Parsicle.delimited_loop k stop separator parserFn first body).
Proof.
  induction k as [|k IH]; intros first body Hb.
  - apply post_out_of_fuel.
  - rewrite Eqns.delimited_loop_S. repeat post_step.
    all: apply IH; post_done.
Qed.

Lemma post_delimited (k : nat) (start : string) :
  post no_bools (Parsicle.delimited k start stop separator parserFn).
Proof.
  unfold Parsicle.delimited. post_step.
  apply (post_bind no_bools); [now apply post_delimited_loop|intros body Hb].
  repeat post_step.
Qed.

End Delimited.

Lemma parsers_no_bool (n : nat) :
  post no_bool (Parsicle.expression n)
  /\ post no_bool (Parsicle.parenthetical n)
  /\ post no_bool (Parsicle.block n)
  /\ post no_bool (Parsicle.rule n)
  /\ post no_bool (Parsicle.signed n)
  /\ post no_bool (Parsicle.discrete n)
  /\ (forall leftNode p, no_bool leftNode ->
        post no_bool (Parsicle.resolveOperatorBindings n leftNode p))
  /\ (forall callable, post no_bool callable ->
        post no_bool (Parsicle.handleInvocation n callable)).
Proof.
  induction n as [|n (He & Hp & Hb & Hr & Hs & Hd & Ho & Hh)].
  - repeat apply conj; intros; apply post_out_of_fuel.
  - assert (Hargs : post no_bool (i <- Parsicle.expectIdentifier ;; ret (js i)))
      by repeat post_step.
    pose proof (fun start stop separator =>
                  post_delimited stop separator _ He n start) as Hde.
    pose proof (fun start stop separator =>
                  post_delimited stop separator _ Hargs n start) as Hdi.
    repeat apply conj; intros;
      rewrite ?Eqns.expression_S, ?Eqns.parenthetical_S, ?Eqns.block_S,
        ?Eqns.rule_S, ?Eqns.signed_S, ?Eqns.discrete_S,
        ?Eqns.resolveOperatorBindings_S, ?Eqns.handleInvocation_S;
      repeat post_step.
Qed.

Lemma post_parse_loop (n : nat) :
  forall ast, no_bools ast -> post no_bools (Parsicle.parse_loop n ast).
Proof.
  induction n as [|n IH]; intros ast Hast.
  - apply post_out_of_fuel.
  - rewrite Eqns.parse_loop_S.
    pose proof (proj1 (parsers_no_bool n)) as He.
    repeat post_step. all: apply IH; post_done.
Qed.

Lemma post_parse (n : nat) : post no_bools (Parsicle.parse n).
Proof.
  unfold Parsicle.parse.
  pose proof (proj1 (parsers_no_bool n)) as He. post_step.
  apply post_parse_loop. unfold no_bools. cbn [existsb].
  now rewrite orb_false_r.
Qed.

Lemma isPunc_keyword (v : string) (x : option string) :
  Types.isPunc (Some (Tokens.keyword v)) x = false.
Proof. reflexivity. Qed.

Lemma isOp_keyword (v : string) (x : option string) :
  Types.isOp (Some (Tokens.keyword v)) x = false.
Proof. reflexivity. Qed.

Lemma isOneOfType_keyword (v : string) :
  Types.isOneOfType (Some (Tokens.keyword v)) ["num"; "str"; "id"] = ret false.
Proof. reflexivity. Qed.

(** C10. No tree that [parse] returns holds a node of type bool, whatever the
    document: [Nodes.bool] is never called. And an expression whose first
    token is the keyword true, false or conform raises the syntax error
    Unexpected token at the place of the cursor, which stands just after
    the keyword. *)
Theorem bool_is_unreachable :
  (forall (n : nat) (content : string) (trees : list node),
      parse_string n content = Ok trees -> existsb has_bool trees = false)
  /\ (forall (k : nat) (l l' : Luthor) (v : string),
        In v ["true"; "false"; "conform"] ->
        Luthor.peek l = Ok (Some (Tokens.keyword v), l') ->
        Parsicle.expression (3 + k) l
        = Throw (IllegalSyntaxError (line (stream l')) (col (stream l'))
                   ("Unexpected token: " ++ JSON.token (Some (Tokens.keyword v))))).
Proof.
  split.
  - intros n content trees. unfold parse_string, run.
    destruct (Parsicle.parse n (Luthor.new (CharStream.new content)))
      as [[a l']| |] eqn:E; intros [= <-].
    refine (proj1 (post_parse n _ _ _ _ E)). intros t' [=].
  - intros k l l' v Hv Hpeek. cbn [Nat.add].
    rewrite Eqns.expression_S, Eqns.handleInvocation_S, Eqns.discrete_S,
      Eqns.handleInvocation_S.
    unfold bind. rewrite Hpeek.
    assert (Hrule : Types.isKw (Some (Tokens.keyword v)) (Some "rule") = false)
      by (cbn [In] in Hv; decompose [or] Hv; subst; try reflexivity; contradiction).
    rewrite !isPunc_keyword, !isOp_keyword, Hrule, isOneOfType_keyword.
    cbn [orb]. unfold ret, Parsicle.die, bind.
    rewrite (peek_peek _ _ _ Hpeek). unfold Luthor.die. reflexivity.
Qed.

Lemma bool_is_unreachable_witness :
  parse_string 5 "1 + 2 * 3"
  = Ok [Binary "binaryExpression" "+" (num 1)
          (Binary "binaryExpression" "*" (num 2) (num 3))]
  /\ existsb has_bool
       [Binary "binaryExpression" "+" (num 1)
          (Binary "binaryExpression" "*" (num 2) (num 3))] = false
  /\ Luthor.peek (lexer "true")
     = Ok (Some (Tokens.keyword "true"),
           mkLuthor (mkCharStream "true" 4 1 4) (Some (Tokens.keyword "true")))
  /\ Parsicle.expression 3 (lexer "true")
     = Throw (IllegalSyntaxError 1 4
                ("Unexpected token: " ++ JSON.token (Some (Tokens.keyword "true")))).
Proof.
  assert (H1 : parse_string 5 "1 + 2 * 3"
               = Ok [Binary "binaryExpression" "+" (num 1)
                       (Binary "binaryExpression" "*" (num 2) (num 3))])
    by (vm_compute; reflexivity).
  assert (H2 : Luthor.peek (lexer "true")
               = Ok (Some (Tokens.keyword "true"),
                     mkLuthor (mkCharStream "true" 4 1 4)
                              (Some (Tokens.keyword "true"))))
    by (vm_compute; reflexivity).
  split; [exact H1|]. split; [|split; [exact H2|]].
  - exact (proj1 bool_is_unreachable 5 "1 + 2 * 3" _ H1).
  - exact (proj2 bool_is_unreachable 0 (lexer "true") _ "true"
             (or_introl eq_refl) H2).
Defined.

(* ------------------------------------------------------------------------- *)
(** ** The lexer, from any cursor *)

Lemma advance_add (j k : nat) (s : CharStream) :
  advance (j + k) s = advance k (advance j s).
Proof.
  revert s; induction j as [|j IH]; intros s; [reflexivity|].
  cbn [Nat.add advance]. apply IH.
Qed.

Lemma advance_S (k : nat) (s : CharStream) :
  advance (S k) s = snd (CharStream.next (advance k s)).
Proof.
  replace (S k) with (k + 1) by lia. now rewrite advance_add.
Qed.

Lemma rest_advance (k : nat) (s : CharStream) :
  rest (advance k s) = drop k (rest s).
Proof.
  revert s; induction k as [|k IH]; intros s; [reflexivity|].
  cbn [advance]. rewrite IH, rest_next.
  destruct (rest s); [destruct k|]; reflexivity.
Qed.

Lemma take_snoc (k : nat) (s : string) (c : ascii) :
  String.get k s = Some c -> take (S k) s = take k s ++ str1 c.
Proof.
  revert s; induction k as [|k IH]; intros [|d s] H; try discriminate.
  - cbn in H. injection H as ->. now destruct s.
  - cbn [take append]. f_equal. now apply IH.
Qed.

Lemma take_all (k : nat) (s : string) :
  String.get k s = None -> take (S k) s = take k s.
Proof.
  revert s; induction k as [|k IH]; intros [|d s] H; try discriminate;
    try reflexivity.
  cbn [take]. f_equal. now apply IH.
Qed.

Lemma count_eol_snoc (s : string) (c : ascii) :
  count_eol (s ++ str1 c) = count_eol s + (if Ascii.eqb c EOL then 1 else 0).
Proof.
  induction s as [|d s IH]; cbn [append count_eol str1]; [lia|].
  rewrite IH. lia.
Qed.

Lemma last_line_snoc (s : string) (c : ascii) :
  last_line (s ++ str1 c)
  = if Ascii.eqb c EOL then EmptyString else last_line s ++ str1 c.
Proof.
  induction s as [|d s IH]; cbn [append last_line str1 count_eol].
  - now destruct (Ascii.eqb c EOL).
  - rewrite count_eol_snoc, IH.
    destruct (Ascii.eqb c EOL) eqn:Ec.
    + replace (0 <? count_eol s + 1) with true
        by (symmetry; apply Nat.ltb_lt; lia). reflexivity.
    + rewrite Nat.add_0_r. destruct (0 <? count_eol s); [reflexivity|].
      now destruct (Ascii.eqb d EOL).
Qed.

Lemma length_snoc (s : string) (c : ascii) :
  String.length (s ++ str1 c) = S (String.length s).
Proof. induction s as [|d s IH]; cbn; [reflexivity|now rewrite IH]. Qed.

Lemma get_None_length (k : nat) (s : string) :
  String.get k s = None <-> String.length s <= k.
Proof.
  revert s; induction k as [|k IH]; intros [|d s]; cbn; split;
    try discriminate; try lia; auto.
  - intros H. apply IH in H. lia.
  - intros H. apply IH. lia.
Qed.

(** X1. The position that a [CharStream] keeps. After [k] calls of [next] on
    a new stream the cursor is at index [k]; its line is one more than the
    number of newlines among the first [k] characters, and its column the
    number of characters after the last of them. Calls past the end of the
    input still move [pos] and [col] on. *)
Theorem cursor_position (content : string) (k : nat) :
  advance k (CharStream.new content)
  = mkCharStream content k
      (1 + count_eol (take k content))
      (String.length (last_line (take k content)) + (k - String.length content)).
Proof.
  induction k as [|k IH].
  - destruct content; reflexivity.
  - rewrite advance_S, IH. unfold CharStream.next, CharStream.peek.
    cbn [snd pos stringOrReadable line col].
    destruct (String.get k content) as [c|] eqn:Hg.
    + assert (Hk : k < String.length content).
      { destruct (Nat.lt_ge_cases k (String.length content)) as [H|H]; [exact H|].
        apply get_None_length in H. congruence. }
      rewrite (take_snoc _ _ _ Hg), count_eol_snoc, last_line_snoc.
      replace (k - String.length content) with 0 by lia.
      replace (S k - String.length content) with 0 by lia.
      destruct (Ascii.eqb c EOL); f_equal; cbn [String.length]; try lia.
      rewrite length_snoc. lia.
    + pose proof (proj1 (get_None_length _ _) Hg) as Hk.
      rewrite (take_all _ _ Hg). f_equal. lia.
Qed.

Lemma readWhile_loop_take {P : Type} (predicate : P -> ascii -> bool * P) (k : nat) :
  forall (p : P) (str : string) (s : CharStream),
    CharStream.remaining s <= k ->
    Values.readWhile_loop k predicate p str s
    = (str ++ take_while predicate p (rest s),
       advance (String.length (take_while predicate p (rest s))) s).
Proof.
  induction k as [|k IH]; intros p str s Hk; step.
  - assert (Hp : CharStream.peek s = None) by (apply peek_None_remaining; lia).
    rewrite (rest_peek_None _ Hp). cbn. now rewrite append_nil_r.
  - destruct (CharStream.peek s) as [c|] eqn:Hp.
    + rewrite (rest_peek _ _ Hp). cbn [take_while].
      destruct (predicate p c) as [[|] p'].
      * rewrite IH by (rewrite remaining_next; lia).
        cbn [String.length advance]. now rewrite append_assoc.
      * cbn. now rewrite append_nil_r.
    + rewrite (rest_peek_None _ Hp). cbn. now rewrite append_nil_r.
Qed.

Lemma readWhile_st_take {P : Type} (predicate : P -> ascii -> bool * P) (p : P)
    (s : CharStream) :
  Values.readWhile_st predicate p s
  = (take_while predicate p (rest s),
     advance (String.length (take_while predicate p (rest s))) s).
Proof. apply (readWhile_loop_take predicate _ p EmptyString s (le_n _)). Qed.

Lemma take_while_accepts (predicate : ascii -> bool) (s : string) :
  forall n c, String.get n (take_while (stateless predicate) tt s) = Some c ->
              predicate c = true.
Proof.
  induction s as [|d s IH]; intros n c; cbn [take_while stateless].
  - now destruct n.
  - fold (stateless predicate). destruct (predicate d) eqn:Hd; [|now destruct n].
    destruct n as [|n]; cbn [String.get].
    + now intros [= <-].
    + apply IH.
Qed.

Lemma take_while_stops (predicate : ascii -> bool) (s : string) (c : ascii) :
  String.get (String.length (take_while (stateless predicate) tt s)) s = Some c ->
  predicate c = false.
Proof.
  induction s as [|d s IH]; cbn [take_while stateless]; [discriminate|].
  fold (stateless predicate). destruct (predicate d) eqn:Hd.
  - cbn [String.length String.get]. exact IH.
  - cbn. now intros [= <-].
Qed.

Lemma take_while_prefix {P : Type} (predicate : P -> ascii -> bool * P) (p : P)
    (s : string) :
  take (String.length (take_while predicate p s)) s = take_while predicate p s.
Proof.
  revert p; induction s as [|d s IH]; intros p; cbn [take_while]; [reflexivity|].
  destruct (predicate p d) as [[|] p']; [|reflexivity].
  cbn [String.length take]. now rewrite IH.
Qed.

Lemma peek_advance (k : nat) (s : CharStream) :
  CharStream.peek (advance k s) = String.get k (rest s).
Proof.
  rewrite peek_rest, rest_advance. symmetry. apply get_drop.
Qed.

Lemma readWhile_run (s : CharStream) (predicate : ascii -> bool) :
  let str := fst (Values.readWhile s predicate) in
  let s' := snd (Values.readWhile s predicate) in
  str = take (String.length str) (rest s)
  /\ s' = advance (String.length str) s
  /\ (forall n c, String.get n str = Some c -> predicate c = true)
  /\ (forall c, CharStream.peek s' = Some c -> predicate c = false).
Proof.
  unfold Values.readWhile. fold (stateless predicate).
  rewrite readWhile_st_take. cbn [fst snd].
  split; [now rewrite take_while_prefix|]. split; [reflexivity|].
  split; [apply take_while_accepts|].
  intros c. rewrite peek_advance. apply take_while_stops.
Qed.

(** X2. [readWhile] reads the longest run of characters that the predicate
    accepts, and no more: what it returns are the characters that stood at
    the cursor, every one of them is accepted, the cursor has moved by their
    number, and the character it now stands on, if there is one, is
    refused. *)
Theorem readWhile_longest_run (s : CharStream) (predicate : ascii -> bool) :
  let str := fst (Values.readWhile s predicate) in
  let s' := snd (Values.readWhile s predicate) in
  str = take (String.length str) (rest s)
  /\ s' = advance (String.length str) s
  /\ (forall n c, String.get n str = Some c -> predicate c = true)
  /\ (forall c, CharStream.peek s' = Some c -> predicate c = false).
Proof. exact (readWhile_run s predicate). Qed.

Lemma pos_advance (k : nat) (s : CharStream) :
  pos (advance k s) = pos s + k
  /\ stringOrReadable (advance k s) = stringOrReadable s.
Proof.
  revert s; induction k as [|k IH]; intros s; cbn [advance]; [split; [lia|reflexivity]|].
  destruct (IH (snd (CharStream.next s))) as [H1 H2]. rewrite H1, H2.
  unfold CharStream.next. cbn [snd].
  destruct (CharStream.peek s) as [c|]; [destruct (Ascii.eqb c EOL)|];
    cbn [pos stringOrReadable]; split; (lia || reflexivity).
Qed.

Lemma readString_loop_advance (k : nat) :
  forall (escaped : bool) (str : string) (s : CharStream),
    exists j, snd (Values.readString_loop k escaped str s) = advance j s.
Proof.
  induction k as [|k IH]; intros escaped str s; step; [now exists 0|].
  destruct (CharStream.eof s); [now exists 0|].
  change (CharStream.next s) with (fst (CharStream.next s), snd (CharStream.next s)).
  cbv iota beta.
  destruct (fst (CharStream.next s)) as [c|]; [|now exists 1].
  assert (Hs : forall e str', exists j,
             snd (Values.readString_loop k e str' (snd (CharStream.next s)))
             = advance j s).
  { intros e str'. destruct (IH e str' (snd (CharStream.next s))) as [j Hj].
    exists (S j). exact Hj. }
  destruct escaped; [apply Hs|].
  destruct (Ascii.eqb c BACKSLASH); [apply Hs|].
  destruct (Matchers.isStringBoundary c); [now exists 1|apply Hs].
Qed.

Lemma all_chars_take_while (p : ascii -> bool) (s : string) :
  all_chars p (take_while (stateless p) tt s) = true.
Proof.
  induction s as [|c s IH]; cbn [take_while stateless all_chars]; [reflexivity|].
  fold (stateless p). destruct (p c) eqn:Hc; [|reflexivity].
  cbn [all_chars]. now rewrite Hc.
Qed.

Lemma take_while_first (p : ascii -> bool) (c : ascii) (r : string) :
  p c = true ->
  take_while (stateless p) tt (String c r)
  = String c (take_while (stateless p) tt r).
Proof. intros H. cbn [take_while stateless]. now rewrite H. Qed.

Lemma take_while_stops_st {P : Type} (predicate : P -> ascii -> bool * P) (s : string) :
  forall (p : P) (c : ascii),
    String.get (String.length (take_while predicate p s)) s = Some c ->
    exists p', fst (predicate p' c) = false.
Proof.
  induction s as [|d s IH]; intros p c; cbn [take_while]; [discriminate|].
  destruct (predicate p d) as [[|] p'] eqn:Hd.
  - cbn [String.length String.get]. apply IH.
  - cbn. intros [= <-]. exists p. now rewrite Hd.
Qed.

Lemma isNumeric_refuses (h : bool) (c : ascii) :
  fst (Values.isNumeric h c) = false -> Matchers.isDigit c = false.
Proof.
  unfold Values.isNumeric. destruct (Ascii.eqb_spec "." c) as [<-|_].
  - reflexivity.
  - cbn [fst]. auto.
Qed.

Lemma parseFloat_digit (c : ascii) (w : string) :
  Matchers.isDigit c = true ->
  exists n d, parseFloat (String c w) = Dec (Z.of_N n # d).
Proof.
  intros Hc. unfold parseFloat. cbn [digits_value]. rewrite Hc.
  destruct (digits_value _ w) as [[i ki] r].
  destruct r as [|d r]; [now eexists; eexists|].
  destruct (Ascii.eqb_spec d ".") as [->|Hd].
  - destruct (digits_value i r) as [[m kf] r']. cbn [Nat.add Nat.eqb].
    now eexists; eexists.
  - assert (E : forall (A : Type) (x y : A),
               match d with "."%char => x | _ => y end = y).
    { intros A x y. destruct d as [[] [] [] [] [] [] [] []]; try reflexivity.
      now contradiction Hd. }
    rewrite E. now eexists; eexists.
Qed.

Lemma Qle_bool_of_N (n : N) (d : positive) : Qle_bool 0 (Z.of_N n # d) = true.
Proof.
  unfold Qle_bool. cbn [Qnum Qden]. apply Z.leb_le.
  rewrite Z.mul_0_l, Z.mul_1_r. apply N2Z.is_nonneg.
Qed.

Lemma string_branch (s1 : CharStream) :
  exists j, snd (Values.readString (snd (CharStream.next s1))) = advance (2 + j) s1.
Proof.
  unfold Values.readString.
  destruct (readString_loop_advance
              (CharStream.remaining (snd (CharStream.next (snd (CharStream.next s1)))))
              false EmptyString (snd (CharStream.next (snd (CharStream.next s1)))))
    as [j Hj].
  exists j. exact Hj.
Qed.

Lemma number_branch (s1 : CharStream) (c : ascii) :
  CharStream.peek s1 = Some c -> Matchers.isDigit c = true ->
  exists j, 0 < j
    /\ snd (Values.readNumber s1) = advance j s1
    /\ token_ok (Tokens.numeric (fst (Values.readNumber s1))) = true
    /\ ends_before (Tokens.numeric (fst (Values.readNumber s1)))
         (CharStream.peek (snd (Values.readNumber s1))) = true.
Proof.
  intros Hp Hc. unfold Values.readNumber. rewrite readWhile_st_take.
  cbn [fst snd]. rewrite (rest_peek _ _ Hp).
  set (r := rest (snd (CharStream.next s1))).
  assert (Hn : Values.isNumeric false c = (true, false)).
  { unfold Values.isNumeric. destruct (Ascii.eqb_spec "." c) as [<-|_].
    - discriminate Hc.
    - now rewrite Hc. }
  assert (Htw : take_while Values.isNumeric false (String c r)
                = String c (take_while Values.isNumeric false r))
    by (cbn [take_while]; now rewrite Hn).
  rewrite Htw. exists (S (String.length (take_while Values.isNumeric false r))).
  split; [lia|]. split; [reflexivity|]. split.
  - destruct (parseFloat_digit c (take_while Values.isNumeric false r) Hc)
      as (n & d & ->).
    unfold token_ok, Tokens.numeric. cbn [type tvalue].
    now rewrite Qle_bool_of_N.
  - rewrite peek_advance, (rest_peek _ _ Hp). fold r. rewrite <- Htw.
    destruct (String.get _ (String c r)) as [c'|] eqn:Hg; [|reflexivity].
    destruct (take_while_stops_st _ _ _ _ Hg) as [p' Hp'].
    cbn [ends_before Tokens.numeric type].
    change (String.eqb "num" "id" || String.eqb "num" "kw") with false.
    change (String.eqb "num" "op") with false.
    change (String.eqb "num" "num") with true. cbv iota.
    now rewrite (isNumeric_refuses _ _ Hp').
Qed.

Lemma run_branch (s1 : CharStream) (c : ascii) (p : ascii -> bool) :
  CharStream.peek s1 = Some c -> p c = true ->
  exists w,
    fst (Values.readWhile s1 p) = String c w
    /\ all_chars p (String c w) = true
    /\ snd (Values.readWhile s1 p) = advance (S (String.length w)) s1
    /\ (forall c', CharStream.peek (snd (Values.readWhile s1 p)) = Some c' ->
                   p c' = false).
Proof.
  intros Hp Hc.
  destruct (readWhile_run s1 p) as (_ & H2 & _ & H4).
  unfold Values.readWhile in *. fold (stateless p) in *.
  rewrite readWhile_st_take in *. cbn [fst snd] in *.
  rewrite (rest_peek _ _ Hp) in *. rewrite (take_while_first p c _ Hc) in *.
  eexists. split; [reflexivity|]. split; [|split; [exact H2|exact H4]].
  rewrite <- (take_while_first p c _ Hc). apply all_chars_take_while.
Qed.

Lemma lexed_shift (j0 : nat) (s : CharStream)
    (r : outcome (option token * CharStream)) :
  lexed (advance j0 s) r -> lexed s r.
Proof.
  destruct r as [[[t|] s']|e|]; cbn [lexed]; auto.
  - intros (j & Hj & -> & H). exists (j0 + j). split; [lia|].
    split; [now rewrite advance_add|exact H].
  - intros (j & -> & H). exists (j0 + j). now rewrite advance_add.
  - intros (j & c & H). exists (j0 + j), c. now rewrite advance_add.
Qed.

Lemma skipRestOfLine_advance (s : CharStream) :
  exists j, Values.skipRestOfLine s = advance j s.
Proof.
  unfold Values.skipRestOfLine.
  destruct (readWhile_run s Matchers.isNotEOL) as (_ & -> & _).
  eexists (_ + 1). rewrite advance_add. reflexivity.
Qed.

Lemma ends_before_punctuation (w : string) (o : option ascii) :
  ends_before (Tokens.punctuation w) o = true.
Proof. now destruct o. Qed.

Lemma token_starts (s1 : CharStream) (c : ascii) :
  CharStream.peek s1 = Some c ->
  Matchers.isWhiteSpace c = false -> Matchers.isComment c = false ->
  lexed s1
    (if Matchers.isStringBoundary c then
       let stream := snd (CharStream.next s1) in
       let '(v, stream) := Values.readString stream in
       Ok (Some (Tokens.string v), stream)
     else if Matchers.isDigit c then
       let '(v, stream) := Values.readNumber s1 in
       Ok (Some (Tokens.numeric v), stream)
     else if Matchers.isStartOfIdentifier c then
       let '(identifier, stream) := Values.readIdentifier s1 in
       Ok (Some (if Matchers.isKeyword identifier
                 then Tokens.keyword identifier
                 else Tokens.identifier identifier), stream)
     else if Matchers.isPunctuation c then
       let '(c, stream) := CharStream.next s1 in
       Ok (Some (Tokens.punctuation
                   (match c with Some c => str1 c | None => EmptyString end)),
           stream)
     else if Matchers.isOperator c then
       let '(v, stream) := Values.readOperator s1 in
       Ok (Some (Tokens.operator v), stream)
     else
       Throw (CharStream.die s1
                ("Illegal character at this position: " ++ str1 c))).
Proof.
  intros Hp Hws Hcm.
  destruct (Matchers.isStringBoundary c) eqn:Hsb.
  { destruct (string_branch s1) as [j Hj]. cbv zeta.
    destruct (Values.readString _) as [v s']. cbn [snd] in Hj.
    exists (2 + j). split; [lia|]. split; [exact Hj|].
    split; [reflexivity|now destruct (CharStream.peek s')]. }
  destruct (Matchers.isDigit c) eqn:Hdg.
  { destruct (number_branch s1 c Hp Hdg) as (j & Hj & H1 & H2 & H3).
    destruct (Values.readNumber s1) as [v s']. cbn [fst snd] in *.
    now exists j. }
  destruct (Matchers.isStartOfIdentifier c) eqn:Hid.
  { assert (Hid' : Matchers.isIdentifier c = true)
      by (unfold Matchers.isIdentifier; now rewrite Hid).
    destruct (run_branch s1 c Matchers.isIdentifier Hp Hid')
      as (w & H1 & H2 & H3 & H4).
    unfold Values.readIdentifier.
    destruct (Values.readWhile s1 Matchers.isIdentifier) as [v s'].
    cbn [fst snd] in *. subst v.
    exists (S (String.length w)). split; [lia|]. split; [exact H3|].
    destruct (Matchers.isKeyword (String c w)) eqn:Hkw.
    - split.
      + unfold token_ok, Tokens.keyword. cbn [type tvalue]. now rewrite Hkw.
      + destruct (CharStream.peek s') as [c'|]; [|reflexivity].
        cbn [ends_before Tokens.keyword type]. now rewrite (H4 c' eq_refl).
    - split.
      + unfold token_ok, Tokens.identifier. cbn [type tvalue starts_with].
        now rewrite Hkw, Hid, H2.
      + destruct (CharStream.peek s') as [c'|]; [|reflexivity].
        cbn [ends_before Tokens.identifier type]. now rewrite (H4 c' eq_refl). }
  destruct (Matchers.isPunctuation c) eqn:Hpn.
  { unfold CharStream.next. rewrite Hp.
    exists 1. split; [lia|]. split.
    - unfold advance, CharStream.next. now rewrite Hp.
    - split.
      + unfold token_ok, Tokens.punctuation, str1.
        cbn [type tvalue starts_with String.length]. now rewrite Hpn.
      + apply ends_before_punctuation. }
  destruct (Matchers.isOperator c) eqn:Hop.
  { destruct (run_branch s1 c Matchers.isOperator Hp Hop)
      as (w & H1 & H2 & H3 & H4).
    unfold Values.readOperator.
    destruct (Values.readWhile s1 Matchers.isOperator) as [v s'].
    cbn [fst snd] in *. subst v.
    exists (S (String.length w)). split; [lia|]. split; [exact H3|]. split.
    - unfold token_ok, Tokens.operator. cbn [type tvalue starts_with].
      now rewrite Hop, H2.
    - destruct (CharStream.peek s') as [c'|]; [|reflexivity].
      cbn [ends_before Tokens.operator type]. now rewrite (H4 c' eq_refl). }
  exists 0, c. cbn [advance]. split; [exact Hp|]. split; [|reflexivity].
  unfold illegal. now rewrite Hws, Hcm, Hsb, Hdg, Hid, Hpn, Hop.
Qed.

Lemma readNextToken_loop_lexed (k : nat) :
  forall s : CharStream, lexed s (Luthor.readNextToken_loop k s).
Proof.
  induction k as [|k IH]; intros s; step;
    destruct (readWhile_run s Matchers.isWhiteSpace) as (_ & Hs1 & _ & Hws);
    cbv zeta in Hs1, Hws;
    apply (lexed_shift (String.length
      (fst (Values.readWhile s Matchers.isWhiteSpace))) s); rewrite <- Hs1;
    set (s1 := snd (Values.readWhile s Matchers.isWhiteSpace)) in *;
    (destruct (CharStream.eof s1) eqn:He; [now exists 0|]);
    (destruct (CharStream.peek s1) as [c|] eqn:Hp;
       [|exists 0; split; [reflexivity|unfold CharStream.eof; now rewrite Hp]]);
    specialize (Hws c eq_refl);
    (destruct (Matchers.isComment c) eqn:Hcm;
       [|now apply token_starts]).
  - exact I.
  - destruct (skipRestOfLine_advance s1) as [j Hj].
    apply (lexed_shift j s1). rewrite <- Hj. apply IH.
Qed.

Lemma readNextToken_of_loop (k : nat) (s : CharStream) :
  CharStream.remaining s <= k ->
  Luthor.readNextToken_loop k s = Luthor.readNextToken s.
Proof.
  intros Hk. unfold Luthor.readNextToken.
  replace k with (CharStream.remaining s + (k - CharStream.remaining s)) by lia.
  apply readNextToken_loop_fuel. lia.
Qed.

Lemma readWhile_refused (s : CharStream) (p : ascii -> bool) :
  (forall c, CharStream.peek s = Some c -> p c = false) ->
  Values.readWhile s p = (EmptyString, s).
Proof.
  intros H. unfold Values.readWhile. fold (stateless p).
  rewrite readWhile_st_take.
  destruct (CharStream.peek s) as [c|] eqn:Hp.
  - rewrite (rest_peek _ _ Hp). cbn [take_while stateless].
    now rewrite (H c eq_refl).
  - now rewrite (rest_peek_None _ Hp).
Qed.

(** Lexing from a cursor is lexing from where the whitespace after it
    ends. *)
Lemma readNextToken_loop_skip (k : nat) (s : CharStream) :
  Luthor.readNextToken_loop k s
  = Luthor.readNextToken_loop k (snd (Values.readWhile s Matchers.isWhiteSpace)).
Proof.
  destruct (readWhile_run s Matchers.isWhiteSpace) as (_ & _ & _ & H).
  cbv zeta in H.
  destruct k; step; now rewrite (readWhile_refused _ _ H).
Qed.

Lemma readNextToken_skip (s : CharStream) :
  Luthor.readNextToken s
  = Luthor.readNextToken (snd (Values.readWhile s Matchers.isWhiteSpace)).
Proof.
  unfold Luthor.readNextToken at 1. rewrite readNextToken_loop_skip.
  apply readNextToken_of_loop, remaining_readWhile.
Qed.

Lemma take_while_drop (p : ascii -> bool) (j : nat) :
  forall r : string,
    all_chars p (take j r) = true -> j <= String.length r ->
    String.length (take_while (stateless p) tt r)
    = j + String.length (take_while (stateless p) tt (drop j r)).
Proof.
  induction j as [|j IH]; intros r Ha Hj; [reflexivity|].
  destruct r as [|c r]; [cbn in Hj; lia|].
  cbn [take all_chars] in Ha. apply andb_true_iff in Ha. destruct Ha as [Hc Ha].
  cbn [take_while stateless drop]. rewrite Hc. fold (stateless p).
  cbn [String.length] in *. rewrite (IH r Ha) by lia. reflexivity.
Qed.

(** X3. Whitespace before a token changes nothing but the position: from a
    cursor, and from any place in the whitespace that follows it,
    [readNextToken] gives the same. *)
Theorem whitespace_is_skipped (s : CharStream) (j : nat)
    (Hws : all_chars Matchers.isWhiteSpace (take j (rest s)) = true)
    (Hj : j <= CharStream.remaining s) :
  Luthor.readNextToken (advance j s) = Luthor.readNextToken s.
Proof.
  rewrite (readNextToken_skip s), (readNextToken_skip (advance j s)).
  f_equal.
  destruct (readWhile_run s Matchers.isWhiteSpace) as (_ & -> & _).
  destruct (readWhile_run (advance j s) Matchers.isWhiteSpace)
    as (_ & -> & _).
  unfold Values.readWhile. fold (stateless Matchers.isWhiteSpace).
  rewrite !readWhile_st_take. cbn [fst]. rewrite <- advance_add, rest_advance.
  f_equal. symmetry. apply take_while_drop; [exact Hws|].
  now rewrite <- remaining_rest.
Qed.

Lemma whitespace_is_skipped_witness :
  let s := CharStream.new "   x" in
  all_chars Matchers.isWhiteSpace (take 2 (rest s)) = true
  /\ 2 <= CharStream.remaining s
  /\ Luthor.readNextToken (advance 2 s) = Luthor.readNextToken s.
Proof.
  intros s.
  assert (H1 : all_chars Matchers.isWhiteSpace (take 2 (rest s)) = true)
    by (vm_compute; reflexivity).
  assert (H2 : 2 <= CharStream.remaining s) by (vm_compute; lia).
  exact (conj H1 (conj H2 (whitespace_is_skipped s 2 H1 H2))).
Defined.

(** X4. A comment yields no token: with the cursor on a [#],
    [readNextToken] gives what it gives from one place after the rest of the
    line. The rest of the line holds no newline, and it ends on a newline or
    at the end of the input. *)
Theorem comment_is_skipped (s : CharStream)
    (H : CharStream.peek s = Some "#"%char) :
  let body := take_while (stateless Matchers.isNotEOL) tt (rest s) in
  Luthor.readNextToken s
  = Luthor.readNextToken (advance (S (String.length body)) s)
  /\ (forall n c, String.get n body = Some c -> c <> EOL)
  /\ (CharStream.peek (advance (String.length body) s) = Some EOL
      \/ CharStream.eof (advance (String.length body) s) = true).
Proof.
  intros body.
  assert (Hskip : Values.skipRestOfLine s = advance (S (String.length body)) s).
  { unfold Values.skipRestOfLine, Values.readWhile.
    fold (stateless Matchers.isNotEOL). rewrite readWhile_st_take. cbn [snd].
    fold body. replace (S (String.length body)) with (String.length body + 1) by lia.
    now rewrite advance_add. }
  split; [|split].
  - unfold Luthor.readNextToken at 1.
    assert (Hr : 0 < CharStream.remaining s).
    { destruct (CharStream.remaining s) eqn:E; [|lia].
      apply peek_None_remaining in E. congruence. }
    destruct (CharStream.remaining s) as [|k] eqn:Ek; [lia|]. step.
    rewrite (readWhile_refused s Matchers.isWhiteSpace)
      by (intros c Hc; rewrite H in Hc; now injection Hc as <-).
    cbn [snd]. unfold CharStream.eof. rewrite H.
    change (Matchers.isComment "#") with true. cbv iota.
    rewrite <- Hskip. apply readNextToken_of_loop.
    pose proof (remaining_skipRestOfLine s). lia.
  - intros n c Hg. pose proof (take_while_accepts _ _ _ _ Hg) as Hc.
    unfold Matchers.isNotEOL in Hc. intros ->.
    now rewrite Ascii.eqb_refl in Hc.
  - destruct (CharStream.peek (advance (String.length body) s)) as [c|] eqn:Hp.
    + left. rewrite peek_advance in Hp.
      pose proof (take_while_stops _ _ _ Hp) as Hc.
      unfold Matchers.isNotEOL in Hc. apply negb_false_iff, Ascii.eqb_eq in Hc.
      now subst c.
    + right. unfold CharStream.eof. now rewrite Hp.
Qed.

Lemma comment_is_skipped_witness :
  let s := CharStream.new ("# a" ++ String EOL "b") in
  CharStream.peek s = Some "#"%char
  /\ Luthor.readNextToken s = Luthor.readNextToken (advance 4 s).
Proof.
  intros s.
  assert (H : CharStream.peek s = Some "#"%char) by (vm_compute; reflexivity).
  split; [exact H|]. exact (proj1 (comment_is_skipped s H)).
Defined.

(** X5. Every token takes input: where [readNextToken] returns a token, the
    cursor has moved forward by at least one character, by calls of [next]
    only, over the same text. *)
Theorem token_consumes_input (s s' : CharStream) (t : token)
    (H : Luthor.readNextToken s = Ok (Some t, s')) :
  pos s < pos s'
  /\ stringOrReadable s' = stringOrReadable s
  /\ s' = advance (pos s' - pos s) s.
Proof.
  pose proof (readNextToken_loop_lexed (CharStream.remaining s) s) as L.
  fold (Luthor.readNextToken s) in L. rewrite H in L.
  destruct L as (j & Hj & -> & _).
  destruct (pos_advance j s) as [H1 H2]. rewrite H1, H2.
  split; [lia|]. split; [reflexivity|]. f_equal. lia.
Qed.

Lemma token_consumes_input_witness :
  let s := CharStream.new "  foo bar" in
  let s' := mkCharStream "  foo bar" 5 1 5 in
  Luthor.readNextToken s = Ok (Some (Tokens.identifier "foo"), s')
  /\ pos s < pos s'
  /\ stringOrReadable s' = stringOrReadable s
  /\ s' = advance (pos s' - pos s) s.
Proof.
  intros s s'.
  assert (H : Luthor.readNextToken s = Ok (Some (Tokens.identifier "foo"), s'))
    by (vm_compute; reflexivity).
  exact (conj H (token_consumes_input s s' _ H)).
Defined.

Lemma blank_after_whitespace (r : string) :
  blank_from false r
  = blank_from false
      (drop (String.length (take_while (stateless Matchers.isWhiteSpace) tt r)) r).
Proof.
  induction r as [|c r IH]; [reflexivity|].
  cbn [take_while stateless blank_from].
  fold (stateless Matchers.isWhiteSpace).
  destruct (Matchers.isWhiteSpace c) eqn:Hc.
  - cbn [String.length drop]. exact IH.
  - cbn [String.length drop blank_from]. now rewrite Hc.
Qed.

Lemma blank_after_comment (r : string) :
  blank_from true r
  = blank_from false
      (drop (S (String.length (take_while (stateless Matchers.isNotEOL) tt r))) r).
Proof.
  induction r as [|c r IH]; [reflexivity|].
  cbn [take_while stateless blank_from].
  fold (stateless Matchers.isNotEOL).
  destruct (Matchers.isNotEOL c) eqn:Hc.
  - cbn [String.length]. rewrite IH. reflexivity.
  - reflexivity.
Qed.

Lemma readNextToken_loop_end_blank (k : nat) :
  forall (s s' : CharStream),
    Luthor.readNextToken_loop k s = Ok (None, s') ->
    blank_from false (rest s) = true.
Proof.
  induction k as [|k IH]; intros s s'; step;
    rewrite (blank_after_whitespace (rest s));
    (assert (Hs1 : rest (snd (Values.readWhile s Matchers.isWhiteSpace))
                  = drop (String.length
                            (take_while (stateless Matchers.isWhiteSpace) tt (rest s)))
                         (rest s))
       by (unfold Values.readWhile; fold (stateless Matchers.isWhiteSpace);
           rewrite readWhile_st_take; cbn [snd]; apply rest_advance));
    rewrite <- Hs1; clear Hs1;
    set (s1 := snd (Values.readWhile s Matchers.isWhiteSpace));
    (destruct (CharStream.eof s1) eqn:He;
       [intros _; unfold CharStream.eof in He;
        destruct (CharStream.peek s1) eqn:Hp; [discriminate|];
        now rewrite (rest_peek_None _ Hp)|]);
    (destruct (CharStream.peek s1) as [c|] eqn:Hp;
       [|intros _; now rewrite (rest_peek_None _ Hp)]);
    (destruct (Matchers.isComment c) eqn:Hc;
       [|split_branches; discriminate]).
  - discriminate.
  - intros H. apply IH in H.
    assert (Hw : Matchers.isWhiteSpace c = false).
    { unfold Matchers.isComment in Hc. apply Ascii.eqb_eq in Hc. now subst c. }
    rewrite (rest_peek _ _ Hp). cbn [blank_from]. rewrite Hw, Hc.
    rewrite blank_after_comment. rewrite <- H. f_equal.
    unfold Values.skipRestOfLine, Values.readWhile.
    fold (stateless Matchers.isNotEOL). rewrite readWhile_st_take. cbn [snd].
    rewrite (rest_next (advance _ s1)), rest_advance, (rest_peek _ _ Hp).
    assert (Hn : Matchers.isNotEOL c = true).
    { unfold Matchers.isComment in Hc. apply Ascii.eqb_eq in Hc. now subst c. }
    cbn [take_while stateless]. rewrite Hn. fold (stateless Matchers.isNotEOL).
    cbn [String.length drop]. now rewrite <- drop_S.
Qed.

(** X6. [readNextToken] returns the end marker exactly when whitespace and
    comments are all that is left of the text. *)
Theorem end_of_tokens_iff_blank (s : CharStream) :
  (exists s', Luthor.readNextToken s = Ok (None, s')) <-> blank (rest s) = true.
Proof.
  split.
  - intros [s' H]. exact (readNextToken_loop_end_blank _ _ _ H).
  - intros H. exact (readNextToken_loop_blank _ s (le_n _) H).
Qed.

(** X7. What the lexer puts in a token. An identifier token holds a text
    that starts with a letter or an underscore, goes on with identifier
    characters and is no keyword; a keyword token holds one of the keywords;
    a punctuation token holds one punctuation character; an operator token a
    run of operator characters; a number token a number that is neither NaN
    nor negative; a string token any text. There is no other kind. *)
Theorem tokens_are_well_formed (s s' : CharStream) (t : token)
    (H : Luthor.readNextToken s = Ok (Some t, s')) :
  token_ok t = true.
Proof.
  pose proof (readNextToken_loop_lexed (CharStream.remaining s) s) as L.
  fold (Luthor.readNextToken s) in L. rewrite H in L.
  now destruct L as (j & _ & _ & Ht & _).
Qed.

Lemma tokens_are_well_formed_witness :
  let s := CharStream.new "12.5+x" in
  let s' := mkCharStream "12.5+x" 4 1 4 in
  Luthor.readNextToken s = Ok (Some (Tokens.numeric (Dec 12.5)), s')
  /\ token_ok (Tokens.numeric (Dec 12.5)) = true.
Proof.
  intros s s'.
  assert (H : Luthor.readNextToken s = Ok (Some (Tokens.numeric (Dec 12.5)), s'))
    by (vm_compute; reflexivity).
  exact (conj H (tokens_are_well_formed s s' _ H)).
Defined.

(** X8. Tokens are maximal. The character after an identifier or a keyword
    token is no identifier character (so a minus sign, a question mark or an
    exclamation mark right after a name belongs to the name); the character
    after an operator token is no operator character; the character after a
    number token is no digit. *)
Theorem tokens_are_maximal (s s' : CharStream) (t : token)
    (H : Luthor.readNextToken s = Ok (Some t, s')) :
  ends_before t (CharStream.peek s') = true.
Proof.
  pose proof (readNextToken_loop_lexed (CharStream.remaining s) s) as L.
  fold (Luthor.readNextToken s) in L. rewrite H in L.
  now destruct L as (j & _ & _ & _ & Hm).
Qed.

Lemma tokens_are_maximal_witness :
  let s := CharStream.new "<= 3" in
  let s' := mkCharStream "<= 3" 2 1 2 in
  Luthor.readNextToken s = Ok (Some (Tokens.operator "<="), s')
  /\ ends_before (Tokens.operator "<=") (CharStream.peek s') = true.
Proof.
  intros s s'.
  assert (H : Luthor.readNextToken s = Ok (Some (Tokens.operator "<="), s'))
    by (vm_compute; reflexivity).
  exact (conj H (tokens_are_maximal s s' _ H)).
Defined.

(** X9. The lexer has one error only. Where [readNextToken] throws, it has
    come to a character that is no whitespace, starts no comment and starts
    no token, and the exception is the syntax error Illegal character at
    this position, with that character, at the line and column where it
    stands. *)
Theorem lexer_fails_on_illegal_character (s : CharStream) (e : exception)
    (H : Luthor.readNextToken s = Throw e) :
  exists j c,
    CharStream.peek (advance j s) = Some c /\ illegal c = true
    /\ e = IllegalSyntaxError (line (advance j s)) (col (advance j s))
             ("Illegal character at this position: " ++ str1 c).
Proof.
  pose proof (readNextToken_loop_lexed (CharStream.remaining s) s) as L.
  fold (Luthor.readNextToken s) in L. rewrite H in L. exact L.
Qed.

Lemma lexer_fails_on_illegal_character_witness :
  let s := mkCharStream "a @" 1 1 1 in
  let e := IllegalSyntaxError 1 2 "Illegal character at this position: @" in
  Luthor.readNextToken s = Throw e
  /\ exists j c,
       CharStream.peek (advance j s) = Some c /\ illegal c = true
       /\ e = IllegalSyntaxError (line (advance j s)) (col (advance j s))
                ("Illegal character at this position: " ++ str1 c).
Proof.
  intros s e.
  assert (H : Luthor.readNextToken s = Throw e) by (vm_compute; reflexivity).
  exact (conj H (lexer_fails_on_illegal_character s e H)).
Defined.

Lemma numeric_run (s : string) :
  forall hasDot : bool,
    let text := take_while Values.isNumeric hasDot s in
    all_chars digit_or_dot text = true
    /\ dots text + (if hasDot then 1 else 0) <= 1
    /\ forall c, String.get (String.length text) s = Some c ->
                 Matchers.isDigit c = false
                 /\ (c = "."%char -> dots text + (if hasDot then 1 else 0) = 1).
Proof.
  induction s as [|d s IH]; intros hasDot; cbn zeta.
  - cbn. split; [reflexivity|]. split; [destruct hasDot; lia|discriminate].
  - cbn [take_while].
    destruct (Values.isNumeric hasDot d) as [b h] eqn:Hnum.
    unfold Values.isNumeric in Hnum.
    destruct (Ascii.eqb_spec "." d) as [<-|Hd].
    + destruct hasDot; injection Hnum as <- <-.
      * cbn [all_chars dots String.length String.get].
        split; [reflexivity|]. split; [lia|]. intros c [= <-]. now split.
      * destruct (IH true) as (H1 & H2 & H3). cbn zeta in *.
        cbn [all_chars dots String.length String.get]. rewrite H1.
        rewrite Ascii.eqb_refl.
        split; [reflexivity|].
        split; [lia|]. intros c Hc. destruct (H3 c Hc) as [H4 H5].
        split; [exact H4|]. intros E. specialize (H5 E). lia.
    + injection Hnum as <- <-. destruct (Matchers.isDigit d) eqn:Hdig.
      * destruct (IH hasDot) as (H1 & H2 & H3). cbn zeta in *.
        cbn [all_chars dots String.length String.get].
        unfold digit_or_dot at 1. rewrite Hdig, H1.
        apply Ascii.eqb_neq in Hd. rewrite Hd.
        split; [reflexivity|]. split; [exact H2|exact H3].
      * cbn [all_chars dots String.length String.get].
        split; [reflexivity|]. split; [destruct hasDot; lia|].
        intros c [= <-]. split; [exact Hdig|]. intros E. now subst d.
Qed.

(** X10. A number literal is the longest run of digits with at most one dot
    in it: [readNumber] returns what [parseFloat] makes of that run and
    leaves the cursor just after it. The character that follows, if any, is
    no digit, and it is a dot only where the run already holds one: a second
    dot ends the number. *)
Theorem number_literal (s : CharStream) :
  let text := take_while Values.isNumeric false (rest s) in
  Values.readNumber s = (parseFloat text, advance (String.length text) s)
  /\ all_chars digit_or_dot text = true
  /\ dots text <= 1
  /\ forall c, CharStream.peek (advance (String.length text) s) = Some c ->
               Matchers.isDigit c = false /\ (c = "."%char -> dots text = 1).
Proof.
  cbn zeta. unfold Values.readNumber. rewrite readWhile_st_take.
  destruct (numeric_run (rest s) false) as (H1 & H2 & H3). cbn zeta in *.
  split; [reflexivity|]. split; [exact H1|]. split; [lia|].
  intros c Hc. rewrite peek_advance in Hc. destruct (H3 c Hc) as [H4 H5].
  split; [exact H4|]. intros E. specialize (H5 E). lia.
Qed.

(** X11. A string literal never makes the lexer fail, and its token holds
    the text after the first character of the content, up to the first
    boundary character that no backslash escapes; an escaping backslash is
    left out and the character after it is kept. Where no such boundary
    comes, the literal runs to the end of the input. *)
Theorem string_literal_token (s : CharStream) (c0 : ascii) (body : string)
    (H : rest s = String DQUOTE (String c0 body)) :
  exists s',
    Luthor.readNextToken s = Ok (Some (Tokens.string (unescaped false body)), s')
    /\ (closes false body = false -> CharStream.eof s' = true).
Proof. exact (string_literal_value s c0 body H). Qed.

Lemma string_literal_token_witness :
  let s := CharStream.new (quoted "abc") in
  rest s = String DQUOTE (String "a" (String "b" (String "c" (str1 DQUOTE))))
  /\ exists s', Luthor.readNextToken s = Ok (Some (Tokens.string "bc"), s').
Proof.
  intros s.
  assert (H : rest s
              = String DQUOTE (String "a" (String "b" (String "c" (str1 DQUOTE)))))
    by (vm_compute; reflexivity).
  split; [exact H|].
  destruct (string_literal_token s _ _ H) as (s' & Hs' & _).
  exists s'. exact Hs'.
Defined.

(** X12. The loops of the lexer end within the characters that are left:
    [readNextToken] gives a result from every cursor, and a larger bound on
    its loop, or on the loops of [readWhile] and [readString], changes
    nothing. *)
Theorem lexer_terminates {P : Type} (predicate : P -> ascii -> bool * P)
    (p : P) (escaped : bool) (str : string) (s : CharStream) (k : nat) :
  Luthor.readNextToken s <> OutOfFuel
  /\ Luthor.readNextToken_loop (CharStream.remaining s + k) s
     = Luthor.readNextToken s
  /\ Values.readWhile_loop (CharStream.remaining s + k) predicate p str s
     = Values.readWhile_loop (CharStream.remaining s) predicate p str s
  /\ Values.readString_loop (CharStream.remaining s + k) escaped str s
     = Values.readString_loop (CharStream.remaining s) escaped str s.
Proof.
  split; [apply readNextToken_total|].
  split; [apply (readNextToken_loop_fuel _ k s (le_n _))|].
  split; [apply readWhile_loop_fuel, le_n|apply readString_loop_fuel, le_n].
Qed.

(* ------------------------------------------------------------------------- *)
(** ** The parser, on any document *)

Section Sat.

Variable s0 : CharStream.

Lemma sat_bind {A B : Type} (Q1 : A -> Luthor -> Prop) (Q : B -> Luthor -> Prop)
    (m : parser A) (f : A -> parser B) (l : Luthor) :
  sat s0 Q1 (m l) -> (forall a l', Q1 a l' -> sat s0 Q (f a l')) ->
  sat s0 Q (bind m f l).
Proof.
  unfold bind. destruct (m l) as [[a l']| |]; cbn [sat]; auto.
Qed.

Lemma sat_weaken {A : Type} (Q1 Q : A -> Luthor -> Prop)
    (r : outcome (A * Luthor)) :
  sat s0 Q1 r -> (forall a l', Q1 a l' -> Q a l') -> sat s0 Q r.
Proof. destruct r as [[a l']| |]; cbn [sat]; auto. Qed.

Lemma sat_die {A : Type} (Q : A -> Luthor -> Prop) (msg : string) (l : Luthor) :
  (stream_ok s0) l -> sat s0 Q (Luthor.die msg l).
Proof.
  intros [_ [j Hj]]. left. exists j, msg. unfold Luthor.die. now rewrite Hj.
Qed.

Lemma peek_sat (l : Luthor) :
  (stream_ok s0) l -> sat s0 (fun t l' => (stream_ok s0) l' /\ holds t l') (Luthor.peek l).
Proof.
  intros [Hc [j Hj]]. unfold Luthor.peek.
  destruct (current l) as [x|] eqn:Hx.
  - cbn [sat holds]. split; [split; [now rewrite Hx|now exists j]|exact Hx].
  - pose proof (readNextToken_loop_lexed (CharStream.remaining (stream l)) (stream l))
      as L.
    fold (Luthor.readNextToken (stream l)) in L.
    destruct (Luthor.readNextToken (stream l)) as [[[t|] s']|e|] eqn:Hr;
      cbn [sat lexed] in *.
    + destruct L as (i & _ & -> & Ht & _). split; [split|].
      * cbn [current]. now intros x [= <-].
      * exists (j + i). cbn [stream]. now rewrite Hj, advance_add.
      * reflexivity.
    + destruct L as (i & -> & He). split; [split|].
      * cbn [current]. discriminate.
      * exists (j + i). cbn [stream]. now rewrite Hj, advance_add.
      * cbn [holds]. unfold Luthor.peek. cbn [current stream].
        now rewrite (readNextToken_end_again _ _ Hr).
    + destruct L as (i & c & _ & _ & ->). left. eexists (j + i), _.
      now rewrite Hj, advance_add.
    + exact I.
Qed.

Lemma next_sat (l : Luthor) (t : option token) :
  (stream_ok s0) l -> holds t l ->
  sat s0 (fun r l' => r = t /\ (stream_ok s0) l' /\ (forall x, t = Some x -> token_ok x = true))
    (Luthor.next l).
Proof.
  intros [Hc [j Hj]] Hh. unfold Luthor.next.
  destruct t as [x|]; cbn [holds] in Hh.
  - rewrite Hh. cbn [sat]. split; [reflexivity|]. split; [split|].
    + cbn [current]. discriminate.
    + now exists j.
    + intros y [= <-]. auto.
  - unfold Luthor.peek in Hh. destruct (current l); [discriminate|].
    destruct (Luthor.readNextToken (stream l)) as [[t s']| |]; try discriminate.
    injection Hh as -> Hl. cbn [sat]. split; [reflexivity|]. split; [split|].
    + cbn [current]. discriminate.
    + exists j. cbn [stream]. rewrite <- Hj, <- Hl. reflexivity.
    + discriminate.
Qed.

(** A [next] of which nothing is known. *)
Lemma next_any_sat (l : Luthor) :
  (stream_ok s0) l -> sat s0 (fun _ l' => (stream_ok s0) l') (Luthor.next l).
Proof.
  intros Hl. pose proof (peek_sat l Hl) as Hp.
  destruct (Luthor.peek l) as [[t l1]|e|] eqn:E; cbn [sat] in Hp.
  - rewrite (peek_then_next _ _ _ E). cbn [sat].
    destruct Hp as [[Hc [j Hj]] _]. split; [cbn [current]; discriminate|].
    now exists j.
  - unfold Luthor.peek, Luthor.next in *. destruct (current l); [discriminate|].
    destruct (Luthor.readNextToken (stream l)) as [[t s']| |]; try discriminate.
    injection E as <-. exact Hp.
  - unfold Luthor.peek, Luthor.next in *. destruct (current l); [discriminate|].
    now destruct (Luthor.readNextToken (stream l)) as [[t s']| |].
Qed.

Lemma eof_sat (l : Luthor) :
  (stream_ok s0) l ->
  sat s0 (fun b l' => (stream_ok s0) l' /\ (b = true -> holds None l')) (Luthor.eof l).
Proof.
  intros Hl. pose proof (peek_sat l Hl) as Hp. unfold Luthor.eof.
  destruct (Luthor.peek l) as [[t l1]|e|]; cbn [sat] in *; auto.
  destruct Hp as [H1 H2]. split; [exact H1|]. now destruct t.
Qed.

Lemma die_if_sat (c : bool) (msg : string) (l : Luthor) :
  (stream_ok s0) l -> sat s0 (fun _ l' => l' = l /\ c = false) (die_if c msg l).
Proof.
  intros Hl. destruct c; [now apply sat_die|]. cbn. auto.
Qed.

Lemma expectPunc_sat (char : string) (l : Luthor) :
  (stream_ok s0) l -> sat s0 (fun _ l' => (stream_ok s0) l') (Parsicle.expectPunc char l).
Proof.
  intros Hl. unfold Parsicle.expectPunc.
  eapply sat_bind; [now apply peek_sat|]. intros t l1 [H1 H2].
  eapply sat_bind; [now apply die_if_sat|]. intros _ l2 [-> _].
  now apply next_any_sat.
Qed.

Lemma expectIdentifier_sat (l : Luthor) :
  (stream_ok s0) l ->
  sat s0 (fun r l' => (stream_ok s0) l' /\ exists x, r = Some x /\ type x = "id"
                                         /\ token_ok x = true)
    (Parsicle.expectIdentifier l).
Proof.
  intros Hl. unfold Parsicle.expectIdentifier.
  eapply sat_bind; [now apply peek_sat|]. intros t l1 [H1 H2].
  eapply sat_bind; [now apply die_if_sat|]. intros _ l2 [-> Hid].
  eapply sat_weaken; [now apply (next_sat l1 t)|].
  intros r l' (-> & Hok & Ht). split; [exact Hok|].
  apply negb_false_iff in Hid. destruct t as [x|]; [|discriminate].
  exists x. split; [reflexivity|]. split; [|now apply Ht].
  unfold Types.isId, Types.checkTypeAndValue in Hid.
  rewrite andb_true_r in Hid. apply String.eqb_eq in Hid. now symmetry.
Qed.

Lemma expectOps_sat (operators : list string) (l : Luthor) :
  (stream_ok s0) l ->
  sat s0 (fun r l' => (stream_ok s0) l' /\ exists x, r = Some x)
    (Parsicle.expectOps operators l).
Proof.
  intros Hl. unfold Parsicle.expectOps.
  eapply sat_bind; [now apply peek_sat|]. intros t l1 [H1 H2].
  eapply sat_bind; [now apply die_if_sat|]. intros _ l2 [-> Hop].
  eapply sat_weaken; [now apply (next_sat l1 t)|].
  intros r l' (-> & Hok & _). split; [exact Hok|].
  destruct t as [x|]; [now exists x|discriminate].
Qed.

Lemma isOneOfType_sat (t : option token) (types : list string) (l : Luthor) :
  sat s0 (fun b l' => l' = l /\ exists x, t = Some x
                      /\ b = found (Matchers.list_indexOf types (type x)))
    (Types.isOneOfType t types l).
Proof.
  destruct t as [x|]; cbn; [|now right]. split; [reflexivity|]. now exists x.
Qed.

Lemma value_of_sat (t : option token) (l : Luthor) :
  (exists x, t = Some x) ->
  sat s0 (fun v l' => l' = l /\ exists x, t = Some x /\ v = tvalue x)
    (Parsicle.value_of t l).
Proof.
  intros [x ->]. cbn. split; [reflexivity|]. now exists x.
Qed.

Lemma parsicle_die_sat {A : Type} (Q : A -> Luthor -> Prop) (l : Luthor) :
  (stream_ok s0) l -> sat s0 Q (Parsicle.die l).
Proof.
  intros Hl. unfold Parsicle.die.
  eapply sat_bind; [now apply peek_sat|]. intros t l1 [H1 _].
  now apply sat_die.
Qed.

Ltac sat_with lem := eapply sat_bind; [apply lem; eauto|cbv beta].

Section Delimited.

Variables (stop separator : string) (parserFn : parser node).
Variable item_ok : node -> bool.
Hypothesis parserFn_sat : forall l, (stream_ok s0) l -> sat s0 (with_ok s0 item_ok) (parserFn l).

Lemma delimited_loop_sat (k : nat) :
  forall first body l,
    forallb item_ok body = true -> (stream_ok s0) l ->
    sat s0 (with_ok s0 (forallb item_ok))
      (Parsicle.delimited_loop k stop separator parserFn first body l).
Proof.
  induction k as [|k IH]; intros first body l Hb Hl; [exact I|].
  rewrite Eqns.delimited_loop_S.
  sat_with eof_sat. intros e l1 [H1 _]. destruct e; [now split|].
  sat_with peek_sat. intros t l2 [H2 _].
  destruct (Types.isPunc t (Some stop)); [now split|].
  eapply (sat_bind (fun _ l' => (stream_ok s0) l')).
  { destruct first; [exact H2|now apply expectPunc_sat]. }
  intros _ l3 H3.
  sat_with peek_sat. intros t' l4 [H4 _].
  destruct (Types.isPunc t' (Some stop)); [now split|].
  sat_with parserFn_sat. intros x l5 [Hx H5].
  apply IH; [|exact H5].
  rewrite forallb_app, Hb. cbn [forallb]. now rewrite Hx.
Qed.

Lemma delimited_sat (k : nat) (start : string) (l : Luthor) :
  (stream_ok s0) l ->
  sat s0 (with_ok s0 (forallb item_ok))
    (Parsicle.delimited k start stop separator parserFn l).
Proof.
  intros Hl. unfold Parsicle.delimited.
  sat_with expectPunc_sat. intros _ l1 H1.
  eapply sat_bind; [now apply delimited_loop_sat|]. intros body l2 [Hb H2].
  sat_with expectPunc_sat. intros _ l3 H3. now split.
Qed.

End Delimited.

Lemma token_ok_identifier (x : token) :
  type x = "id" -> token_ok x = true ->
  exists w, x = Tokens.identifier w.
Proof.
  destruct x as [ty [w|q]]; cbn [type]; intros ->.
  - now exists w.
  - discriminate.
Qed.

Lemma tree_ok_binaryExpression (op : string) (p : nat) (l r : node) :
  lookup PRECEDENCE op = Some p ->
  tree_ok l = true -> tree_ok r = true ->
  tree_ok (Nodes.binaryExpression op l r) = true.
Proof.
  intros Hp Hl Hr. unfold Nodes.binaryExpression. cbn [tree_ok].
  rewrite String.eqb_refl, Hp, Hr, Hl.
  replace (is_minus_one l) with false; [reflexivity|].
  destruct l; try reflexivity. discriminate.
Qed.

Lemma parsers_sat (n : nat) :
  (forall l, (stream_ok s0) l -> sat s0 (with_ok s0 tree_ok) (Parsicle.expression n l))
  /\ (forall l, (stream_ok s0) l -> sat s0 (with_ok s0 tree_ok) (Parsicle.parenthetical n l))
  /\ (forall l, (stream_ok s0) l -> sat s0 (with_ok s0 tree_ok) (Parsicle.block n l))
  /\ (forall l, (stream_ok s0) l -> sat s0 (with_ok s0 tree_ok) (Parsicle.rule n l))
  /\ (forall l, (stream_ok s0) l -> sat s0 (with_ok s0 tree_ok) (Parsicle.signed n l))
  /\ (forall l, (stream_ok s0) l -> sat s0 (with_ok s0 tree_ok) (Parsicle.discrete n l))
  /\ (forall leftNode p l, tree_ok leftNode = true -> (stream_ok s0) l ->
        sat s0 (with_ok s0 tree_ok)
          (Parsicle.resolveOperatorBindings n leftNode p l))
  /\ (forall callable,
        (forall l, (stream_ok s0) l -> sat s0 (with_ok s0 tree_ok) (callable l)) ->
        forall l, (stream_ok s0) l ->
          sat s0 (with_ok s0 tree_ok) (Parsicle.handleInvocation n callable l)).
Proof.
  induction n as [|n (He & Hp & Hb & Hr & Hs & Hd & Ho & Hh)].
  - repeat apply conj; intros; exact I.
  - repeat apply conj.
    + (* expression *)
      intros l Hl. rewrite Eqns.expression_S. apply Hh; [|exact Hl].
      intros l0 H0. sat_with Hd. intros d l1 [Hd1 H1]. now apply Ho.
    + (* parenthetical *)
      intros l Hl. rewrite Eqns.parenthetical_S.
      sat_with expectPunc_sat. intros _ l1 H1.
      sat_with He. intros x l2 [Hx H2].
      sat_with expectPunc_sat. intros _ l3 H3. now split.
    + (* block *)
      intros l Hl. rewrite Eqns.block_S.
      eapply sat_bind; [now apply (delimited_sat _ _ _ tree_ok He)|].
      intros body l1 [Hbody H1].
      destruct body as [|x [|y body]]; split; try assumption.
      cbn [forallb] in Hbody. now rewrite andb_true_r in Hbody.
    + (* rule *)
      intros l Hl. rewrite Eqns.rule_S.
      sat_with next_any_sat. intros _ l1 H1.
      sat_with peek_sat. intros t l2 [H2 _].
      eapply (sat_bind (fun name l' => name_ok name = true /\ (stream_ok s0) l')).
      { destruct (Types.isId t None); [|now split].
        sat_with expectIdentifier_sat. intros i l3 [H3 (x & -> & Hty & Hx)].
        sat_with value_of_sat. intros v l4 [-> (y & [= <-] & ->)].
        split; [|exact H3].
        destruct (token_ok_identifier _ Hty Hx) as [w ->]. exact Hx. }
      intros name l3 [Hname H3].
      sat_with peek_sat. intros t' l4 [H4 _].
      sat_with die_if_sat. intros _ l5 [-> _].
      eapply sat_bind.
      { apply (delimited_sat _ _ _ param_ok); [|exact H4].
        intros l0 H0. sat_with expectIdentifier_sat.
        intros i l6 [H6 (x & -> & Hty & Hx)]. split; [|exact H6].
        cbn [js param_ok]. now rewrite Hty, Hx. }
      intros args l6 [Hargs H6].
      sat_with peek_sat. intros t'' l7 [H7 _].
      sat_with die_if_sat. intros _ l8 [-> _].
      sat_with Hb. intros body l9 [Hbody H9].
      split; [|exact H9]. unfold Nodes.rule. cbn [tree_ok].
      now rewrite Hname, Hargs, Hbody.
    + (* signed *)
      intros l Hl. rewrite Eqns.signed_S.
      sat_with expectOps_sat. intros sign l1 [H1 Hsign].
      sat_with peek_sat. intros t l2 [H2 _].
      eapply (sat_bind (fun _ l' => l' = l2)).
      { destruct (Types.isPunc t (Some "(")); [reflexivity|].
        eapply sat_weaken; [apply isOneOfType_sat|]. now intros b l' [-> _]. }
      intros b l3 ->.
      sat_with die_if_sat. intros _ l4 [-> _].
      sat_with value_of_sat. intros v l5 [-> _].
      assert (Hminus : forall l0, (stream_ok s0) l0 ->
                sat s0 (with_ok s0 tree_ok)
                  ((d <- Parsicle.discrete n ;;
                    ret (Nodes.binaryExpression "*" (Prim (VNumber (Dec (-1)))) d))
                     l0)).
      { intros l0 H0. sat_with Hd. intros d l6 [Hd6 H6]. split; [|exact H6].
        unfold Nodes.binaryExpression. cbn [tree_ok]. now rewrite Hd6. }
      destruct v as [w|q]; [|now apply Hd].
      destruct w as [|c w]; [now apply Hd|].
      destruct (Ascii.eqb c "-") eqn:Hc.
      * apply Ascii.eqb_eq in Hc. subst c.
        destruct w; [now apply Hminus|now apply Hd].
      * destruct c as [[|] [|] [|] [|] [|] [|] [|] [|]];
          try discriminate Hc; now apply Hd.
    + (* discrete *)
      intros l Hl. rewrite Eqns.discrete_S. apply Hh; [|exact Hl].
      intros l0 H0. sat_with peek_sat. intros t l1 [H1 Hholds].
      destruct (Types.isPunc t (Some "(")); [now apply Hp|].
      destruct (Types.isPunc t (Some "{")); [now apply Hb|].
      destruct (Types.isKw t (Some "rule")); [now apply Hr|].
      destruct (Types.isOp t (Some "-") || Types.isOp t (Some "+"));
        [now apply Hs|].
      sat_with isOneOfType_sat. intros leaf l2 [-> (x & -> & ->)].
      fold (is_atom x). destruct (is_atom x) eqn:Hatom;
        [|now apply parsicle_die_sat].
      eapply sat_bind; [now apply (next_sat l1 (Some x))|].
      intros r l3 (-> & H3 & Hx). split; [|exact H3].
      cbn [js tree_ok]. now rewrite Hatom, (Hx x eq_refl).
    + (* resolveOperatorBindings *)
      intros leftNode p l Hleft Hl. rewrite Eqns.resolveOperatorBindings_S.
      sat_with peek_sat. intros t l1 [H1 _].
      destruct (if Types.isOp t None then t else None) as [[ty [op|q]]|];
        try now split.
      destruct (lookup PRECEDENCE op) as [q|] eqn:Hq; [|now split].
      destruct (p <? q); [|now split].
      sat_with next_any_sat. intros _ l2 H2.
      sat_with Hd. intros d l3 [Hd3 H3].
      eapply sat_bind; [now apply Ho|]. intros r l4 [Hr4 H4].
      apply Ho; [|exact H4]. now apply (tree_ok_binaryExpression op q).
    + (* handleInvocation *)
      intros callable Hc l Hl. rewrite Eqns.handleInvocation_S.
      sat_with Hc. intros nd l1 [Hnd H1].
      sat_with peek_sat. intros t l2 [H2 _].
      destruct (Types.isPunc t (Some "(")); [|now split].
      eapply sat_bind; [now apply (delimited_sat _ _ _ tree_ok He)|].
      intros args l3 [Hargs H3]. split; [|exact H3].
      unfold Nodes.invocation. cbn [tree_ok]. now rewrite Hnd, Hargs.
Qed.

Lemma parse_loop_sat (n : nat) :
  forall ast l,
    ast <> [] -> forallb tree_ok ast = true -> (stream_ok s0) l ->
    sat s0 (fun trees l' => trees <> [] /\ forallb tree_ok trees = true
                            /\ (stream_ok s0) l' /\ holds None l')
      (Parsicle.parse_loop n ast l).
Proof.
  induction n as [|n IH]; intros ast l Hne Hast Hl; [exact I|].
  rewrite Eqns.parse_loop_S.
  sat_with eof_sat. intros e l1 [H1 Hend].
  destruct e; [exact (conj Hne (conj Hast (conj H1 (Hend eq_refl))))|].
  sat_with (proj1 (parsers_sat n)). intros x l2 [Hx H2].
  sat_with eof_sat. intros e l3 [H3 _].
  eapply (sat_bind (fun _ l' => (stream_ok s0) l')).
  { destruct e; [exact H3|now apply expectPunc_sat]. }
  intros _ l4 H4. apply IH; [now destruct ast| |exact H4].
  rewrite forallb_app, Hast. cbn [forallb]. now rewrite Hx.
Qed.

Lemma parse_sat (n : nat) (l : Luthor) :
  (stream_ok s0) l ->
  sat s0 (fun trees l' => trees <> [] /\ forallb tree_ok trees = true
                          /\ (stream_ok s0) l' /\ holds None l')
    (Parsicle.parse n l).
Proof.
  intros Hl. unfold Parsicle.parse.
  sat_with (proj1 (parsers_sat n)). intros x l1 [Hx H1].
  apply parse_loop_sat; [discriminate| |exact H1].
  cbn [forallb]. now rewrite Hx.
Qed.

End Sat.

Lemma stream_ok_lexer (content : string) :
  stream_ok (CharStream.new content) (lexer content).
Proof.
  split; [discriminate|]. now exists 0.
Qed.

Lemma holds_None_eof (l : Luthor) :
  holds None l -> current l = None /\ CharStream.eof (stream l) = true.
Proof.
  cbn [holds]. unfold Luthor.peek. destruct (current l); [discriminate|].
  destruct (Luthor.readNextToken (stream l)) as [[t s']| |] eqn:E;
    try discriminate.
  intros [= -> Hl]. split; [reflexivity|].
  rewrite <- Hl. cbn [stream]. apply (readNextToken_loop_end _ _ _ E).
Qed.

(** X13. The shape of what [parse] returns, for every document: at least one
    tree, and in every tree the leaves are number, string and identifier
    tokens as the lexer makes them; a binary node has an operator of the
    table [PRECEDENCE], the type assign exactly for [=], a tree on the right
    and on the left a tree or, under [*] only, the bare number -1; a block
    never has exactly one statement; the parameters of a rule are identifier
    tokens and its name, if it has one, is the text of an identifier; and
    no [null] and no keyword stands anywhere in a tree. *)
Theorem parse_returns_well_formed_trees (n : nat) (content : string)
    (trees : list node) (H : parse_string n content = Ok trees) :
  trees <> [] /\ forallb tree_ok trees = true.
Proof.
  unfold parse_string, run in H.
  change (Luthor.new (CharStream.new content)) with (lexer content) in H.
  pose proof (parse_sat _ n _ (stream_ok_lexer content)) as S.
  destruct (Parsicle.parse n (lexer content)) as [[a l']| |];
    try discriminate.
  injection H as ->. cbn [sat] in S. now destruct S as (? & ? & _).
Qed.

Lemma parse_returns_well_formed_trees_witness :
  let trees := [Call (ident "f") [num 1]] in
  parse_string 8 "f(1)" = Ok trees
  /\ trees <> [] /\ forallb tree_ok trees = true.
Proof.
  intros trees.
  assert (H : parse_string 8 "f(1)" = Ok trees) by (vm_compute; reflexivity).
  exact (conj H (parse_returns_well_formed_trees 8 "f(1)" trees H)).
Defined.

(** X14. [parse] returns only at the end of the input: in the state it
    leaves, the lookahead cache is empty and the cursor, reached by calls of
    [next] over the document, stands at or past its last character. No
    trailing text is ever left unread. *)
Theorem parse_reads_the_whole_document (n : nat) (content : string)
    (trees : list node) (l' : Luthor)
    (H : Parsicle.parse n (lexer content) = Ok (trees, l')) :
  current l' = None
  /\ (exists j, stream l' = advance j (CharStream.new content))
  /\ String.length content <= pos (stream l').
Proof.
  pose proof (parse_sat _ n _ (stream_ok_lexer content)) as S.
  rewrite H in S. cbn [sat] in S. destruct S as (_ & _ & [_ [j Hj]] & Hend).
  destruct (holds_None_eof _ Hend) as [Hc He].
  split; [exact Hc|]. split; [now exists j|].
  apply eof_remaining in He. unfold CharStream.remaining in He.
  rewrite Hj in *. destruct (pos_advance j (CharStream.new content)) as [Hp Hs].
  rewrite Hp, Hs in He. rewrite Hp. cbn [CharStream.new pos stringOrReadable] in *.
  lia.
Qed.

Lemma parse_reads_the_whole_document_witness :
  let l' := mkLuthor (mkCharStream "1 + 2 " 6 1 6) None in
  Parsicle.parse 5 (lexer "1 + 2 ")
  = Ok ([Binary "binaryExpression" "+" (num 1) (num 2)], l')
  /\ current l' = None
  /\ (exists j, stream l' = advance j (CharStream.new "1 + 2 "))
  /\ String.length "1 + 2 " <= pos (stream l').
Proof.
  intros l'.
  assert (H : Parsicle.parse 5 (lexer "1 + 2 ")
              = Ok ([Binary "binaryExpression" "+" (num 1) (num 2)], l'))
    by (vm_compute; reflexivity).
  exact (conj H (parse_reads_the_whole_document 5 "1 + 2 " _ l' H)).
Defined.

(** X15. The exceptions that [parse] throws, for every document. A syntax
    error carries the line and the column of the cursor after some number of
    calls of [next] on the document. A TypeError of a property read from the
    end marker is the read of [type] in [Types.isOneOfType]: the reads of
    [value] in [rule] and [signed] are never made on the end marker. (A run
    that nests deeper than its fuel is out of fuel, not a [Throw]: the
    exhaustion of the call stack is no exception of the program text.) *)
Theorem parse_errors (n : nat) (content : string) (e : exception)
    (H : parse_string n content = Throw e) :
  match e with
  | IllegalSyntaxError ln cl _ =>
      exists j, ln = line (advance j (CharStream.new content))
                /\ cl = col (advance j (CharStream.new content))
  | TypeError message =>
      message = "Cannot read properties of null (reading 'type')"
  end.
Proof.
  unfold parse_string, run in H.
  change (Luthor.new (CharStream.new content)) with (lexer content) in H.
  pose proof (parse_sat _ n _ (stream_ok_lexer content)) as S.
  destruct (Parsicle.parse n (lexer content)) as [[a l']| |];
    try discriminate.
  injection H as ->. cbn [sat] in S.
  destruct S as [(j & msg & ->)| ->]; [|reflexivity].
  unfold CharStream.die. now exists j.
Qed.

Lemma parse_errors_witness :
  parse_string 4 "1 + )"
  = Throw (IllegalSyntaxError 1 5
             ("Unexpected token: " ++ JSON.token (Some (Tokens.punctuation ")"))))
  /\ (exists j, 1 = line (advance j (CharStream.new "1 + )"))
                /\ 5 = col (advance j (CharStream.new "1 + )")))
  /\ parse_string 4 "1 +"
     = Throw (TypeError "Cannot read properties of null (reading 'type')").
Proof.
  assert (H : parse_string 4 "1 + )"
              = Throw (IllegalSyntaxError 1 5
                         ("Unexpected token: "
                          ++ JSON.token (Some (Tokens.punctuation ")")))))
    by (vm_compute; reflexivity).
  assert (H' : parse_string 4 "1 +"
               = Throw (TypeError "Cannot read properties of null (reading 'type')"))
    by (vm_compute; reflexivity).
  exact (conj H (conj (parse_errors 4 "1 + )" _ H) H')).
Defined.

Lemma isPunc_punctuation (c c' : string) :
  Types.isPunc (Some (Tokens.punctuation c)) (Some c') = String.eqb c' c.
Proof. reflexivity. Qed.

Lemma expectPunc_delivers (c : string) (l : Luthor) (ts : list token) :
  delivers l (Tokens.punctuation c :: ts) ->
  exists l', Parsicle.expectPunc c l = Ok (Some (Tokens.punctuation c), l')
             /\ delivers l' ts.
Proof.
  intros Hd. destruct (delivers_peek _ _ Hd) as (l1 & Hp1 & Hd1).
  destruct (delivers_next _ _ _ Hd1) as (l2 & Hn2 & Hd2).
  exists l2. split; [|exact Hd2].
  unfold Parsicle.expectPunc, bind. rewrite Hp1. cbn [hd_error].
  rewrite isPunc_punctuation, String.eqb_refl. cbn [negb die_if]. exact Hn2.
Qed.

Section DelimitedList.

Variables (stop separator : string) (parserFn : parser node).
Hypothesis separator_is_not_stop : String.eqb separator stop = false.

Lemma delimited_loop_more (items : list (list token * node)) :
  forall (k : nat) (b : bool) (rest : list token) (body : list node) (l : Luthor),
    (forall ts x, In (ts, x) items -> reads separator stop parserFn ts x) ->
    delivers l (flat_map (fun ts => Tokens.punctuation separator :: ts)
                  (map fst items)
                ++ trailing b separator ++ Tokens.punctuation stop :: rest)%list ->
    exists l',
      Parsicle.delimited_loop (S (length items) + k) stop separator parserFn
        false body l
      = Ok ((body ++ map snd items)%list, l')
      /\ delivers l' (Tokens.punctuation stop :: rest).
Proof.
  induction items as [|[ts x] items IH]; intros k b rest body l Hreads Hd.
  - cbn [map flat_map app length Nat.add] in *. rewrite app_nil_r.
    rewrite Eqns.delimited_loop_S. unfold bind.
    destruct (delivers_eof _ _ Hd) as (l1 & He1 & Hd1). rewrite He1.
    destruct (delivers_peek _ _ Hd1) as (l2 & Hp2 & Hd2).
    destruct b; cbn [trailing app hd_error is_end] in *.
    + rewrite Hp2, isPunc_punctuation, String.eqb_sym, separator_is_not_stop.
      destruct (expectPunc_delivers _ _ _ Hd2) as (l3 & Hx3 & Hd3). rewrite Hx3.
      destruct (delivers_peek _ _ Hd3) as (l4 & Hp4 & Hd4). rewrite Hp4.
      cbn [hd_error]. rewrite isPunc_punctuation, String.eqb_refl.
      exists l4. now split.
    + rewrite Hp2, isPunc_punctuation, String.eqb_refl. exists l2. now split.
  - cbn [map flat_map app length Nat.add fst snd] in *.
    rewrite <- app_assoc in Hd. cbn [app] in Hd.
    rewrite Eqns.delimited_loop_S. unfold bind.
    destruct (delivers_eof _ _ Hd) as (l1 & He1 & Hd1). rewrite He1.
    destruct (delivers_peek _ _ Hd1) as (l2 & Hp2 & Hd2).
    cbn [hd_error is_end] in *.
    rewrite Hp2, isPunc_punctuation, String.eqb_sym, separator_is_not_stop.
    destruct (expectPunc_delivers _ _ _ Hd2) as (l3 & Hx3 & Hd3). rewrite Hx3.
    destruct (Hreads ts x (or_introl eq_refl)) as [Hopens Hitem].
    destruct (delivers_peek _ _ Hd3) as (l4 & Hp4 & Hd4). rewrite Hp4.
    destruct ts as [|t ts]; [discriminate|]. cbn [opens app hd_error] in *.
    apply negb_true_iff in Hopens. rewrite Hopens.
    assert (Hclosing :
              closing separator stop
                (flat_map (fun ts => Tokens.punctuation separator :: ts)
                   (map fst items)
                 ++ trailing b separator ++ Tokens.punctuation stop :: rest)%list
              = true).
    { destruct items as [|[ts' x'] items]; [destruct b|];
        cbn [map flat_map app trailing closing fst];
        rewrite !isPunc_punctuation, ?String.eqb_refl, ?orb_true_r; reflexivity. }
    destruct (Hitem l4 _ Hclosing Hd4) as (l5 & Hf5 & Hd5). rewrite Hf5.
    destruct (IH k b rest (body ++ [x])%list l5) as (l6 & Hl6 & Hd6).
    + intros ts' x' Hin. apply Hreads. now right.
    + exact Hd5.
    + exists l6. split; [|exact Hd6]. cbn [Nat.add] in Hl6. rewrite Hl6.
      now rewrite <- app_assoc.
Qed.

Lemma delimited_list (start : string) (items : list (list token * node))
    (k : nat) (b : bool) (rest : list token) (l : Luthor) :
  (forall ts x, In (ts, x) items -> reads separator stop parserFn ts x) ->
  (items = [] -> b = false) ->
  delivers l (Tokens.punctuation start
              :: separated separator (map fst items)
              ++ trailing b separator ++ Tokens.punctuation stop :: rest)%list ->
  exists l',
    Parsicle.delimited (S (length items) + k) start stop separator parserFn l
    = Ok (map snd items, l')
    /\ delivers l' rest.
Proof.
  intros Hreads Hb Hd. unfold Parsicle.delimited, bind.
  destruct (expectPunc_delivers _ _ _ Hd) as (l1 & Hx1 & Hd1). rewrite Hx1.
  assert (Hloop : exists l',
             Parsicle.delimited_loop (S (length items) + k) stop separator
               parserFn true [] l1
             = Ok (map snd items, l')
             /\ delivers l' (Tokens.punctuation stop :: rest)).
  { destruct items as [|[ts x] items].
    - rewrite (Hb eq_refl) in Hd1.
      cbn [map separated trailing app length Nat.add] in *.
      rewrite Eqns.delimited_loop_S. unfold bind.
      destruct (delivers_eof _ _ Hd1) as (l2 & He2 & Hd2). rewrite He2.
      destruct (delivers_peek _ _ Hd2) as (l3 & Hp3 & Hd3).
      cbn [hd_error is_end] in *.
      rewrite Hp3, isPunc_punctuation, String.eqb_refl. exists l3. now split.
    - cbn [map separated length Nat.add fst snd] in *.
      rewrite <- app_assoc in Hd1.
      destruct (Hreads ts x (or_introl eq_refl)) as [Hopens Hitem].
      destruct ts as [|t ts]; [discriminate|]. cbn [opens app hd_error] in *.
      apply negb_true_iff in Hopens.
      rewrite Eqns.delimited_loop_S. unfold bind.
      destruct (delivers_eof _ _ Hd1) as (l2 & He2 & Hd2). rewrite He2.
      destruct (delivers_peek _ _ Hd2) as (l3 & Hp3 & Hd3).
      cbn [hd_error is_end] in *. rewrite Hp3, Hopens. unfold ret at 1.
      destruct (delivers_peek _ _ Hd3) as (l4 & Hp4 & Hd4).
      cbn [hd_error] in *. rewrite Hp4, Hopens.
      assert (Hclosing :
                closing separator stop
                  (flat_map (fun ts => Tokens.punctuation separator :: ts)
                     (map fst items)
                   ++ trailing b separator ++ Tokens.punctuation stop :: rest)%list
                = true).
      { destruct items as [|[ts' x'] items]; [destruct b|];
          cbn [map flat_map app trailing closing fst];
          rewrite !isPunc_punctuation, ?String.eqb_refl, ?orb_true_r;
          reflexivity. }
      destruct (Hitem l4 _ Hclosing Hd4) as (l5 & Hf5 & Hd5). rewrite Hf5.
      destruct (delimited_loop_more items k b rest ([] ++ [x])%list l5)
        as (l6 & Hl6 & Hd6).
      + intros ts' x' Hin. apply Hreads. now right.
      + exact Hd5.
      + exists l6. split; [|exact Hd6]. cbn [Nat.add app] in *. exact Hl6. }
  destruct Hloop as (l2 & Hl2 & Hd2). rewrite Hl2.
  destruct (expectPunc_delivers _ _ _ Hd2) as (l3 & Hx3 & Hd3). rewrite Hx3.
  exists l3. now split.
Qed.

End DelimitedList.

Ltac delivered :=
  repeat (eapply delivers_token; [vm_compute; reflexivity|]);
  eapply delivers_end; vm_compute; reflexivity.

(** X16. What [delimited] accepts and returns. Let the token stream deliver
    the opening punctuation, then items with the separator between them,
    then the separator once more or not, then the closing punctuation; let
    [parserFn] read each item as its node wherever the item stands in such a
    list. Then [delimited] returns the nodes of the items in their order and
    leaves the stream after the closing punctuation. The list may be empty,
    and the separator may follow the last item but not stand alone. *)
Theorem delimited_items (start stop separator : string) (parserFn : parser node)
    (items : list (list token * node)) (k : nat) (b : bool)
    (rest : list token) (l : Luthor)
    (Hsep : String.eqb separator stop = false)
    (Hitems : forall ts x, In (ts, x) items ->
                reads separator stop parserFn ts x)
    (Hb : items = [] -> b = false)
    (Hd : delivers l (Tokens.punctuation start
                      :: separated separator (map fst items)
                      ++ trailing b separator
                      ++ Tokens.punctuation stop :: rest)%list) :
  exists l',
    Parsicle.delimited (S (length items) + k) start stop separator parserFn l
    = Ok (map snd items, l')
    /\ delivers l' rest.
Proof.
  exact (delimited_list stop separator parserFn Hsep start items k b rest l
           Hitems Hb Hd).
Qed.

Lemma stopper_resolve (ts : list token) (p : nat) :
  stopper ts = true ->
  match hd_error ts with
  | Some {| type := ty; tvalue := VString op |} =>
      String.eqb "op" ty = false
      \/ match binding_power op with Some bp => bp <= p | None => True end
  | Some _ => True
  | None => True
  end.
Proof.
  intros Hs. destruct ts as [|[ty [v|x]] ts]; cbn [hd_error]; auto.
  left. cbn [stopper] in Hs. apply andb_true_iff in Hs.
  destruct Hs as [Hs _]. now apply negb_true_iff in Hs.
Qed.

Lemma stopper_not_paren (ts : list token) :
  stopper ts = true -> not_paren ts = true.
Proof. exact (not_paren_chain [] ts). Qed.

Lemma expression_atom (k : nat) (l : Luthor) (a : token) (ts : list token) :
  is_atom a = true -> stopper ts = true -> delivers l (a :: ts) ->
  exists l', Parsicle.expression (4 + k) l = Ok (Leaf a, l') /\ delivers l' ts.
Proof.
  intros Ha Hs Hd.
  destruct (discrete_atom (1 + k) l a ts Ha (stopper_not_paren _ Hs) Hd)
    as (l1 & Hdis & Hd1).
  destruct (resolve_stop (Leaf a) 0 l1 ts Hd1 (stopper_resolve _ _ Hs))
    as (l2 & Hr & Hd2).
  destruct (delivers_peek _ _ Hd2) as (l3 & Hp3 & Hd3).
  exists l3. split; [|exact Hd3].
  change (4 + k) with (S (S (2 + k))).
  rewrite Eqns.expression_S, Eqns.handleInvocation_S. unfold bind.
  change (S (2 + k)) with (2 + (1 + k)) at 1. rewrite Hdis.
  change (S (2 + k)) with (1 + (2 + k)).
  rewrite (extends_Ok _ _ _ _ (resolveOperatorBindings_fuel 1 (2 + k) _ _) Hr).
  rewrite Hp3. pose proof (stopper_not_paren _ Hs) as Hnp.
  unfold not_paren in Hnp. apply negb_true_iff in Hnp. now rewrite Hnp.
Qed.

Lemma closing_stopper (separator stop : string) (ts : list token) :
  String.eqb "(" separator = false -> String.eqb "(" stop = false ->
  closing separator stop ts = true -> stopper ts = true.
Proof.
  intros H1 H2. destruct ts as [|[ty [v|x]] ts]; [discriminate| |].
  - unfold closing, stopper, Types.isPunc, Types.checkTypeAndValue.
    cbn [type tvalue]. destruct (String.eqb_spec "punc" ty) as [<-|_];
      [|discriminate].
    cbn [andb]. intros H. apply orb_true_iff in H.
    destruct H as [H|H]; apply String.eqb_eq in H; subst v.
    + now rewrite H1.
    + now rewrite H2.
  - unfold closing, Types.isPunc, Types.checkTypeAndValue. cbn [type tvalue].
    now rewrite !andb_false_r.
Qed.

Lemma reads_atom (separator stop : string) (k : nat) (a : token) :
  String.eqb "(" separator = false -> String.eqb "(" stop = false ->
  is_atom a = true ->
  reads separator stop (Parsicle.expression (4 + k)) [a] (Leaf a).
Proof.
  intros H1 H2 Ha. split.
  - cbn [opens]. now destruct (atom_tests a (Some stop) Ha) as (-> & _).
  - intros l rest Hc Hd.
    exact (expression_atom k l a rest Ha (closing_stopper _ _ _ H1 H2 Hc) Hd).
Qed.

Lemma reads_atoms (separator stop : string) (k : nat) (atoms : list token) :
  String.eqb "(" separator = false -> String.eqb "(" stop = false ->
  forallb is_atom atoms = true ->
  forall ts x,
    In (ts, x) (map (fun a => ([a], Leaf a)) atoms) ->
    reads separator stop (Parsicle.expression (4 + k)) ts x.
Proof.
  intros H1 H2 Ha ts x Hin. apply in_map_iff in Hin.
  destruct Hin as (a & [= <- <-] & Hin). apply reads_atom; try assumption.
  rewrite forallb_forall in Ha. now apply Ha.
Qed.

Lemma map_fst_atoms (atoms : list token) :
  map fst (map (fun a => ([a], Leaf a)) atoms) = map (fun a => [a]) atoms.
Proof. rewrite map_map. reflexivity. Qed.

Lemma map_snd_atoms (atoms : list token) :
  map snd (map (fun a => ([a], Leaf a)) atoms) = map Leaf atoms.
Proof. rewrite map_map. reflexivity. Qed.

Lemma delimited_atoms (start stop separator : string) (atoms : list token)
    (k : nat) (b : bool) (rest : list token) (l : Luthor) :
  String.eqb separator stop = false ->
  String.eqb "(" separator = false -> String.eqb "(" stop = false ->
  forallb is_atom atoms = true ->
  (atoms = [] -> b = false) ->
  delivers l (Tokens.punctuation start
              :: separated separator (map (fun a => [a]) atoms)
              ++ trailing b separator ++ Tokens.punctuation stop :: rest)%list ->
  exists l',
    Parsicle.delimited (4 + length atoms + k) start stop separator
      (Parsicle.expression (4 + length atoms + k)) l
    = Ok (map Leaf atoms, l')
    /\ delivers l' rest.
Proof.
  intros Hsep H1 H2 Ha Hb Hd.
  pose proof (delimited_list stop separator
                (Parsicle.expression (4 + (length atoms + k))) Hsep start
                (map (fun a => ([a], Leaf a)) atoms) (3 + k) b rest l
                (reads_atoms separator stop _ atoms H1 H2 Ha)) as H.
  rewrite map_fst_atoms, map_snd_atoms, length_map in H.
  replace (S (length atoms) + (3 + k)) with (4 + length atoms + k) in H by lia.
  replace (4 + (length atoms + k)) with (4 + length atoms + k) in H by lia.
  apply H; [|exact Hd]. intros E. apply Hb. now destruct atoms.
Qed.

Lemma block_list (n : nat) (items : list (list token * node))
    (b : bool) (rest : list token) (l : Luthor)
    (Hn : length items < n)
    (Hitems : forall ts x, In (ts, x) items ->
                reads ";" "}" (Parsicle.expression n) ts x)
    (Hb : items = [] -> b = false)
    (Hd : delivers l (Tokens.punctuation "{"
                      :: separated ";" (map fst items)
                      ++ trailing b ";" ++ Tokens.punctuation "}" :: rest)%list) :
  exists l',
    Parsicle.block (S n) l
    = Ok (match map snd items with
          | [x] => x
          | body => Block body
          end, l')
    /\ delivers l' rest.
Proof.
  rewrite Eqns.block_S. unfold bind.
  destruct (delimited_list "}" ";" (Parsicle.expression n) eq_refl "{" items
              (n - S (length items)) b rest l Hitems Hb Hd) as (l' & Hl' & Hd').
  replace (S (length items) + (n - S (length items))) with n in Hl' by lia.
  rewrite Hl'. exists l'. split; [|exact Hd'].
  now destruct (map snd items) as [|x [|y body]].
Qed.

(** X17. A block in braces, its statements separated by semicolons with an
    optional last semicolon: [block] returns the node of the statement where
    there is exactly one, and otherwise one block node with the nodes of all
    the statements in order, the empty block included. *)
Theorem block_of_statements (n : nat) (items : list (list token * node))
    (b : bool) (rest : list token) (l : Luthor)
    (Hn : length items < n)
    (Hitems : forall ts x, In (ts, x) items ->
                reads ";" "}" (Parsicle.expression n) ts x)
    (Hb : items = [] -> b = false)
    (Hd : delivers l (Tokens.punctuation "{"
                      :: separated ";" (map fst items)
                      ++ trailing b ";" ++ Tokens.punctuation "}" :: rest)%list) :
  exists l',
    Parsicle.block (S n) l
    = Ok (match map snd items with
          | [x] => x
          | body => Block body
          end, l')
    /\ delivers l' rest.
Proof. exact (block_list n items b rest l Hn Hitems Hb Hd). Qed.

Lemma delivers_block :
  delivers (lexer "{ 1; 2 }")
    [Tokens.punctuation "{"; Tokens.numeric (Dec 1); Tokens.punctuation ";";
     Tokens.numeric (Dec 2); Tokens.punctuation "}"].
Proof. delivered. Qed.

Lemma block_of_statements_witness :
  exists l',
    Parsicle.block 7 (lexer "{ 1; 2 }") = Ok (Block [num 1; num 2], l')
    /\ delivers l' [].
Proof.
  refine (block_of_statements 6
            (map (fun a => ([a], Leaf a))
               [Tokens.numeric (Dec 1); Tokens.numeric (Dec 2)])
            false [] (lexer "{ 1; 2 }") _ _ _ delivers_block).
  - cbn. lia.
  - exact (reads_atoms ";" "}" 2
             [Tokens.numeric (Dec 1); Tokens.numeric (Dec 2)]
             eq_refl eq_refl eq_refl).
  - discriminate.
Defined.

Lemma invocation_list (n : nat) (callable : parser node) (f : node)
    (items : list (list token * node)) (b : bool) (rest : list token)
    (l l1 : Luthor)
    (Hn : length items < n)
    (Hcallable : callable l = Ok (f, l1))
    (Hitems : forall ts x, In (ts, x) items ->
                reads "," ")" (Parsicle.expression n) ts x)
    (Hb : items = [] -> b = false)
    (Hd : delivers l1 (Tokens.punctuation "("
                       :: separated "," (map fst items)
                       ++ trailing b "," ++ Tokens.punctuation ")" :: rest)%list) :
  exists l',
    Parsicle.handleInvocation (S n) callable l = Ok (Call f (map snd items), l')
    /\ delivers l' rest.
Proof.
  rewrite Eqns.handleInvocation_S. unfold bind. rewrite Hcallable.
  destruct (delivers_peek _ _ Hd) as (l2 & Hp2 & Hd2). rewrite Hp2.
  cbn [hd_error]. rewrite isPunc_punctuation. cbn [String.eqb Ascii.eqb Bool.eqb].
  destruct (delimited_list ")" "," (Parsicle.expression n) eq_refl "(" items
              (n - S (length items)) b rest l2 Hitems Hb Hd2) as (l' & Hl' & Hd').
  replace (S (length items) + (n - S (length items))) with n in Hl' by lia.
  rewrite Hl'. exists l'. now split.
Qed.

(** X18. An argument list makes a call. Where the stream delivers, after
    what [callable] has read as the node [f], an opening parenthesis, then
    expressions separated by commas with an optional last comma, then a
    closing parenthesis, [handleInvocation] returns the call node of [f]
    with the nodes of the arguments in their order. *)
Theorem invocation_arguments (n : nat) (callable : parser node) (f : node)
    (items : list (list token * node)) (b : bool) (rest : list token)
    (l l1 : Luthor)
    (Hn : length items < n)
    (Hcallable : callable l = Ok (f, l1))
    (Hitems : forall ts x, In (ts, x) items ->
                reads "," ")" (Parsicle.expression n) ts x)
    (Hb : items = [] -> b = false)
    (Hd : delivers l1 (Tokens.punctuation "("
                       :: separated "," (map fst items)
                       ++ trailing b "," ++ Tokens.punctuation ")" :: rest)%list) :
  exists l',
    Parsicle.handleInvocation (S n) callable l = Ok (Call f (map snd items), l')
    /\ delivers l' rest.
Proof.
  exact (invocation_list n callable f items b rest l l1 Hn Hcallable Hitems Hb Hd).
Qed.

Lemma delivers_arguments :
  delivers (mkLuthor (mkCharStream "f(1, 2)" 1 1 1) None)
    [Tokens.punctuation "("; Tokens.numeric (Dec 1); Tokens.punctuation ",";
     Tokens.numeric (Dec 2); Tokens.punctuation ")"].
Proof. delivered. Qed.

Lemma invocation_arguments_witness :
  exists l',
    Parsicle.handleInvocation 7 (t <- Luthor.next ;; ret (js t)) (lexer "f(1, 2)")
    = Ok (Call (ident "f") [num 1; num 2], l')
    /\ delivers l' [].
Proof.
  refine (invocation_arguments 6 (t <- Luthor.next ;; ret (js t)) (ident "f")
            (map (fun a => ([a], Leaf a))
               [Tokens.numeric (Dec 1); Tokens.numeric (Dec 2)])
            false [] (lexer "f(1, 2)")
            (mkLuthor (mkCharStream "f(1, 2)" 1 1 1) None)
            _ _ _ _ delivers_arguments).
  - cbn. lia.
  - vm_compute. reflexivity.
  - exact (reads_atoms "," ")" 2
             [Tokens.numeric (Dec 1); Tokens.numeric (Dec 2)]
             eq_refl eq_refl eq_refl).
  - discriminate.
Defined.

Lemma bind_ok {A B : Type} (m : parser A) (f : A -> parser B) (l l' : Luthor)
    (a : A) :
  m l = Ok (a, l') -> bind m f l = f a l'.
Proof. intros H. unfold bind. now rewrite H. Qed.

Ltac run H := erewrite bind_ok; [|exact H]; cbv beta.

Lemma expectIdentifier_delivers (w : string) (l : Luthor) (ts : list token) :
  delivers l (Tokens.identifier w :: ts) ->
  exists l', Parsicle.expectIdentifier l = Ok (Some (Tokens.identifier w), l')
             /\ delivers l' ts.
Proof.
  intros Hd. destruct (delivers_peek _ _ Hd) as (l1 & Hp1 & Hd1).
  destruct (delivers_next _ _ _ Hd1) as (l2 & Hn2 & Hd2).
  exists l2. split; [|exact Hd2].
  unfold Parsicle.expectIdentifier, bind. rewrite Hp1. exact Hn2.
Qed.

Lemma reads_parameter (w : string) :
  reads "," ")" (i <- Parsicle.expectIdentifier ;; ret (js i))
    [Tokens.identifier w] (ident w).
Proof.
  split; [reflexivity|]. intros l rest _ Hd.
  destruct (expectIdentifier_delivers w l rest Hd) as (l' & Hl' & Hd').
  exists l'. split; [|exact Hd']. unfold bind. now rewrite Hl'.
Qed.

Lemma delivers_parameters :
  delivers (lexer "(a, b,) x")
    [Tokens.punctuation "("; Tokens.identifier "a"; Tokens.punctuation ",";
     Tokens.identifier "b"; Tokens.punctuation ","; Tokens.punctuation ")";
     Tokens.identifier "x"].
Proof. delivered. Qed.

Lemma delimited_items_witness :
  exists l',
    Parsicle.delimited 3 "(" ")" ","
      (i <- Parsicle.expectIdentifier ;; ret (js i)) (lexer "(a, b,) x")
    = Ok ([ident "a"; ident "b"], l')
    /\ delivers l' [Tokens.identifier "x"].
Proof.
  refine (delimited_items "(" ")" "," _
            [([Tokens.identifier "a"], ident "a");
             ([Tokens.identifier "b"], ident "b")]
            0 true [Tokens.identifier "x"] (lexer "(a, b,) x")
            eq_refl _ _ delivers_parameters).
  - intros ts x [E|[E|[]]]; injection E as <- <-; apply reads_parameter.
  - discriminate.
Defined.

(** X19. A rule declaration: the keyword, an optional name, then identifiers
    in parentheses separated by commas with an optional last comma, then a
    block. [rule] returns the rule node with the text of the name (or no
    name), the identifier tokens of the parameters in their order, and what
    [block] makes of the body. *)
Theorem rule_with_parameters (n : nat) (name : option string)
    (params : list string) (b : bool) (rest rest' : list token) (body : node)
    (l : Luthor)
    (Hn : length params < n)
    (Hb : params = [] -> b = false)
    (Hbody : forall l1, delivers l1 (Tokens.punctuation "{" :: rest) ->
               exists l', Parsicle.block n l1 = Ok (body, l') /\ delivers l' rest')
    (Hd : delivers l
            (Tokens.keyword "rule"
             :: name_tokens name
             ++ Tokens.punctuation "("
             :: separated "," (map (fun w => [Tokens.identifier w]) params)
             ++ trailing b "," ++ Tokens.punctuation ")"
             :: Tokens.punctuation "{" :: rest)%list) :
  exists l',
    Parsicle.rule (S n) l
    = Ok (Rule (option_map VString name) (map ident params) body, l')
    /\ delivers l' rest'.
Proof.
  rewrite Eqns.rule_S.
  set (items := map (fun w => ([Tokens.identifier w], ident w)) params).
  assert (Hfst : map fst items = map (fun w => [Tokens.identifier w]) params)
    by (unfold items; rewrite map_map; reflexivity).
  assert (Hsnd : map snd items = map ident params)
    by (unfold items; rewrite map_map; reflexivity).
  assert (Hlen : length items = length params)
    by (unfold items; apply length_map).
  assert (Hreads : forall ts x, In (ts, x) items ->
            reads "," ")" (i <- Parsicle.expectIdentifier ;; ret (js i)) ts x).
  { intros ts x Hin. apply in_map_iff in Hin.
    destruct Hin as (w & [= <- <-] & _). apply reads_parameter. }
  assert (Hnil : items = [] -> b = false).
  { intros E. apply Hb. destruct params; [reflexivity|discriminate]. }
  rewrite <- Hfst in Hd.
  destruct (delivers_next _ _ _ Hd) as (l1 & Hn1 & Hd1). run Hn1.
  destruct (delivers_peek _ _ Hd1) as (l2 & Hp2 & Hd2). run Hp2.
  assert (Hname : exists l3,
            (if Types.isId (hd_error
                   (name_tokens name
                    ++ Tokens.punctuation "("
                    :: separated "," (map fst items)
                    ++ trailing b "," ++ Tokens.punctuation ")"
                    :: Tokens.punctuation "{" :: rest)%list) None
             then (i <- Parsicle.expectIdentifier ;;
                   v <- Parsicle.value_of i ;; ret (Some v))
             else ret None) l2
            = Ok (option_map VString name, l3)
            /\ delivers l3
                 (Tokens.punctuation "("
                  :: separated "," (map fst items)
                  ++ trailing b "," ++ Tokens.punctuation ")"
                  :: Tokens.punctuation "{" :: rest)%list).
  { destruct name as [w|]; cbn [name_tokens app hd_error] in *.
    - change (Types.isId (Some (Tokens.identifier w)) None) with true.
      destruct (expectIdentifier_delivers w l2 _ Hd2) as (l3 & Hl3 & Hd3).
      exists l3. split; [|exact Hd3]. unfold bind. now rewrite Hl3.
    - change (Types.isId (Some (Tokens.punctuation "(")) None) with false.
      exists l2. now split. }
  destruct Hname as (l3 & Hnm & Hd3). run Hnm.
  destruct (delivers_peek _ _ Hd3) as (l4 & Hp4 & Hd4). run Hp4.
  cbn [hd_error]. rewrite isPunc_punctuation.
  cbn [String.eqb Ascii.eqb Bool.eqb negb die_if].
  erewrite bind_ok; [|reflexivity]. cbv beta.
  destruct (delimited_list ")" "," (i <- Parsicle.expectIdentifier ;; ret (js i))
              eq_refl "(" items (n - S (length items)) b
              (Tokens.punctuation "{" :: rest) l4 Hreads Hnil Hd4)
    as (l5 & Hl5 & Hd5).
  replace (S (length items) + (n - S (length items))) with n in Hl5 by lia.
  run Hl5. rewrite Hsnd.
  destruct (delivers_peek _ _ Hd5) as (l6 & Hp6 & Hd6). run Hp6.
  cbn [hd_error]. rewrite isPunc_punctuation.
  cbn [String.eqb Ascii.eqb Bool.eqb negb die_if].
  erewrite bind_ok; [|reflexivity]. cbv beta.
  destruct (Hbody l6 Hd6) as (l7 & Hl7 & Hd7). run Hl7.
  exists l7. now split.
Qed.

Lemma delivers_rule :
  delivers (lexer "rule f(a, b) { a }")
    [Tokens.keyword "rule"; Tokens.identifier "f"; Tokens.punctuation "(";
     Tokens.identifier "a"; Tokens.punctuation ","; Tokens.identifier "b";
     Tokens.punctuation ")"; Tokens.punctuation "{"; Tokens.identifier "a";
     Tokens.punctuation "}"].
Proof. delivered. Qed.

Lemma rule_with_parameters_witness :
  exists l',
    Parsicle.rule 7 (lexer "rule f(a, b) { a }")
    = Ok (Rule (Some (VString "f")) [ident "a"; ident "b"] (ident "a"), l')
    /\ delivers l' [].
Proof.
  refine (rule_with_parameters 6 (Some "f") ["a"; "b"] false
            [Tokens.identifier "a"; Tokens.punctuation "}"] [] (ident "a")
            (lexer "rule f(a, b) { a }") _ _ _ delivers_rule).
  - cbn. lia.
  - discriminate.
  - intros l1 Hd.
    refine (block_list 5 [([Tokens.identifier "a"], ident "a")] false [] l1
              _ _ _ Hd).
    + cbn. lia.
    + intros ts x [E|[]]. injection E as <- <-.
      exact (reads_atom ";" "}" 1 (Tokens.identifier "a")
               eq_refl eq_refl eq_refl).
    + discriminate.
Defined.

Lemma sign_tests (s : string) :
  In s ["-"; "+"] ->
  Types.isOp (Some (Tokens.operator s)) (Some "-")
  || Types.isOp (Some (Tokens.operator s)) (Some "+") = true
  /\ found (Matchers.list_indexOf ["-"; "+"] s) = true.
Proof.
  cbn [In]. intros [<-|[<-|[]]]; split; reflexivity.
Qed.

Lemma expectOps_sign (s : string) (l l0 : Luthor) :
  In s ["-"; "+"] ->
  Luthor.peek l = Ok (Some (Tokens.operator s), l0) ->
  Parsicle.expectOps ["-"; "+"] l
  = Ok (Some (Tokens.operator s), mkLuthor (stream l0) None).
Proof.
  intros Hs Hp. unfold Parsicle.expectOps. run Hp.
  change (Types.isOp (Some (Tokens.operator s)) None) with true.
  cbn [negb orb Tokens.operator tvalue].
  rewrite (proj2 (sign_tests s Hs)). cbn [negb die_if].
  erewrite bind_ok; [|reflexivity]. cbv beta.
  exact (peek_then_next _ _ _ (peek_peek _ _ _ Hp)).
Qed.

Lemma discrete_sign (n : nat) (s : string) (l l0 : Luthor) :
  In s ["-"; "+"] ->
  Luthor.peek l = Ok (Some (Tokens.operator s), l0) ->
  (current <- Luthor.peek ;;
   if Types.isPunc current (Some "(") then Parsicle.parenthetical n
   else if Types.isPunc current (Some "{") then Parsicle.block n
   else if Types.isKw current (Some "rule") then Parsicle.rule n
   else if Types.isOp current (Some "-") || Types.isOp current (Some "+")
        then Parsicle.signed n
   else
     leaf <- Types.isOneOfType current ["num"; "str"; "id"] ;;
     if leaf then (t <- Luthor.next ;; ret (js t))
     else Parsicle.die) l
  = Parsicle.signed n l0.
Proof.
  intros Hs Hp. run Hp.
  change (Types.isPunc (Some (Tokens.operator s)) (Some "(")) with false.
  change (Types.isPunc (Some (Tokens.operator s)) (Some "{")) with false.
  change (Types.isKw (Some (Tokens.operator s)) (Some "rule")) with false.
  now rewrite (proj1 (sign_tests s Hs)).
Qed.

Lemma signed_atom (k : nat) (s : string) (a : token) (ts : list token)
    (l : Luthor) :
  In s ["-"; "+"] ->
  found (Matchers.list_indexOf ["num"; "id"] (type a)) = true ->
  not_paren ts = true ->
  delivers l (Tokens.operator s :: a :: ts) ->
  exists l',
    Parsicle.signed (3 + k) l
    = Ok (if String.eqb s "-"
          then Nodes.binaryExpression "*" minus_one (Leaf a)
          else Leaf a, l')
    /\ delivers l' ts.
Proof.
  intros Hs Hty Hts Hd.
  assert (Ha : is_atom a = true).
  { unfold is_atom. cbn [Matchers.list_indexOf] in *.
    destruct (String.eqb "num" (type a)); [reflexivity|].
    destruct (String.eqb "str" (type a)); [reflexivity|].
    now destruct (String.eqb "id" (type a)). }
  destruct (delivers_peek _ _ Hd) as (l0 & Hp0 & Hd0).
  destruct (delivers_next _ _ _ Hd0) as (l1 & Hn1 & Hd1).
  destruct (delivers_peek _ _ Hd1) as (l2 & Hp2 & Hd2).
  destruct (discrete_atom k l2 a ts Ha Hts Hd2) as (l3 & Hdis & Hd3).
  exists l3. split; [|exact Hd3].
  change (3 + k) with (S (2 + k)). rewrite Eqns.signed_S.
  pose proof (expectOps_sign s l l0 Hs Hp0) as Hx.
  rewrite (peek_then_next _ _ _ (peek_peek _ _ _ Hp0)) in Hn1.
  injection Hn1 as <-.
  run Hx. run Hp2. cbn [hd_error].
  destruct (atom_tests a (Some "(") Ha) as (-> & _).
  unfold Types.isOneOfType. erewrite bind_ok; [|reflexivity]. cbv beta.
  rewrite Hty. cbn [negb die_if].
  erewrite bind_ok; [|reflexivity]. cbv beta.
  unfold Parsicle.value_of. erewrite bind_ok; [|reflexivity]. cbv beta.
  cbn [Tokens.operator tvalue].
  cbn [In] in Hs. destruct Hs as [<-|[<-|[]]].
  - cbn [String.eqb Ascii.eqb Bool.eqb]. run Hdis. reflexivity.
  - exact Hdis.
Qed.

Lemma sign_refused (k : nat) (s : string) (t : option token) (l l0 l2 : Luthor) :
  In s ["-"; "+"] ->
  Luthor.peek l = Ok (Some (Tokens.operator s), l0) ->
  Luthor.peek (mkLuthor (stream l0) None) = Ok (t, l2) ->
  (forall x, t = Some x -> signable x = false) ->
  Parsicle.signed (S k) l0
  = Throw (match t with
           | Some _ =>
               IllegalSyntaxError (line (stream l2)) (col (stream l2))
                 "Expected signed expression"
           | None =>
               TypeError "Cannot read properties of null (reading 'type')"
           end).
Proof.
  intros Hs Hp Hp2 Ht. rewrite Eqns.signed_S.
  pose proof (expectOps_sign s l0 l0 Hs (peek_peek _ _ _ Hp)) as Hx.
  run Hx. run Hp2. destruct t as [x|].
  - specialize (Ht x eq_refl). unfold signable in Ht.
    apply orb_false_iff in Ht. destruct Ht as [-> Ht].
    unfold Types.isOneOfType. erewrite bind_ok; [|reflexivity]. cbv beta.
    rewrite Ht. reflexivity.
  - reflexivity.
Qed.

(** X20. A sign before a number or an identifier: [discrete] returns the
    product of the bare number -1 and the operand for a minus sign, and the
    operand itself for a plus sign. *)
Theorem sign_before_an_operand (k : nat) (s : string) (a : token)
    (ts : list token) (l : Luthor)
    (Hs : In s ["-"; "+"])
    (Ha : found (Matchers.list_indexOf ["num"; "id"] (type a)) = true)
    (Hts : not_paren ts = true)
    (Hd : delivers l (Tokens.operator s :: a :: ts)) :
  exists l',
    Parsicle.discrete (5 + k) l
    = Ok (if String.eqb s "-"
          then Binary "binaryExpression" "*" minus_one (Leaf a)
          else Leaf a, l')
    /\ delivers l' ts.
Proof.
  destruct (delivers_peek _ _ Hd) as (l0 & Hp0 & Hd0).
  destruct (signed_atom (1 + k) s a ts l0 Hs Ha Hts Hd0) as (l1 & Hl1 & Hd1).
  destruct (delivers_peek _ _ Hd1) as (l2 & Hp2 & Hd2).
  exists l2. split; [|exact Hd2].
  change (5 + k) with (S (S (3 + k))).
  rewrite Eqns.discrete_S, Eqns.handleInvocation_S.
  erewrite bind_ok;
    [|rewrite (discrete_sign _ s l l0 Hs Hp0); exact Hl1].
  cbv beta. run Hp2.
  unfold not_paren in Hts. apply negb_true_iff in Hts. now rewrite Hts.
Qed.

Lemma delivers_signed :
  delivers (lexer "-x") [Tokens.operator "-"; Tokens.identifier "x"].
Proof. delivered. Qed.

Lemma sign_before_an_operand_witness :
  exists l',
    Parsicle.discrete 5 (lexer "-x")
    = Ok (Binary "binaryExpression" "*" minus_one (ident "x"), l')
    /\ delivers l' [].
Proof.
  exact (sign_before_an_operand 0 "-" (Tokens.identifier "x") [] (lexer "-x")
           (or_introl eq_refl) eq_refl eq_refl delivers_signed).
Defined.

(** X21. A sign before anything but an opening parenthesis, a number or an
    identifier (a string, a second sign, a keyword, ...) is refused: the
    expression raises the syntax error Expected signed expression at the
    place of the cursor, which then stands after the token that follows the
    sign; and a sign at the very end of the input raises the TypeError of
    reading [type] from the end marker. *)
Theorem sign_before_anything_else (k : nat) (s : string) (t : option token)
    (l l0 l2 : Luthor)
    (Hs : In s ["-"; "+"])
    (Hsign : Luthor.peek l = Ok (Some (Tokens.operator s), l0))
    (Hnext : Luthor.peek (mkLuthor (stream l0) None) = Ok (t, l2))
    (Ht : forall x, t = Some x -> signable x = false) :
  Parsicle.expression (3 + k) l
  = Throw (match t with
           | Some _ =>
               IllegalSyntaxError (line (stream l2)) (col (stream l2))
                 "Expected signed expression"
           | None =>
               TypeError "Cannot read properties of null (reading 'type')"
           end).
Proof.
  change (3 + k) with (S (S (S k))).
  rewrite Eqns.expression_S, Eqns.handleInvocation_S, Eqns.discrete_S,
    Eqns.handleInvocation_S.
  unfold bind at 1 2 3.
  rewrite (discrete_sign _ s l l0 Hs Hsign).
  now rewrite (sign_refused k s t l l0 l2 Hs Hsign Hnext Ht).
Qed.

Lemma sign_before_anything_else_witness :
  Parsicle.expression 3 (lexer "- -1")
  = Throw (IllegalSyntaxError 1 3 "Expected signed expression").
Proof.
  refine (sign_before_anything_else 0 "-" (Some (Tokens.operator "-"))
            (lexer "- -1")
            (mkLuthor (mkCharStream "- -1" 1 1 1) (Some (Tokens.operator "-")))
            (mkLuthor (mkCharStream "- -1" 3 1 3) (Some (Tokens.operator "-")))
            (or_introl eq_refl) _ _ _).
  - vm_compute. reflexivity.
  - vm_compute. reflexivity.
  - intros x [= <-]. reflexivity.
Defined.

(** X22. Parentheses leave no node in the tree: for an expression of atoms
    and recognized operators in parentheses, [parenthetical] returns the very
    tree that the resolver builds for the expression inside, and the stream
    is left after the closing parenthesis. *)
Theorem parentheses_build_no_node (l : Luthor) (a0 : token) (c : chain)
    (rest : list token) (T : node)
    (Ha : is_atom a0 = true)
    (HT : Climb (Leaf a0) 0 c T [])
    (Hd : delivers l (Tokens.punctuation "("
                      :: a0 :: chain_tokens c
                      ++ Tokens.punctuation ")" :: rest)%list) :
  exists n l',
    (forall k, Parsicle.parenthetical (n + k) l = Ok (T, l'))
    /\ delivers l' rest.
Proof.
  destruct (expectPunc_delivers _ _ _ Hd) as (l1 & Hx1 & Hd1).
  destruct (expression_climb l1 a0 c (Tokens.punctuation ")" :: rest) T Ha
              eq_refl HT Hd1) as (n & l2 & He & Hd2).
  destruct (expectPunc_delivers _ _ _ Hd2) as (l3 & Hx3 & Hd3).
  exists (S n), l3. split; [|exact Hd3]. intros k. cbn [Nat.add].
  rewrite Eqns.parenthetical_S. run Hx1. run (He k). run Hx3. reflexivity.
Qed.

Lemma delivers_parenthetical :
  delivers (lexer "(1 + 2) * 3")
    [Tokens.punctuation "("; Tokens.numeric (Dec 1); Tokens.operator "+";
     Tokens.numeric (Dec 2); Tokens.punctuation ")"; Tokens.operator "*";
     Tokens.numeric (Dec 3)].
Proof. delivered. Qed.

Lemma parentheses_build_no_node_witness :
  exists n l',
    (forall k, Parsicle.parenthetical (n + k) (lexer "(1 + 2) * 3")
               = Ok (Binary "binaryExpression" "+" (num 1) (num 2), l'))
    /\ delivers l' [Tokens.operator "*"; Tokens.numeric (Dec 3)].
Proof.
  refine (parentheses_build_no_node (lexer "(1 + 2) * 3")
            (Tokens.numeric (Dec 1)) [("+", Tokens.numeric (Dec 2))]
            [Tokens.operator "*"; Tokens.numeric (Dec 3)]
            (Binary "binaryExpression" "+" (num 1) (num 2))
            eq_refl _ delivers_parenthetical).
  eapply (Climb_step _ _ _ 0 20);
    [reflexivity|lia|reflexivity|apply Climb_end|apply Climb_end].
Defined.

Lemma remaining_advance (j : nat) (s : CharStream) :
  CharStream.remaining (advance j s) = CharStream.remaining s - j.
Proof.
  revert s. induction j as [|j IH]; intros s; cbn [advance]; [lia|].
  rewrite IH, remaining_next. lia.
Qed.

Lemma readNextToken_remaining (s : CharStream) :
  match Luthor.readNextToken s with
  | Ok (Some _, s') => CharStream.remaining s' < CharStream.remaining s
  | Ok (None, s') => CharStream.remaining s' <= CharStream.remaining s
  | Throw _ => True
  | OutOfFuel => False
  end.
Proof.
  pose proof (readNextToken_loop_lexed (CharStream.remaining s) s) as L.
  fold (Luthor.readNextToken s) in L.
  pose proof (readNextToken_total s) as T.
  destruct (Luthor.readNextToken s) as [[[t|] s']|e|] eqn:E; cbn [lexed] in L.
  - destruct L as (j & Hj & -> & _). rewrite remaining_advance.
    destruct (CharStream.remaining s) eqn:Hr; [|lia].
    apply eof_remaining in Hr.
    unfold Luthor.readNextToken in E.
    rewrite (readNextToken_loop_eof _ _ Hr) in E. discriminate.
  - destruct L as (j & -> & _). rewrite remaining_advance. lia.
  - exact I.
  - now apply T.
Qed.

Section Runs.

Context {A B : Type}.

Lemma runs_then (b : bool) (Q1 : A -> Luthor -> Prop)
    (Q : B -> Luthor -> Prop) (m : parser A) (f : A -> parser B) (l : Luthor) :
  runs false Q1 l (m l) ->
  (forall a l1, Q1 a l1 -> measure l1 <= measure l -> runs b Q l1 (f a l1)) ->
  runs b Q l (bind m f l).
Proof.
  unfold bind. destruct (m l) as [[a l1]| |]; cbn [runs]; auto.
  intros [HQ Hm] Hf. specialize (Hf a l1 HQ Hm).
  destruct (f a l1) as [[x l2]| |]; cbn [runs] in *; auto.
  destruct Hf as [Hx H2]. split; [exact Hx|]. destruct b; lia.
Qed.

Lemma runs_first (b : bool) (Q1 : A -> Luthor -> Prop)
    (Q : B -> Luthor -> Prop) (m : parser A) (f : A -> parser B) (l : Luthor) :
  runs true Q1 l (m l) ->
  (forall a l1, Q1 a l1 -> measure l1 < measure l -> runs false Q l1 (f a l1)) ->
  runs b Q l (bind m f l).
Proof.
  unfold bind. destruct (m l) as [[a l1]| |]; cbn [runs]; auto.
  intros [HQ Hm] Hf. specialize (Hf a l1 HQ Hm).
  destruct (f a l1) as [[x l2]| |]; cbn [runs] in *; auto.
  destruct Hf as [Hx H2]. split; [exact Hx|]. destruct b; lia.
Qed.

Lemma runs_lax (Q : A -> Luthor -> Prop) (b : bool) (l : Luthor)
    (r : outcome (A * Luthor)) :
  runs true Q l r -> runs b Q l r.
Proof.
  destruct r as [[a l']| |]; cbn [runs]; auto.
  intros [HQ H]. split; [exact HQ|]. destruct b; lia.
Qed.

Lemma runs_whatever (Q : A -> Luthor -> Prop) (b : bool) (l : Luthor)
    (r : outcome (A * Luthor)) :
  runs b Q l r -> runs b whatever l r.
Proof.
  destruct r as [[a l']| |]; cbn [runs]; auto.
  intros [_ H]. split; [exact I|exact H].
Qed.

End Runs.

Lemma runs_ret {A : Type} (Q : A -> Luthor -> Prop) (a : A) (l : Luthor) :
  Q a l -> runs false Q l (ret a l).
Proof. intros H. split; [exact H|apply le_n]. Qed.

Lemma peek_runs (l : Luthor) :
  runs false (fun t l' => current l' = t) l (Luthor.peek l).
Proof.
  unfold Luthor.peek. destruct (current l) as [c|] eqn:Hc.
  - cbn [runs]. split; [exact Hc|lia].
  - pose proof (readNextToken_remaining (stream l)) as H.
    destruct (Luthor.readNextToken (stream l)) as [[[t|] s']|e|];
      cbn [runs]; auto; unfold measure; rewrite Hc; cbn [stream current];
      (split; [reflexivity|lia]).
Qed.

Lemma next_cached_runs (l : Luthor) (x : token) :
  current l = Some x -> runs true whatever l (Luthor.next l).
Proof.
  intros Hc. unfold Luthor.next. rewrite Hc. cbn [runs]. unfold measure.
  rewrite Hc. cbn [stream current]. split; [exact I|lia].
Qed.

Lemma next_runs (l : Luthor) : runs false whatever l (Luthor.next l).
Proof.
  unfold Luthor.next. destruct (current l) as [c|] eqn:Hc.
  - cbn [runs]. unfold measure. rewrite Hc. cbn [stream current].
    split; [exact I|lia].
  - pose proof (readNextToken_remaining (stream l)) as H.
    destruct (Luthor.readNextToken (stream l)) as [[[t|] s']|e|];
      cbn [runs]; auto; unfold measure; rewrite Hc; cbn [stream current];
      (split; [exact I|lia]).
Qed.

Lemma eof_runs (l : Luthor) : runs false whatever l (Luthor.eof l).
Proof.
  unfold Luthor.eof. pose proof (peek_runs l) as H.
  destruct (Luthor.peek l) as [[t l']| |]; cbn [runs] in *; auto.
  split; [exact I|apply H].
Qed.

Lemma die_if_runs (c : bool) (msg : string) (l : Luthor) :
  runs false (fun _ l' => l' = l /\ c = false) l (die_if c msg l).
Proof.
  destruct c; [exact I|]. cbn. auto.
Qed.

(** The three [expect] functions: a token was there, and was taken. *)
Lemma expect_runs (refuses : option token -> bool) (msg : option token -> string)
    (l : Luthor) :
  refuses None = true ->
  runs true whatever l
    ((token <- Luthor.peek ;; die_if (refuses token) (msg token) ;;; Luthor.next) l).
Proof.
  intros Hnone.
  eapply runs_then; [apply peek_runs|]. cbv beta. intros t l1 Ht H1.
  eapply runs_then; [apply die_if_runs|]. cbv beta. intros _ l2 [-> Hc] _.
  destruct t as [x|]; [|congruence]. now apply (next_cached_runs l1 x).
Qed.

Lemma expectPunc_runs (char : string) (l : Luthor) :
  runs true whatever l (Parsicle.expectPunc char l).
Proof.
  exact (expect_runs (fun t => negb (Types.isPunc t (Some char))) _ l eq_refl).
Qed.

Lemma expectIdentifier_runs (l : Luthor) :
  runs true whatever l (Parsicle.expectIdentifier l).
Proof.
  exact (expect_runs (fun t => negb (Types.isId t None)) (fun _ => _) l eq_refl).
Qed.

Lemma expectOps_runs (operators : list string) (l : Luthor) :
  runs true whatever l (Parsicle.expectOps operators l).
Proof.
  exact (expect_runs
           (fun t => negb (Types.isOp t None)
                     || match t with
                        | Some {| tvalue := VString v |} =>
                            negb (found (Matchers.list_indexOf operators v))
                        | _ => true
                        end) (fun _ => _) l eq_refl).
Qed.

Lemma isOneOfType_runs (t : option token) (types : list string) (l : Luthor) :
  runs false (fun _ l' => l' = l /\ t <> None) l (Types.isOneOfType t types l).
Proof.
  destruct t as [x|]; cbn; [|exact I]. split; [|lia]. split; [reflexivity|discriminate].
Qed.

Lemma value_of_runs (t : option token) (l : Luthor) :
  runs false (fun _ l' => l' = l) l (Parsicle.value_of t l).
Proof.
  destruct t as [x|]; cbn; [|exact I]. split; [reflexivity|lia].
Qed.

Lemma parsicle_die_runs {A : Type} (Q : A -> Luthor -> Prop) (b : bool)
    (l : Luthor) :
  runs b Q l (Parsicle.die l).
Proof.
  unfold Parsicle.die, bind. pose proof (peek_runs l) as H.
  destruct (Luthor.peek l) as [[t l']| |]; [exact I|exact I|exact H].
Qed.

Section DelimitedRuns.

Variables (stop separator : string) (parserFn : parser node).

Lemma delimited_loop_runs (k : nat) :
  forall (first : bool) (body : list node) (l : Luthor),
    measure l < k ->
    (forall l1, measure l1 <= measure l -> runs true whatever l1 (parserFn l1)) ->
    runs false whatever l
      (Parsicle.delimited_loop k stop separator parserFn first body l).
Proof.
  induction k as [|k IH]; intros first body l Hk Hitem; [lia|].
  rewrite Eqns.delimited_loop_S.
  eapply runs_then; [apply eof_runs|]. cbv beta. intros e l1 _ H1.
  destruct e; [now apply runs_ret|].
  eapply runs_then; [apply peek_runs|]. cbv beta. intros t l2 _ H2.
  destruct (Types.isPunc t (Some stop)); [now apply runs_ret|].
  eapply (runs_then false whatever).
  { destruct first; [now apply runs_ret|].
    apply runs_lax, expectPunc_runs. }
  cbv beta. intros _ l3 _ H3.
  eapply runs_then; [apply peek_runs|]. cbv beta. intros t' l4 _ H4.
  destruct (Types.isPunc t' (Some stop)); [now apply runs_ret|].
  eapply runs_first; [apply Hitem; lia|]. cbv beta. intros x l5 _ H5.
  apply IH; [lia|]. intros l6 H6. apply Hitem. lia.
Qed.

Lemma delimited_runs (k : nat) (start : string) (l : Luthor) :
  measure l <= k ->
  (forall l1, measure l1 < measure l -> runs true whatever l1 (parserFn l1)) ->
  runs true whatever l
    (Parsicle.delimited k start stop separator parserFn l).
Proof.
  intros Hk Hitem. unfold Parsicle.delimited.
  eapply runs_first; [apply expectPunc_runs|]. cbv beta. intros _ l1 _ H1.
  eapply runs_then.
  { apply delimited_loop_runs; [lia|]. intros l2 H2. apply Hitem. lia. }
  cbv beta. intros body l2 _ H2.
  eapply runs_first; [apply expectPunc_runs|]. cbv beta. intros _ l3 _ H3.
  now apply runs_ret.
Qed.

End DelimitedRuns.

Lemma handleInvocation_runs (n : nat) (callable : parser node) (l : Luthor) :
  runs true whatever l (callable l) ->
  measure l <= n ->
  (forall l1, measure l1 < measure l ->
              runs true whatever l1 (Parsicle.expression n l1)) ->
  runs true whatever l (Parsicle.handleInvocation (S n) callable l).
Proof.
  intros Hc Hn He. rewrite Eqns.handleInvocation_S.
  eapply runs_first; [exact Hc|]. cbv beta. intros nd l1 _ H1.
  eapply runs_then; [apply peek_runs|]. cbv beta. intros t l2 _ H2.
  destruct (Types.isPunc t (Some "(")); [|now apply runs_ret].
  eapply runs_then.
  { apply runs_lax. apply delimited_runs; [lia|].
    intros l3 H3. apply He. lia. }
  cbv beta. intros args l3 _ H3. now apply runs_ret.
Qed.

Ltac then_ lem := eapply runs_then; [apply lem|cbv beta].
Ltac first_ lem := eapply runs_first; [apply lem|cbv beta].

Lemma parsers_run (m : nat) :
  (forall l n, measure l <= m -> 5 * m + 1 <= n ->
     runs true whatever l (Parsicle.parenthetical n l)
     /\ runs true whatever l (Parsicle.block n l)
     /\ runs true whatever l (Parsicle.rule n l)
     /\ runs true whatever l (Parsicle.signed n l))
  /\ (forall l n, measure l <= m -> 5 * m + 3 <= n ->
        runs true whatever l (Parsicle.discrete n l))
  /\ (forall l n leftNode p, measure l <= m -> 5 * m + 1 <= n ->
        runs false whatever l (Parsicle.resolveOperatorBindings n leftNode p l))
  /\ (forall l n, measure l <= m -> 5 * m + 5 <= n ->
        runs true whatever l (Parsicle.expression n l)).
Proof.
  induction m as [m IH] using lt_wf_ind.
  assert (Hi' : forall l n, measure l < m -> 5 * m <= n ->
            runs true whatever l (Parsicle.block n l)).
  { intros l n Hl Hn.
    apply (proj1 (IH (measure l) Hl) l n (le_n _)). lia. }
  assert (Hd' : forall l n, measure l < m -> 5 * m <= n ->
            runs true whatever l (Parsicle.discrete n l)).
  { intros l n Hl Hn.
    apply (proj1 (proj2 (IH (measure l) Hl)) l n (le_n _)). lia. }
  assert (Hr' : forall l n leftNode p, measure l < m -> 5 * m <= n ->
            runs false whatever l
              (Parsicle.resolveOperatorBindings n leftNode p l)).
  { intros l n leftNode p Hl Hn.
    apply (proj1 (proj2 (proj2 (IH (measure l) Hl))) l n _ _ (le_n _)). lia. }
  assert (He' : forall l n, measure l < m -> 5 * m <= n ->
            runs true whatever l (Parsicle.expression n l)).
  { intros l n Hl Hn.
    apply (proj2 (proj2 (proj2 (IH (measure l) Hl))) l n (le_n _)). lia. }
  clear IH.
  assert (Hinner : forall l n, measure l <= m -> 5 * m + 1 <= n ->
     runs true whatever l (Parsicle.parenthetical n l)
     /\ runs true whatever l (Parsicle.block n l)
     /\ runs true whatever l (Parsicle.rule n l)
     /\ runs true whatever l (Parsicle.signed n l)).
  { intros l [|n] Hl Hn; [lia|]. repeat apply conj.
    - (* parenthetical *)
      rewrite Eqns.parenthetical_S.
      first_ expectPunc_runs. intros _ l1 _ H1.
      eapply runs_then; [apply runs_lax, He'; lia|]. cbv beta. intros x l2 _ H2.
      eapply runs_then; [apply runs_lax, expectPunc_runs|]. cbv beta.
      intros _ l3 _ H3. now apply runs_ret.
    - (* block *)
      rewrite Eqns.block_S.
      eapply runs_first.
      { apply delimited_runs; [lia|]. intros l1 H1. apply He'; lia. }
      cbv beta. intros body l1 _ H1.
      destruct body as [|x [|y body]]; now apply runs_ret.
    - (* rule *)
      rewrite Eqns.rule_S.
      then_ next_runs. intros _ l1 _ H1.
      then_ peek_runs. intros t l2 _ H2.
      eapply (runs_then true whatever).
      { destruct (Types.isId t None); [|now apply runs_ret].
        eapply runs_then; [apply runs_lax, expectIdentifier_runs|]. cbv beta.
        intros i l3 _ H3.
        then_ value_of_runs. intros v l4 -> _. now apply runs_ret. }
      cbv beta. intros name l3 _ H3.
      then_ peek_runs. intros t' l4 _ H4.
      then_ die_if_runs. intros _ l5 [-> _] _.
      eapply runs_first.
      { apply delimited_runs; [lia|]. intros l6 H6.
        eapply runs_first; [apply expectIdentifier_runs|]. cbv beta.
        intros i l7 _ H7. now apply runs_ret. }
      cbv beta. intros args l6 _ H6.
      then_ peek_runs. intros t'' l7 _ H7.
      then_ die_if_runs. intros _ l8 [-> _] _.
      eapply runs_then; [apply runs_lax, Hi'; lia|]. cbv beta.
      intros body l9 _ H9. now apply runs_ret.
    - (* signed *)
      rewrite Eqns.signed_S.
      first_ expectOps_runs. intros sign l1 _ H1.
      then_ peek_runs. intros t l2 _ H2.
      eapply (runs_then false (fun _ l' => l' = l2)).
      { destruct (Types.isPunc t (Some "(")); [now apply runs_ret|].
        pose proof (isOneOfType_runs t ["num"; "id"] l2) as H.
        destruct (Types.isOneOfType t ["num"; "id"] l2) as [[? ?]| |];
          cbn [runs] in *; auto. now destruct H as [[-> _] ?]. }
      cbv beta. intros b l3 -> _.
      then_ die_if_runs. intros _ l4 [-> _] _.
      then_ value_of_runs. intros v l5 -> _.
      assert (Hplain : runs false whatever l2 (Parsicle.discrete n l2))
        by (apply runs_lax, Hd'; lia).
      assert (Hminus : runs false whatever l2
                ((d <- Parsicle.discrete n ;;
                  ret (Nodes.binaryExpression "*" (Prim (VNumber (Dec (-1)))) d))
                   l2)).
      { eapply runs_then; [exact Hplain|]. cbv beta. intros d l6 _ H6.
        now apply runs_ret. }
      destruct v as [w|q]; [|exact Hplain].
      destruct w as [|c w]; [exact Hplain|].
      destruct (Ascii.eqb c "-") eqn:Hc.
      + apply Ascii.eqb_eq in Hc. subst c.
        destruct w; [exact Hminus|exact Hplain].
      + destruct c as [[|] [|] [|] [|] [|] [|] [|] [|]];
          try discriminate Hc; exact Hplain. }
  assert (Hdisc : forall l n, measure l <= m -> 5 * m + 3 <= n ->
            runs true whatever l (Parsicle.discrete n l)).
  { intros l [|[|n]] Hl Hn; try lia.
    rewrite Eqns.discrete_S. apply handleInvocation_runs; [|lia|].
    - then_ peek_runs. intros t l1 Ht H1.
      destruct (Hinner l1 (S n) ltac:(lia) ltac:(lia)) as (Hp & Hb & Hr & Hs).
      destruct (Types.isPunc t (Some "(")); [exact Hp|].
      destruct (Types.isPunc t (Some "{")); [exact Hb|].
      destruct (Types.isKw t (Some "rule")); [exact Hr|].
      destruct (Types.isOp t (Some "-") || Types.isOp t (Some "+"));
        [exact Hs|].
      then_ isOneOfType_runs. intros leaf l2 [-> Hsome] _.
      destruct leaf; [|apply parsicle_die_runs].
      destruct t as [x|]; [|congruence].
      eapply runs_first; [apply (next_cached_runs l1 x Ht)|]. cbv beta.
      intros r l3 _ H3. now apply runs_ret.
    - intros l1 H1. apply He'; lia. }
  assert (Hres : forall l n leftNode p, measure l <= m -> 5 * m + 1 <= n ->
            runs false whatever l
              (Parsicle.resolveOperatorBindings n leftNode p l)).
  { intros l [|n] leftNode p Hl Hn; [lia|].
    rewrite Eqns.resolveOperatorBindings_S.
    then_ peek_runs. intros t l1 Ht H1.
    destruct (Types.isOp t None); [|now apply runs_ret].
    destruct t as [[ty [op|q]]|]; try now apply runs_ret.
    destruct (lookup PRECEDENCE op) as [q|]; [|now apply runs_ret].
    destruct (p <? q); [|now apply runs_ret].
    eapply runs_first; [apply (next_cached_runs l1 _ Ht)|]. cbv beta.
    intros _ l2 _ H2.
    eapply runs_then; [apply runs_lax, Hd'; lia|]. cbv beta. intros d l3 _ H3.
    eapply runs_then; [apply Hr'; lia|]. cbv beta. intros r l4 _ H4.
    apply Hr'; lia. }
  repeat apply conj; try assumption.
  intros l [|[|n]] Hl Hn; try lia.
  rewrite Eqns.expression_S. apply handleInvocation_runs; [|lia|].
  - eapply runs_first; [apply Hdisc; lia|]. cbv beta. intros d l1 _ H1.
    apply Hr'; lia.
  - intros l1 H1. apply He'; lia.
Qed.

Lemma parse_loop_runs (n : nat) :
  forall ast l,
    5 * measure l + 6 <= n ->
    runs false whatever l (Parsicle.parse_loop n ast l).
Proof.
  induction n as [|n IH]; intros ast l Hn; [lia|].
  rewrite Eqns.parse_loop_S.
  then_ eof_runs. intros e l1 _ H1. destruct e; [now apply runs_ret|].
  eapply runs_first.
  { apply (proj2 (proj2 (proj2 (parsers_run (measure l1)))) l1 n (le_n _)). lia. }
  cbv beta. intros x l2 _ H2.
  then_ eof_runs. intros e l3 _ H3.
  eapply (runs_then false whatever).
  { destruct e; [now apply runs_ret|apply runs_lax, expectPunc_runs]. }
  cbv beta. intros _ l4 _ H4. apply IH. lia.
Qed.

Lemma parse_runs (n : nat) (l : Luthor) :
  5 * measure l + 6 <= n -> runs true whatever l (Parsicle.parse n l).
Proof.
  intros Hn. unfold Parsicle.parse.
  eapply runs_first.
  { apply (proj2 (proj2 (proj2 (parsers_run (measure l)))) l n (le_n _)). lia. }
  cbv beta. intros x l1 _ H1. apply parse_loop_runs. lia.
Qed.

(** X23. [parse] terminates on every document: fuel of ten times the length
    of the document plus six is enough for it to return or to throw, and
    more fuel gives the same result. Every call that descends consumes a
    token first, and a token consumes input. *)
Theorem parse_terminates (content : string) (k : nat) :
  parse_string (enough content) content <> OutOfFuel
  /\ parse_string (enough content + k) content
     = parse_string (enough content) content.
Proof.
  assert (H : parse_string (enough content) content <> OutOfFuel).
  { unfold parse_string, run.
    pose proof (parse_runs (enough content) (Luthor.new (CharStream.new content)))
      as R.
    assert (Hm : 5 * measure (Luthor.new (CharStream.new content)) + 6
                 <= enough content).
    { unfold enough, measure, CharStream.remaining. cbn. lia. }
    specialize (R Hm).
    destruct (Parsicle.parse _ _) as [[a l']| |]; try discriminate.
    intros _. exact R. }
  split; [exact H|]. now apply parse_string_fuel.
Qed.

(** X24. On any token that starts no expression (a punctuation other than
    an opening parenthesis or brace, an operator other than a sign, a keyword
    other than rule) an expression raises the syntax error Unexpected token,
    with the token printed, at the place of the cursor, which stands after
    that token. *)
Theorem unexpected_token (k : nat) (t : token) (l l' : Luthor)
    (Hpeek : Luthor.peek l = Ok (Some t, l'))
    (Ht : starts_expression t = false) :
  Parsicle.expression (3 + k) l
  = Throw (IllegalSyntaxError (line (stream l')) (col (stream l'))
             ("Unexpected token: " ++ JSON.token (Some t))).
Proof.
  unfold starts_expression in Ht.
  repeat (apply orb_false_iff in Ht; destruct Ht as [Ht ?]).
  change (3 + k) with (S (S (S k))).
  rewrite Eqns.expression_S, Eqns.handleInvocation_S, Eqns.discrete_S,
    Eqns.handleInvocation_S.
  unfold bind at 1 2 3. unfold bind at 1. rewrite Hpeek.
  repeat match goal with H : _ = false |- _ => rewrite H; clear H end.
  cbn [orb]. unfold Types.isOneOfType, bind at 1, ret at 1.
  fold (is_atom t).
  match goal with H : is_atom t = false |- _ => rewrite H end.
  unfold Parsicle.die, bind. rewrite (peek_peek _ _ _ Hpeek).
  reflexivity.
Qed.

Lemma unexpected_token_witness :
  Parsicle.expression 3 (lexer "* 2")
  = Throw (IllegalSyntaxError 1 1
             ("Unexpected token: " ++ JSON.token (Some (Tokens.operator "*")))).
Proof.
  refine (unexpected_token 0 (Tokens.operator "*") (lexer "* 2")
            (mkLuthor (mkCharStream "* 2" 1 1 1) (Some (Tokens.operator "*")))
            _ eq_refl).
  vm_compute. reflexivity.
Defined.

Lemma parse_loop_atoms (middle : list token) (last : option token) :
  forall (k : nat) (ast : list node) (l : Luthor),
    forallb is_atom middle = true ->
    (forall a, last = Some a -> is_atom a = true) ->
    delivers l (flat_map (fun a => [a; Tokens.punctuation ";"]) middle
                ++ optional last)%list ->
    exists l',
      Parsicle.parse_loop (6 + length middle + k) ast l
      = Ok ((ast ++ map Leaf (middle ++ optional last))%list, l').
Proof.
  induction middle as [|a middle IH]; intros k ast l Hm Hlast Hd.
  - cbn [flat_map app length Nat.add map] in *.
    destruct last as [a|]; cbn [optional] in *.
    + rewrite Eqns.parse_loop_S.
      destruct (delivers_eof _ _ Hd) as (l1 & He1 & Hd1). run He1.
      cbn [hd_error is_end].
      destruct (expression_atom (1 + k) l1 a [] (Hlast a eq_refl) eq_refl Hd1)
        as (l2 & Hx2 & Hd2).
      run Hx2.
      destruct (delivers_eof _ _ Hd2) as (l3 & He3 & Hd3). run He3.
      cbn [hd_error is_end]. erewrite bind_ok; [|reflexivity]. cbv beta.
      rewrite Eqns.parse_loop_S.
      destruct (delivers_eof _ _ Hd3) as (l4 & He4 & Hd4). run He4.
      cbn [hd_error is_end]. exists l4. reflexivity.
    + rewrite Eqns.parse_loop_S.
      destruct (delivers_eof _ _ Hd) as (l1 & He1 & Hd1). run He1.
      cbn [hd_error is_end]. exists l1. unfold ret. now rewrite app_nil_r.
  - cbn [forallb] in Hm. apply andb_true_iff in Hm. destruct Hm as [Ha Hm].
    cbn [flat_map app] in *.
    replace (6 + length (a :: middle) + k) with (S (6 + length middle + k))
      by (cbn [length]; lia).
    rewrite Eqns.parse_loop_S.
    destruct (delivers_eof _ _ Hd) as (l1 & He1 & Hd1). run He1.
    cbn [hd_error is_end].
    destruct (expression_atom (2 + length middle + k) l1 a
                (Tokens.punctuation ";"
                 :: flat_map (fun a => [a; Tokens.punctuation ";"]) middle
                 ++ optional last)%list Ha eq_refl Hd1)
      as (l2 & Hx2 & Hd2).
    replace (4 + (2 + length middle + k)) with (6 + length middle + k) in Hx2
      by lia.
    run Hx2.
    destruct (delivers_eof _ _ Hd2) as (l3 & He3 & Hd3). run He3.
    cbn [hd_error is_end].
    destruct (expectPunc_delivers _ _ _ Hd3) as (l4 & Hp4 & Hd4). run Hp4.
    destruct (IH k (ast ++ [Leaf a])%list l4 Hm Hlast Hd4) as (l5 & Hl5).
    exists l5. rewrite Hl5. cbn [map app]. now rewrite <- app_assoc.
Qed.

(** X25. The programs that [parse] accepts, over atoms: a first expression,
    then, with no separator before them, expressions that each end in a
    semicolon, the last of which may do without. [parse] returns the leaves
    in their order. *)
Theorem program_of_atoms (a0 : token) (middle : list token)
    (last : option token) (k : nat) (l : Luthor)
    (Ha0 : is_atom a0 = true)
    (Hmiddle : forallb is_atom middle = true)
    (Hlast : forall a, last = Some a -> is_atom a = true)
    (Hd : delivers l
            (a0 :: flat_map (fun a => [a; Tokens.punctuation ";"]) middle
                ++ optional last)%list) :
  exists l',
    Parsicle.parse (6 + length middle + k) l
    = Ok (map Leaf (a0 :: middle ++ optional last)%list, l').
Proof.
  unfold Parsicle.parse.
  assert (Hs : stopper (flat_map (fun a => [a; Tokens.punctuation ";"]) middle
                        ++ optional last)%list = true).
  { destruct middle as [|a middle].
    - destruct last as [a|]; [|reflexivity]. cbn [flat_map app optional stopper].
      destruct (atom_type a (Hlast a eq_refl)) as [E|[E|E]];
        unfold Types.isPunc, Types.checkTypeAndValue; rewrite E; reflexivity.
    - cbn [forallb] in Hmiddle. apply andb_true_iff in Hmiddle.
      destruct Hmiddle as [Ha _]. cbn [flat_map app stopper].
      destruct (atom_type a Ha) as [E|[E|E]];
        unfold Types.isPunc, Types.checkTypeAndValue; rewrite E; reflexivity. }
  destruct (expression_atom (2 + length middle + k) l a0 _ Ha0 Hs Hd)
    as (l1 & Hx1 & Hd1).
  replace (4 + (2 + length middle + k)) with (6 + length middle + k) in Hx1
    by lia.
  run Hx1.
  destruct (parse_loop_atoms middle last k [Leaf a0] l1 Hmiddle Hlast Hd1)
    as (l2 & Hl2).
  exists l2. exact Hl2.
Qed.

Lemma delivers_program :
  delivers (lexer "1 2; 3")
    [Tokens.numeric (Dec 1); Tokens.numeric (Dec 2); Tokens.punctuation ";";
     Tokens.numeric (Dec 3)].
Proof. delivered. Qed.

Lemma program_of_atoms_witness :
  exists l',
    Parsicle.parse 7 (lexer "1 2; 3") = Ok ([num 1; num 2; num 3], l').
Proof.
  refine (program_of_atoms (Tokens.numeric (Dec 1)) [Tokens.numeric (Dec 2)]
            (Some (Tokens.numeric (Dec 3))) 0 (lexer "1 2; 3")
            eq_refl eq_refl _ delivers_program).
  intros a [= <-]. reflexivity.
Defined.

(** [discrete] before it looks for an argument list, on an atom. *)
Lemma leaf_callable (n : nat) (a : token) (ts : list token) (l : Luthor) :
  is_atom a = true -> delivers l (a :: ts) ->
  exists l',
    (current <- Luthor.peek ;;
     if Types.isPunc current (Some "(") then Parsicle.parenthetical n
     else if Types.isPunc current (Some "{") then Parsicle.block n
     else if Types.isKw current (Some "rule") then Parsicle.rule n
     else if Types.isOp current (Some "-") || Types.isOp current (Some "+")
          then Parsicle.signed n
     else
       leaf <- Types.isOneOfType current ["num"; "str"; "id"] ;;
       if leaf then (t <- Luthor.next ;; ret (js t))
       else Parsicle.die) l
    = Ok (Leaf a, l')
    /\ delivers l' ts.
Proof.
  intros Ha Hd.
  destruct (delivers_peek _ _ Hd) as (l1 & Hp1 & Hd1).
  destruct (delivers_next _ _ _ Hd1) as (l2 & Hn2 & Hd2).
  exists l2. split; [|exact Hd2]. run Hp1. cbn [hd_error].
  destruct (atom_tests a (Some "(") Ha) as (-> & _ & _).
  destruct (atom_tests a (Some "{") Ha) as (-> & _ & _).
  destruct (atom_tests a (Some "rule") Ha) as (_ & -> & _).
  destruct (atom_tests a (Some "-") Ha) as (_ & _ & ->).
  destruct (atom_tests a (Some "+") Ha) as (_ & _ & ->).
  cbn [orb]. unfold Types.isOneOfType. erewrite bind_ok; [|reflexivity].
  cbv beta. fold (is_atom a). rewrite Ha. run Hn2. reflexivity.
Qed.

(** X26. An expression takes two argument lists and no more. An atom
    followed by two parenthesized lists of atoms gives the call of a call,
    whatever comes next; a third list, if one follows, is left in the
    stream. *)
Theorem two_argument_lists (f : token) (args1 args2 : list token)
    (b1 b2 : bool) (rest : list token) (k : nat) (l : Luthor)
    (Hf : is_atom f = true)
    (H1 : forallb is_atom args1 = true)
    (H2 : forallb is_atom args2 = true)
    (Hb1 : args1 = [] -> b1 = false)
    (Hb2 : args2 = [] -> b2 = false)
    (Hd : delivers l
            (f :: Tokens.punctuation "("
               :: separated "," (map (fun a => [a]) args1)
               ++ trailing b1 "," ++ Tokens.punctuation ")"
               :: Tokens.punctuation "("
               :: separated "," (map (fun a => [a]) args2)
               ++ trailing b2 "," ++ Tokens.punctuation ")" :: rest)%list) :
  exists l',
    Parsicle.expression (7 + length args1 + length args2 + k) l
    = Ok (Call (Call (Leaf f) (map Leaf args1)) (map Leaf args2), l')
    /\ delivers l' rest.
Proof.
  set (n2 := 4 + (length args1 + length args2 + k)).
  replace (7 + length args1 + length args2 + k) with (S (S (S n2)))
    by (unfold n2; lia).
  set (items1 := map (fun a => ([a], Leaf a)) args1).
  set (items2 := map (fun a => ([a], Leaf a)) args2).
  rewrite <- (map_fst_atoms args1), <- (map_fst_atoms args2) in Hd.
  rewrite <- (map_snd_atoms args1), <- (map_snd_atoms args2).
  fold items1 items2 in Hd |- *.
  destruct (leaf_callable (S n2) f _ l Hf Hd) as (l1 & Hc1 & Hd1).
  assert (Hn1 : length items1 < n2)
    by (unfold items1, n2; rewrite length_map; lia).
  assert (Hn2 : length items2 < S n2)
    by (unfold items2, n2; rewrite length_map; lia).
  assert (Hnil1 : items1 = [] -> b1 = false)
    by (intros E; apply Hb1; unfold items1 in E; now destruct args1).
  assert (Hnil2 : items2 = [] -> b2 = false)
    by (intros E; apply Hb2; unfold items2 in E; now destruct args2).
  destruct (invocation_list n2 _ (Leaf f) items1 b1 _ l l1 Hn1 Hc1
              (reads_atoms "," ")" (length args1 + length args2 + k) args1
                 eq_refl eq_refl H1) Hnil1 Hd1) as (l2 & Hl2 & Hd2).
  rewrite <- Eqns.discrete_S in Hl2.
  destruct (resolve_stop (Call (Leaf f) (map snd items1)) 0 l2 _ Hd2)
    as (l3 & Hr3 & Hd3); [cbn [hd_error Tokens.punctuation]; now left|].
  pose proof (extends_Ok _ _ _ _
                (resolveOperatorBindings_fuel 1 (S n2) _ _) Hr3) as Hr3'.
  change (1 + S n2) with (S (S n2)) in Hr3'.
  rewrite Eqns.expression_S.
  assert (Hc3 : (d <- Parsicle.discrete (S (S n2)) ;;
                 Parsicle.resolveOperatorBindings (S (S n2)) d 0) l
                = Ok (Call (Leaf f) (map snd items1), l3))
    by (run Hl2; exact Hr3').
  destruct (invocation_list (S n2) _ _ items2 b2 rest l l3 Hn2 Hc3
              (reads_atoms "," ")" (1 + (length args1 + length args2 + k)) args2
                 eq_refl eq_refl H2) Hnil2 Hd3) as (l4 & Hl4 & Hd4).
  exists l4. now split.
Qed.

Lemma delivers_curried :
  delivers (lexer "f(1)(2)(3)")
    [Tokens.identifier "f"; Tokens.punctuation "("; Tokens.numeric (Dec 1);
     Tokens.punctuation ")"; Tokens.punctuation "("; Tokens.numeric (Dec 2);
     Tokens.punctuation ")"; Tokens.punctuation "("; Tokens.numeric (Dec 3);
     Tokens.punctuation ")"].
Proof. delivered. Qed.

Lemma two_argument_lists_witness :
  exists l',
    Parsicle.expression 9 (lexer "f(1)(2)(3)")
    = Ok (Call (Call (ident "f") [num 1]) [num 2], l')
    /\ delivers l' [Tokens.punctuation "("; Tokens.numeric (Dec 3);
                    Tokens.punctuation ")"].
Proof.
  refine (two_argument_lists (Tokens.identifier "f")
            [Tokens.numeric (Dec 1)] [Tokens.numeric (Dec 2)] false false
            [Tokens.punctuation "("; Tokens.numeric (Dec 3);
             Tokens.punctuation ")"]
            0 (lexer "f(1)(2)(3)") eq_refl eq_refl eq_refl _ _
            delivers_curried); discriminate.
Defined.
